(** * ALG-BINARY: envy-graph local search for Nash social welfare

    A shallow embedding of [ALG-BINARY_loese_Instanz.py]: the welfare
    evaluator, the envy graph builder, the BFS all-pairs shortest path
    solver, the augmenting path selector, the reallocation executor and the
    optimisation loop of [main], followed by the properties of the
    specification that were checked against them.  The instance generator
    ([create_agent_preferences], [random_allocation], [stupid_allocation])
    follows the program, with the random number generators as an interface
    of their own, [PyRandom].  [ALG_BINARY_generiere_daten.py] has the same
    functions.

    Conventions.
    - Agents and items are list indices, hence [nat]; item counts are Python
      integers that the selector decrements, hence [Z].
    - A Python exception is a value [Raise e] of the error monad [res];
      indexing a list out of range raises [IndexError].
    - The module-level globals [agent_quantity] and [item_quantity] are
      section variables, so that after the section they are the leading
      arguments of every function that reads them.
    - Floating point is not interpreted: the Python and numpy operations on
      floats form the interface [PyNum], and every statement holds for all
      of its implementations. *)

From Stdlib Require Import ZArith QArith Qround Lia.
From stdpp Require Import base list sorting.

Open Scope Z_scope.
Open Scope nat_scope.

(** ** Exceptions and the error monad *)

Inductive exn : Set :=
  | IndexError
  | ZeroDivisionError
  | OverflowError
  | TypeError
  | ValueError
  | OutOfFuel.

Inductive res (A : Type) : Type :=
  | Ok (a : A)
  | Raise (e : exn).

Arguments Ok {A} a.
Arguments Raise {A} e.

Definition bind {A B : Type} (m : res A) (f : A -> res B) : res B :=
  match m with
  | Ok a => f a
  | Raise e => Raise e
  end.

Notation "x <- m ;; k" := (bind m (fun x => k))
  (at level 100, m at next level, right associativity,
   format "'[v' x  <-  m  ;;  '/' k ']'").

Fixpoint foldM {A B : Type} (f : B -> A -> res B) (b : B) (l : list A) : res B :=
  match l with
  | [] => Ok b
  | x :: l' => b' <- f b x;; foldM f b' l'
  end.

Fixpoint mapM {A B : Type} (f : A -> res B) (l : list A) : res (list B) :=
  match l with
  | [] => Ok []
  | x :: l' => y <- f x;; ys <- mapM f l';; Ok (y :: ys)
  end.

(** [l[i]] as an expression and [l[i] = x] as a statement. *)
Definition get {A : Type} (l : list A) (i : nat) : res A :=
  match l !! i with
  | Some x => Ok x
  | None => Raise IndexError
  end.

Definition set {A : Type} (l : list A) (i : nat) (x : A) : res (list A) :=
  if decide (i < length l) then Ok (<[i := x]> l) else Raise IndexError.

(** ** The numbers of the Python runtime

    [num] stands for the values that float arithmetic produces here: the
    doubles, and the complex numbers that [int ** float] returns for a
    negative base.  The operations are those the program applies to them;
    an operation that can raise returns in [res]. *)

Class PyNum : Type := {
  num : Type;
  (** the literals [0] and [1], where they meet a float *)
  num_of_int : Z -> num;
  (** [a / b] on ints, for [b <> 0] *)
  int_truediv : Z -> Z -> num;
  (** [p ** e] for an int [p] and a float [e] *)
  int_pow : Z -> num -> res num;
  (** [x * y] *)
  num_mul : num -> num -> num;
  (** [k * x] for an int [k] and a numpy float [x] *)
  int_mul : Z -> num -> res num;
  (** [x > y] *)
  num_gt : num -> num -> res bool;
  (** [numpy.log(k)] for an int [k] *)
  np_log : Z -> res num;
  (** [round(x)] *)
  py_round : num -> res Z;
  (** [>] is irreflexive and transitive (also in the presence of NaN, on
      which it is false) *)
  num_gt_irrefl : forall x, num_gt x x <> Ok true;
  num_gt_trans : forall x y z,
    num_gt x y = Ok true -> num_gt y z = Ok true -> num_gt x z = Ok true
}.

(** ** The random number generators

    [rng] is the state of the two generators that the program draws from,
    numpy's and the one of the module [random]; a draw returns, with its
    value, the state that follows. *)

Class PyRandom `{PyNum} : Type := {
  rng : Type;
  (** [numpy.random.random()] *)
  np_random : rng -> num * rng;
  (** [random.randint(a, b)]: an integer of the closed range, [ValueError]
      when the range is empty *)
  randint : Z -> Z -> rng -> res (Z * rng);
  randint_range : forall a b g x g',
    randint a b g = Ok (x, g') -> (a <= x <= b)%Z;
  randint_empty : forall a b g, (b < a)%Z -> randint a b g = Raise ValueError;
  randint_draws : forall a b g, (a <= b)%Z ->
    exists x g', randint a b g = Ok (x, g')
}.

(** ** Python indices

    An index below zero counts from the end of the list. *)
Definition index (len : nat) (i : Z) : res nat :=
  if decide (0 <= i < Z.of_nat len)%Z then Ok (Z.to_nat i)
  else if decide (- Z.of_nat len <= i < 0)%Z then Ok (Z.to_nat (Z.of_nat len + i))
  else Raise IndexError.

Definition get_at {A : Type} (l : list A) (i : Z) : res A :=
  k <- index (length l) i;; get l k.

Definition set_at {A : Type} (l : list A) (i : Z) (x : A) : res (list A) :=
  k <- index (length l) i;; set l k x.

(** ** The program *)

Section Program.

(** [agent_quantity] and [item_quantity], the globals of the module. *)
Variable agent_quantity : nat.
Variable item_quantity : nat.
Context `{PyNum}.

(** *** Welfare evaluator *)

(** The body of the loop of [split_nsw], on the state
    [(counter, product, rooted_product)]. *)
Definition split_nsw_step (st : nat * Z * num) (value : Z) : res (nat * Z * num) :=
  let '(counter, product, rooted_product) := st in
  let counter := counter + 1 in
  let product := (product * value)%Z in
  if decide (counter mod 20 = 0) then
    (if decide (agent_quantity = 0) then Raise ZeroDivisionError else
     product <- int_pow product (int_truediv 1 (Z.of_nat agent_quantity));;
     Ok (counter, 1%Z, num_mul rooted_product product))
  else Ok (counter, product, rooted_product).

Definition split_nsw (agent_values : list Z) : res num :=
  st <- foldM split_nsw_step (0, 1%Z, num_of_int 1) agent_values;;
  let '(_, product, rooted_product) := st in
  if decide (agent_quantity = 0) then Raise ZeroDivisionError else
  product <- int_pow product (int_truediv 1 (Z.of_nat agent_quantity));;
  Ok (num_mul rooted_product product).

Definition calculate_agent_valuations (allocation : list nat) : res (list Z) :=
  foldM (fun agent_values item =>
           owner <- get allocation item;;
           v <- get agent_values owner;;
           set agent_values owner (v + 1)%Z)
        (replicate agent_quantity 0%Z) (seq 0 item_quantity).

Definition fast_nsw (path : list nat) (allocation : list nat) : res num :=
  agent_values <- calculate_agent_valuations allocation;;
  receiver <- get path 0;;
  v <- get agent_values receiver;;
  agent_values <- set agent_values receiver (v + 1)%Z;;
  giver <- get path (length path - 1);;
  v <- get agent_values giver;;
  agent_values <- set agent_values giver (v - 1)%Z;;
  split_nsw agent_values.

(** *** Envy graph builder *)

Definition envy_list (preferences : list (list bool)) (x : nat)
    (allocation : list nat) : res (list nat) :=
  foldM (fun envied_items item =>
           row <- get preferences x;;
           likes <- get row item;;
           if likes : bool then
             owner <- get allocation item;;
             if decide (owner <> x) then Ok (envied_items ++ [item])
             else Ok envied_items
           else Ok envied_items)
        [] (seq 0 item_quantity).

Definition envied_agents (envied_items : list (list nat))
    (allocation : list nat) : res (list (list nat)) :=
  mapM (fun items => mapM (fun specific_item => get allocation specific_item) items)
       envied_items.

Definition calculate_item_envy_relations (preferences : list (list bool))
    (allocation : list nat) : res (list (list nat)) :=
  big_envy_item_list <-
    mapM (fun i => envy_list preferences i allocation) (seq 0 agent_quantity);;
  envied_agents big_envy_item_list allocation.

(** [list(dict.fromkeys(l))]: the keys in the order of their first insertion. *)
Fixpoint fromkeys (keys : list nat) (l : list nat) : list nat :=
  match l with
  | [] => keys
  | x :: l' =>
      if decide (x ∈ keys) then fromkeys keys l' else fromkeys (keys ++ [x]) l'
  end.

(** The slots of [shortened_envy_relation] start as the integer [0]; slot [i]
    becomes a list when [i] is reached.  The element type here has lists
    only: a relation with fewer than [agent_quantity] rows, which would
    leave integers behind, is refused with the [TypeError] that [bfs] raises
    on such a slot ([len] of an integer) when [solve_APSP] starts a search
    from it. *)
Definition shorten_envy_list (agent_edges_list : list (list nat)) : res (list (list nat)) :=
  shortened_envy_relation <-
    foldM (fun shortened i =>
             edges <- get agent_edges_list i;;
             let short_envy := fromkeys [] (merge_sort Nat.le edges) in
             set shortened i short_envy)
          (replicate agent_quantity []) (seq 0 (length agent_edges_list));;
  if decide (length agent_edges_list < agent_quantity) then Raise TypeError
  else Ok shortened_envy_relation.

(** *** APSP solver *)

(** The local variables of [bfs]; an entry of [distances] is [None] while it
    is the string ["inf"]. *)
Record bfs_state : Type := BfsState {
  queue : list nat;
  visited : list bool;
  distances : list (option nat);
  shortest_paths_to_node : list (list nat)
}.

(** One pass of the inner loop of [bfs]: the neighbour [nb] of [node]. *)
Definition bfs_visit (node : nat) (st : bfs_state) (nb : nat) : res bfs_state :=
  seen <- get (visited st) nb;;
  if seen : bool then Ok st else
  visited' <- set (visited st) nb true;;
  d <- get (distances st) node;;
  d' <- match d with
        | Some k => Ok (Some (k + 1))
        | None => Raise TypeError
        end;;
  distances' <- set (distances st) nb d';;
  path_to_node <- get (shortest_paths_to_node st) node;;
  paths' <- set (shortest_paths_to_node st) nb (path_to_node ++ [node]);;
  Ok (BfsState (queue st ++ [nb]) visited' distances' paths').

(** The [while len(queue) > 0] loop.  It runs at most [agent_quantity]
    times (lemma [bfs_while_fuel]), which is the fuel [bfs] gives it. *)
Fixpoint bfs_while (fuel : nat) (shortened_envy_relation : list (list nat))
    (st : bfs_state) : res bfs_state :=
  match queue st with
  | [] => Ok st
  | node :: rest =>
      match fuel with
      | 0 => Raise OutOfFuel
      | S fuel' =>
          neighbours <- get shortened_envy_relation node;;
          st' <- foldM (bfs_visit node)
                   (BfsState rest (visited st) (distances st)
                      (shortest_paths_to_node st))
                   neighbours;;
          bfs_while fuel' shortened_envy_relation st'
      end
  end.

(** The closing loop of [bfs]: complete the paths, empty the unreachable. *)
Definition bfs_clean (start_node : nat) (distances : list (option nat))
    (paths : list (list nat)) (i : nat) : res (list (list nat)) :=
  if decide (i <> start_node) then
    p <- get paths i;;
    paths <- set paths i (p ++ [i]);;
    d <- get distances i;;
    match d with
    | None => set paths i []
    | Some _ => Ok paths
    end
  else Ok paths.

Definition bfs (shortened_envy_relation : list (list nat)) (start_node : nat)
    : res (list (list nat)) :=
  visited0 <- set (replicate agent_quantity false) start_node true;;
  distances0 <- set (replicate agent_quantity None) start_node (Some 0);;
  st <- bfs_while agent_quantity shortened_envy_relation
          (BfsState [start_node] visited0 distances0 (replicate agent_quantity []));;
  foldM (bfs_clean start_node (distances st)) (shortest_paths_to_node st)
        (seq 0 agent_quantity).

Definition solve_APSP (shortened_envy_relation : list (list nat))
    : res (list (list (list nat))) :=
  mapM (fun agent => bfs shortened_envy_relation agent) (seq 0 agent_quantity).

(** *** Augmenting path selector *)

(** The body of the double loop of [find_path], on the state
    [(best_path, current_maximum)]. *)
Definition find_path_step (allocation : list nat) (st : list nat * num)
    (path : list nat) : res (list nat * num) :=
  let '(best_path, current_maximum) := st in
  match path with
  | [] => Ok st
  | _ :: _ =>
      possible_maximum <- fast_nsw path allocation;;
      better <- num_gt possible_maximum current_maximum;;
      if better : bool then Ok (path, possible_maximum) else Ok st
  end.

Definition find_path (apsp_matrix : list (list (list nat))) (allocation : list nat)
    : res (list nat) :=
  agent_values <- calculate_agent_valuations allocation;;
  current_nsw <- split_nsw agent_values;;
  st <- foldM (fun st node => foldM (find_path_step allocation) st node)
          ([], num_of_int 0) apsp_matrix;;
  let '(best_path, current_maximum) := st in
  improves <- num_gt current_maximum current_nsw;;
  if improves : bool then Ok best_path else Ok [].

Definition runtime : res num :=
  l <- np_log (Z.of_nat agent_quantity * Z.of_nat item_quantity)%Z;;
  int_mul (2 * Z.of_nat agent_quantity * (Z.of_nat item_quantity + 1))%Z l.

(** *** Reallocation executor *)

(** The inner loop of [pick_items]: the first item of the giver that the
    taker likes, [None] when the loop ends without [break]. *)
Fixpoint pick_item (preferences : list (list bool)) (best_path : list nat)
    (agent : nat) (giveable : list nat) : res (option nat) :=
  match giveable with
  | [] => Ok None
  | giveable_item :: rest =>
      taker <- get best_path agent;;
      row <- get preferences taker;;
      likes <- get row giveable_item;;
      if likes : bool then Ok (Some giveable_item)
      else pick_item preferences best_path agent rest
  end.

Definition pick_items (best_path : list nat) (changing_allocation : list nat)
    (possessions : list (list nat)) (preferences : list (list bool))
    : res (list nat) :=
  foldM (fun swapping_item_list agent =>
           giver <- get best_path (agent + 1);;
           giveable <- get possessions giver;;
           found <- pick_item preferences best_path agent giveable;;
           match found with
           | Some giveable_item => Ok (swapping_item_list ++ [giveable_item])
           | None => Ok swapping_item_list
           end)
        [] (seq 0 (length best_path - 1)).

Definition find_possession (allocation : list nat) : res (list (list nat)) :=
  foldM (fun possessions item =>
           owner <- get allocation item;;
           own <- get possessions owner;;
           set possessions owner (own ++ [item]))
        (replicate agent_quantity []) (seq 0 (length allocation)).

Definition execute_swap (changing_allocation : list nat) (swapping_list : list nat)
    (best_path : list nat) : res (list nat) :=
  foldM (fun changing_allocation item =>
           agent <- get best_path item;;
           swapped <- get swapping_list item;;
           set changing_allocation swapped agent)
        changing_allocation (seq 0 (length swapping_list)).

(** *** Optimisation loop *)

(** How the loop of [main] was left: by the [return] under
    [if not best_path], or by running out of [range]. *)
Inductive termination : Set := CONVERGED | BUDGET_EXHAUSTED.

Record outcome : Type := Outcome {
  final_allocation : list nat;
  global_swapping_list : list (list nat);
  iterations : nat;
  reason : termination
}.

(** The [for run in range(0, ...)] loop of [main] with [runs] passes left,
    [run] of them done. *)
Fixpoint solve_loop (runs : nat) (run : nat) (preferences : list (list bool))
    (allocation : list nat) (swaps : list (list nat)) : res outcome :=
  match runs with
  | 0 => Ok (Outcome allocation swaps run BUDGET_EXHAUSTED)
  | S runs' =>
      all_agents_envies <- calculate_item_envy_relations preferences allocation;;
      shortened_envy_relation <- shorten_envy_list all_agents_envies;;
      apsp_matrix <- solve_APSP shortened_envy_relation;;
      best_path <- find_path apsp_matrix allocation;;
      match best_path with
      | [] => Ok (Outcome allocation swaps (run + 1) CONVERGED)
      | _ :: _ =>
          possessions <- find_possession allocation;;
          swapping_plan <- pick_items best_path allocation possessions preferences;;
          allocation' <- execute_swap allocation swapping_plan best_path;;
          solve_loop runs' (run + 1) preferences allocation' (swaps ++ [swapping_plan])
      end
  end.

(** Part three of [main], from the instance that parts one and two made. *)
Definition solve (preferences : list (list bool)) (allocation : list nat)
    : res outcome :=
  bound <- runtime;;
  cap <- py_round bound;;
  solve_loop (Z.to_nat cap) 0 preferences allocation [].

End Program.

(** ** The instance generator *)

Section Generator.

Variable agent_quantity : nat.
Variable item_quantity : nat.
Context `{PyRandom}.
(** [liking_probability], the third global of the module. *)
Variable liking_probability : num.

(** [random.random() < liking_probability], which is
    [liking_probability > random.random()]. *)
Definition coinflip (g : rng) : res (bool * rng) :=
  let '(r, g) := np_random g in
  agent_liking <- num_gt liking_probability r;;
  Ok (agent_liking, g).

Definition create_agents (agent_quantity : nat) : list (list bool) :=
  fold_left (fun agent_list _ => agent_list ++ [[]]) (seq 0 agent_quantity) [].

(** The inner loop of [create_agent_preferences], on the state
    [(specific_preferences, g)]. *)
Definition flip_preference (st : list bool * rng) (item : nat)
    : res (list bool * rng) :=
  let '(specific_preferences, g) := st in
  flip <- coinflip g;;
  let '(liking, g) := flip in
  Ok (specific_preferences ++ [liking], g).

Definition create_agent_preferences (agent_list : list (list bool)) (g : rng)
    : res (list (list bool) * rng) :=
  st <- foldM (fun st agent =>
                 let '(agent_list, g) := st in
                 row <- foldM flip_preference ([], g) (seq 0 item_quantity);;
                 let '(specific_preferences, g) := row in
                 agent_list <- set agent_list agent specific_preferences;;
                 Ok (agent_list, g))
          (agent_list, g) (seq 0 agent_quantity);;
  let '(agent_list, g) := st in
  agent_list <- set_at agent_list (Z.of_nat agent_quantity - 1)
                  (replicate item_quantity true);;
  Ok (agent_list, g).

(** The inner loop of the first part of [random_allocation], on the state
    [(leftover_items, allocation)]; it is left by [break].  A slot of
    [allocation] is [None] while it holds the string ["x"]. *)
Fixpoint give_liked (preferences : list (list bool)) (agent : nat)
    (items : list nat) (st : list Z * list (option Z))
    : res (list Z * list (option Z)) :=
  match items with
  | [] => Ok st
  | item :: rest =>
      let '(leftover_items, allocation) := st in
      row <- get preferences agent;;
      liked <- get row item;;
      if liked : bool then
        mark <- get leftover_items item;;
        if decide (mark <> 1%Z) then
          allocation <- set allocation item (Some (Z.of_nat agent));;
          leftover_items <- set leftover_items item 1%Z;;
          Ok (leftover_items, allocation)
        else give_liked preferences agent rest st
      else give_liked preferences agent rest st
  end.

(** The [while True] loop of the second part.  [upper] is the second
    argument of [randint], evaluated at every draw.  The loop runs at most
    [agent_quantity ** 2 + 2] times (lemma [try_agents_fuel]), which is the
    fuel it is given. *)
Fixpoint try_agents (fuel : nat) (upper : res Z) (preferences : list (list bool))
    (leftover_item : nat) (infinity_counter : nat) (allocation : list (option Z))
    (g : rng) : res (list (option Z) * rng) :=
  match fuel with
  | 0 => Raise OutOfFuel
  | S fuel' =>
      if decide (agent_quantity ^ 2 < infinity_counter) then
        allocation <- set allocation leftover_item
                        (Some (Z.of_nat agent_quantity - 1)%Z);;
        Ok (allocation, g)
      else
        hi <- upper;;
        draw <- randint 0 hi g;;
        let '(x, g) := draw in
        let infinity_counter := infinity_counter + 1 in
        row <- get_at preferences x;;
        liked <- get row leftover_item;;
        if liked : bool then
          allocation <- set allocation leftover_item (Some x);;
          Ok (allocation, g)
        else
          try_agents fuel' upper preferences leftover_item infinity_counter
            allocation g
  end.

(** The body of the loop of the second part, on the state [(allocation, g)]. *)
Definition allocate_leftover (upper : res Z) (preferences : list (list bool))
    (leftover_items : list Z) (st : list (option Z) * rng) (leftover_item : nat)
    : res (list (option Z) * rng) :=
  let '(allocation, g) := st in
  mark <- get leftover_items leftover_item;;
  if decide (mark <> 1%Z) then
    try_agents (agent_quantity ^ 2 + 2) upper preferences leftover_item 0
      allocation g
  else Ok st.

(** [random_allocation] and [stupid_allocation] are the same text but for
    the range of the draw. *)
Definition allocation_from (upper : res Z) (preferences : list (list bool))
    (g : rng) : res (list (option Z) * rng) :=
  st <- foldM (fun st agent =>
                 give_liked preferences agent (seq 0 item_quantity) st)
          (replicate item_quantity 0%Z, replicate item_quantity None)
          (seq 0 agent_quantity);;
  let '(leftover_items, allocation) := st in
  foldM (allocate_leftover upper preferences leftover_items) (allocation, g)
        (seq 0 (length leftover_items)).

Definition random_allocation (preferences : list (list bool)) (g : rng)
    : res (list (option Z) * rng) :=
  allocation_from (Ok (Z.of_nat agent_quantity - 2)%Z) preferences g.

Definition stupid_allocation (preferences : list (list bool)) (g : rng)
    : res (list (option Z) * rng) :=
  allocation_from (py_round (int_truediv (Z.of_nat agent_quantity) 5))
    preferences g.

End Generator.

(** ** The vocabulary of the properties *)

(** [l] is a walk of the graph: each node is followed by one of its
    neighbours. *)
Definition walk (g : list (list nat)) (l : list nat) : Prop :=
  forall k a b, l !! k = Some a -> l !! S k = Some b ->
    exists nbrs, g !! a = Some nbrs /\ b ∈ nbrs.

(** A graph whose rows are the agents and whose entries are agents. *)
Definition wf_graph (n : nat) (g : list (list nat)) : Prop :=
  length g = n /\ forall a nbrs b, g !! a = Some nbrs -> b ∈ nbrs -> b < n.

(** What holds of the variables of [bfs] each time the [while] loop tests
    its condition. *)
Record bfs_inv (n : nat) (g : list (list nat)) (s : nat) (st : bfs_state)
    : Prop := BfsInv {
  inv_len_visited : length (visited st) = n;
  inv_len_distances : length (distances st) = n;
  inv_len_paths : length (shortest_paths_to_node st) = n;
  inv_dist : forall v, visited st !! v = Some true ->
    exists k, distances st !! v = Some (Some k);
  inv_unvisited : forall v, visited st !! v = Some false ->
    distances st !! v = Some None;
  inv_queue : forall v, v ∈ queue st -> visited st !! v = Some true;
  inv_path : forall v p, visited st !! v = Some true ->
    shortest_paths_to_node st !! v = Some p ->
    head (p ++ [v]) = Some s /\ walk g (p ++ [v]);
  inv_start : visited st !! s = Some true /\
    shortest_paths_to_node st !! s = Some []
}.

(** The search has set the distance of [v] to [k]. *)
Definition dist (st : bfs_state) (v k : nat) : Prop :=
  distances st !! v = Some (Some k).

(** The queue holds the nodes of level [k] that wait, then those of level
    [k + 1]; whatever was reached and left the queue is no farther than
    [k]. *)
Definition levels (st : bfs_state) (k : nat) : Prop :=
  (exists A B, queue st = A ++ B /\
     (forall v, v ∈ A -> dist st v k) /\ (forall v, v ∈ B -> dist st v (k + 1))) /\
  (forall w, visited st !! w = Some true -> w ∉ queue st ->
     exists dw, dist st w dw /\ dw <= k).

(** The edges out of the nodes that were reached and left the queue, the
    node [u] in hand excepted, lead to nodes that were reached, at most one
    step farther. *)
Definition relaxed (g : list (list nat)) (st : bfs_state) (u : option nat) : Prop :=
  forall w nbrs v, visited st !! w = Some true -> w ∉ queue st -> Some w <> u ->
    g !! w = Some nbrs -> v ∈ nbrs ->
    exists dw dv, dist st w dw /\ dist st v dv /\ dv <= dw + 1.

(** The stored path of a node has as many nodes as its distance says. *)
Definition path_lengths (st : bfs_state) : Prop :=
  forall v p d, shortest_paths_to_node st !! v = Some p -> dist st v d ->
    length p = d.

(** What holds, besides [bfs_inv], each time the [while] loop tests its
    condition. *)
Definition bfs_top (g : list (list nat)) (s : nat) (st : bfs_state) : Prop :=
  dist st s 0 /\ (exists k, levels st k) /\ relaxed g st None /\ path_lengths st.

(** What holds inside the [for] loop over the neighbours of [u], after the
    neighbours [pre]. *)
Definition bfs_mid (g : list (list nat)) (s u : nat) (k : nat) (pre : list nat)
    (st : bfs_state) : Prop :=
  dist st s 0 /\ dist st u k /\ levels st k /\ relaxed g st (Some u) /\
  path_lengths st /\
  (forall v, v ∈ pre -> exists dv, dist st v dv /\ dv <= k + 1).

(** The closing loop, slot by slot: [cleaned] relates what [bfs] returns at
    [i] to the variables the search ended with. *)
Definition cleaned (s : nat) (dists : list (option nat)) (spn : list (list nat))
    (i : nat) (p' : list nat) : Prop :=
  exists p d, spn !! i = Some p /\ dists !! i = Some d /\
    p' = if decide (i = s) then p
         else match d with None => [] | Some _ => p ++ [i] end.

(** The number of nodes that the search has not reached. *)
Definition unvisited (vis : list bool) : nat :=
  length (filter (fun b => b = false) vis).

(** What each pass of the [while] loop decreases. *)
Definition bfs_measure (st : bfs_state) : nat :=
  unvisited (visited st) + length (queue st).

(** Agent [a] likes item [item]. *)
Definition likes (preferences : list (list bool)) (a item : nat) : Prop :=
  exists row, preferences !! a = Some row /\ row !! item = Some true.

(** Agent [a] envies agent [b]: [b] is another agent and holds an item
    that [a] likes. *)
Definition envies (m : nat) (preferences : list (list bool))
    (allocation : list nat) (a b : nat) : Prop :=
  b <> a /\ exists item, item < m /\ likes preferences a item /\
                         allocation !! item = Some b.

(** An [n] by [m] matrix of preferences, and an allocation of [m] items. *)
Definition wf_preferences (n m : nat) (preferences : list (list bool)) : Prop :=
  length preferences = n /\
  forall a row, preferences !! a = Some row -> length row = m.

(** An allocation of the items to the [n] agents. *)
Definition wf_allocation (n m : nat) (allocation : list nat) : Prop :=
  length allocation = m /\
  forall item a, allocation !! item = Some a -> a < n.

(** [preferences[a][item]], false where there is no such entry. *)
Definition likesb (preferences : list (list bool)) (a item : nat) : bool :=
  match preferences !! a with
  | Some row => default false (row !! item)
  | None => false
  end.

(** The first item of [own] that [taker] likes. *)
Definition first_liked (preferences : list (list bool)) (taker : nat)
    (own : list nat) : option nat :=
  head (filter (fun item => likesb preferences taker item = true) own).

(** The item that hop [k] of the path moves: from [path[k + 1]] to [path[k]]. *)
Definition hop_pick (preferences : list (list bool)) (possessions : list (list nat))
    (path : list nat) (k : nat) : option nat :=
  match path !! k, path !! (k + 1) with
  | Some taker, Some giver =>
      match possessions !! giver with
      | Some own => first_liked preferences taker own
      | None => None
      end
  | _, _ => None
  end.

(** The number of the first [m] items that the allocation gives to [a]. *)
Definition count_owned (allocation : list nat) (m a : nat) : nat :=
  length (filter (fun item => allocation !! item = Some a) (seq 0 m)).

(** The vector that [fast_nsw] rates: the counts, with one more for the
    head of the path and then one less for its last agent. *)
Definition hypothetical_counts (agent_values : list Z) (receiver giver : nat)
    : list Z :=
  alter (fun v => (v - 1)%Z) giver (alter (fun v => (v + 1)%Z) receiver agent_values).

(** The product of a block of values. *)
Definition product (vs : list Z) : Z := foldr Z.mul 1%Z vs.

(** [cur ++ vs] cut into blocks of twenty, [cur] being a block that is not
    full yet; the last block has fewer than twenty values and may be
    empty. *)
Fixpoint chunks_from (cur : list Z) (vs : list Z) : list (list Z) :=
  match vs with
  | [] => [cur]
  | v :: vs' =>
      if decide (length cur = 19) then (cur ++ [v]) :: chunks_from [] vs'
      else chunks_from (cur ++ [v]) vs'
  end.

Definition chunks (vs : list Z) : list (list Z) := chunks_from [] vs.

(** Root a product and multiply it to the roots so far. *)
Definition root_and_multiply `{PyNum} (n : nat) (rooted_product : num) (p : Z)
    : res num :=
  r <- int_pow p (int_truediv 1 (Z.of_nat n));;
  Ok (num_mul rooted_product r).

(** What holds of [best_path] and [current_maximum] after the paths
    [paths] were looked at. *)
Definition scan_inv `{PyNum} (n m : nat) (allocation : list nat)
    (paths : list (list nat)) (best_path : list nat) (current_maximum : num)
    : Prop :=
  (forall q w, q ∈ paths -> q <> [] -> fast_nsw n m q allocation = Ok w ->
     num_gt w current_maximum <> Ok true) /\
  ((best_path = [] /\ current_maximum = num_of_int 0) \/
   (exists k, paths !! k = Some best_path /\ best_path <> [] /\
      fast_nsw n m best_path allocation = Ok current_maximum /\
      forall j q, j < k -> paths !! j = Some q -> q <> [] ->
        fast_nsw n m q allocation <> Ok current_maximum)).

(** The path that one pass of the loop selects. *)
Definition select `{PyNum} (n m : nat) (preferences : list (list bool))
    (allocation : list nat) : res (list nat) :=
  all_agents_envies <- calculate_item_envy_relations n m preferences allocation;;
  shortened_envy_relation <- shorten_envy_list n all_agents_envies;;
  apsp_matrix <- solve_APSP n shortened_envy_relation;;
  find_path n m apsp_matrix allocation.

(** What one pass with a non-empty path does to the allocation. *)
Definition reallocate (n : nat) (preferences : list (list bool))
    (allocation : list nat) (best_path : list nat) : res (list nat * list nat) :=
  possessions <- find_possession n allocation;;
  swapping_plan <- pick_items best_path allocation possessions preferences;;
  allocation' <- execute_swap allocation swapping_plan best_path;;
  Ok (allocation', swapping_plan).

(** The first of the items that [agent] likes and that is not marked. *)
Definition first_free (preferences : list (list bool)) (leftover_items : list Z)
    (agent : nat) (items : list nat) : option nat :=
  head (filter (fun item => likesb preferences agent item = true /\
                            leftover_items !! item <> Some 1%Z) items).

(** The number of the [m] items that [a] likes. *)
Definition liked_count (preferences : list (list bool)) (m a : nat) : nat :=
  length (filter (fun item => likesb preferences a item = true) (seq 0 m)).

(** The number of the [m] items that are marked as distributed. *)
Definition marked_count (leftover_items : list Z) (m : nat) : nat :=
  length (filter (fun item => leftover_items !! item = Some 1%Z) (seq 0 m)).

(** No item is wasted: who holds it likes it. *)
Definition nonwasteful (preferences : list (list bool)) (allocation : list nat)
    : Prop :=
  forall item a, allocation !! item = Some a -> likes preferences a item.

(** What holds of [(leftover_items, allocation)] after the first part of
    [random_allocation] has served the agents below [k]. *)
Definition dealt (m k : nat) (preferences : list (list bool))
    (st : list Z * list (option Z)) : Prop :=
  length (fst st) = m /\ length (snd st) = m /\
  (forall item, item < m ->
     (fst st !! item = Some 1%Z /\
      exists a, a < k /\ snd st !! item = Some (Some (Z.of_nat a)) /\
                likes preferences a item) \/
     (fst st !! item = Some 0%Z /\ snd st !! item = Some None)) /\
  marked_count (fst st) m <= k /\
  (forall a, a < k -> a < liked_count preferences m a ->
     exists item, snd st !! item = Some (Some (Z.of_nat a))).

(** What holds of [(allocation, g)] after the second part has looked at the
    items below [j], [al] being the allocation that the first part left. *)
Definition settled (n j : nat) (preferences : list (list bool))
    (al allocation : list (option Z)) : Prop :=
  length allocation = length al /\
  (forall item, item < j ->
     exists a, a < n /\ allocation !! item = Some (Some (Z.of_nat a)) /\
               (likes preferences a item \/ a = n - 1)) /\
  (forall item, j <= item -> allocation !! item = al !! item) /\
  (forall item a, al !! item = Some (Some a) -> allocation !! item = Some (Some a)).

(** No walk with the ends of [p] has fewer nodes than [p]. *)
Definition shortest (g : list (list nat)) (p : list nat) : Prop :=
  forall l, walk g l -> head l = head p -> last l = last p ->
    length p <= length l.

(** [1] where the slot holds [x]. *)
Definition holds (slot : option nat) (x : nat) : Z :=
  if decide (slot = Some x) then 1%Z else 0%Z.

(** The welfare of an allocation, as [find_path] and [final_print]
    compute it: [split_nsw(calculate_agent_valuations(allocation))]. *)
Definition welfare `{PyNum} (n m : nat) (allocation : list nat) : res num :=
  agent_values <- calculate_agent_valuations n m allocation;;
  split_nsw n agent_values.

(** The sum of a list of integers. *)
Definition total (vs : list Z) : Z := foldr Z.add 0%Z vs.

(** The items that [x] envies: those it likes and another agent holds. *)
Definition envied (preferences : list (list bool)) (allocation : list nat)
    (m x : nat) : list nat :=
  filter (fun item => likesb preferences x item = true /\
                      allocation !! item <> Some x) (seq 0 m).

(** ** An implementation of the numbers in rational arithmetic

    Products, quotients and comparisons are exact; roots and logarithms are
    truncated to thirty decimal digits, far below the differences that occur
    in the examples.  There are no infinities, no NaN and no complex
    numbers: the operations that would produce one raise instead.  It serves
    to run the program on concrete instances. *)

Module RatNum.

(** the largest [r] below [2 ^ bits] with [r ^ k <= a], above [r0] *)
Fixpoint iroot_bits (bits : nat) (k : Z) (a r0 : Z) : Z :=
  match bits with
  | 0 => r0
  | S bits' =>
      let c := (r0 + 2 ^ Z.of_nat bits')%Z in
      if (c ^ k <=? a)%Z then iroot_bits bits' k a c else iroot_bits bits' k a r0
  end.

Definition iroot (k : Z) (a : Z) : Z :=
  iroot_bits (Z.to_nat (Z.log2 a / k + 1)) k a 0.

Definition scale : Z := (10 ^ 30)%Z.

(** [x ^ (a / b)] for [x >= 0] and [a / b > 0], truncated *)
Definition root_pow (x : Q) (a b : Z) : Q :=
  let xa := Qpower x a in
  let scaled := ((Qnum xa * scale ^ b) / Zpos (Qden xa))%Z in
  Qred (Qmake (iroot b scaled) (Z.to_pos scale)).

Definition q_int_pow (p : Z) (e : Q) : res Q :=
  if (p <? 0)%Z then Raise TypeError
  else match Qnum e with
       | Z0 => Ok 1%Q
       | Zpos a => Ok (root_pow (inject_Z p) (Zpos a) (Zpos (Qden e)))
       | Zneg a =>
           if (p =? 0)%Z then Raise ZeroDivisionError
           else Ok (Qred (Qinv (root_pow (inject_Z p) (Zpos a) (Zpos (Qden e)))))
       end.

(** [2 * atanh t] by its power series, [terms] terms from the [j]-th *)
Fixpoint atanh2 (terms : nat) (j : Z) (t tpow : Q) : Q :=
  match terms with
  | 0 => 0%Q
  | S terms' =>
      Qred (Qplus (Qmult (Qmake 2 (Z.to_pos (2 * j + 1))) tpow)
                  (atanh2 terms' (j + 1) t (Qred (Qmult tpow (Qmult t t)))))
  end.

(** [ln u = 2 * atanh ((u - 1) / (u + 1))], for [1 <= u <= 2] *)
Definition ln_small (u : Q) : Q :=
  let t := Qred (Qdiv (Qminus u 1) (Qplus u 1)) in
  atanh2 40 0 t t.

Definition q_log (k : Z) : res Q :=
  if (k <=? 0)%Z then Raise ValueError
  else
    let e := Z.log2 k in
    Ok (Qred (Qplus (Qmult (inject_Z e) (ln_small 2))
                    (ln_small (Qmake k (Z.to_pos (2 ^ e)))))).

(** [round]: to the nearest integer, a half to the even one *)
Definition q_round (x : Q) : Z :=
  let f := Qfloor x in
  match Qcompare (Qminus x (inject_Z f)) (Qmake 1 2) with
  | Lt => f
  | Gt => (f + 1)%Z
  | Eq => if Z.even f then f else (f + 1)%Z
  end.

Definition q_gt (x y : Q) : bool := negb (Qle_bool x y).

End RatNum.

(** ** A linear congruential generator

    It serves to run the instance generator on concrete seeds. *)

Module Lcg.

Definition step (s : Z) : Z := ((1103515245 * s + 12345) mod 2147483648)%Z.

Definition q_random (s : Z) : Q * Z :=
  (Qmake (step s) 2147483648, step s).

Definition z_randint (a b : Z) (s : Z) : res (Z * Z) :=
  if (b <? a)%Z then Raise ValueError
  else Ok ((a + step s mod (b - a + 1))%Z, step s).

End Lcg.

(** * Properties *)

(** ** The rational numbers implement the interface *)

Lemma q_gt_trans (x y z : Q) :
  RatNum.q_gt x y = true -> RatNum.q_gt y z = true -> RatNum.q_gt x z = true.
Proof.
  unfold RatNum.q_gt. rewrite !negb_true_iff.
  intros Hxy Hyz.
  destruct (Qle_bool x z) eqn:Hxz; [|reflexivity].
  apply Qle_bool_iff in Hxz.
  assert (Hzy : ~ (y <= z)%Q).
  { intros Hle. apply Qle_bool_iff in Hle. congruence. }
  assert (Hyx : ~ (x <= y)%Q).
  { intros Hle. apply Qle_bool_iff in Hle. congruence. }
  apply Qnot_le_lt in Hzy, Hyx.
  exfalso. apply (Qlt_irrefl x).
  apply Qle_lt_trans with z; [exact Hxz|].
  apply Qlt_trans with y; assumption.
Qed.

Lemma q_gt_res_irrefl (x : Q) : @Ok bool (RatNum.q_gt x x) <> Ok true.
Proof.
  intros Hx. injection Hx as Hx. unfold RatNum.q_gt in Hx.
  apply negb_true_iff in Hx.
  assert (Hle : Qle_bool x x = true) by (apply Qle_bool_iff, Qle_refl).
  congruence.
Qed.

Lemma q_gt_res_trans (x y z : Q) :
  Ok (RatNum.q_gt x y) = Ok true -> Ok (RatNum.q_gt y z) = Ok true ->
  @Ok bool (RatNum.q_gt x z) = Ok true.
Proof.
  intros Hxy Hyz.
  injection Hxy as Hxy. injection Hyz as Hyz.
  f_equal. exact (q_gt_trans x y z Hxy Hyz).
Qed.

Definition rat_num : PyNum := {|
  num := Q;
  num_of_int := inject_Z;
  int_truediv a b := Qred (Qdiv (inject_Z a) (inject_Z b));
  int_pow := RatNum.q_int_pow;
  num_mul x y := Qred (Qmult x y);
  int_mul k x := Ok (Qred (Qmult (inject_Z k) x));
  num_gt x y := Ok (RatNum.q_gt x y);
  np_log := RatNum.q_log;
  py_round x := Ok (RatNum.q_round x);
  num_gt_irrefl := q_gt_res_irrefl;
  num_gt_trans := q_gt_res_trans
|}.

(** ** The error monad and the list primitives *)

Lemma bind_Ok {A B : Type} (m : res A) (f : A -> res B) (b : B) :
  bind m f = Ok b <-> exists a, m = Ok a /\ f a = Ok b.
Proof.
  split.
  - destruct m as [a|e]; simpl; intros Hb; [eauto | discriminate].
  - intros (a & -> & Hf). exact Hf.
Qed.

Lemma get_Ok {A : Type} (l : list A) (i : nat) (x : A) :
  get l i = Ok x <-> l !! i = Some x.
Proof.
  unfold get. destruct (l !! i); split; intros Heq; congruence.
Qed.

Lemma get_lt {A : Type} (l : list A) (i : nat) :
  i < length l -> exists x, get l i = Ok x /\ l !! i = Some x.
Proof.
  intros Hi. destruct (lookup_lt_is_Some_2 l i Hi) as [x Hx].
  exists x. split; [apply get_Ok|]; exact Hx.
Qed.

Lemma set_Ok {A : Type} (l : list A) (i : nat) (x : A) (l' : list A) :
  set l i x = Ok l' <-> i < length l /\ l' = <[i := x]> l.
Proof.
  unfold set. destruct (decide (i < length l)); split.
  - intros [= <-]. auto.
  - intros [_ ->]. reflexivity.
  - discriminate.
  - intros [Hi _]. contradiction.
Qed.

Lemma set_lt {A : Type} (l : list A) (i : nat) (x : A) :
  i < length l -> set l i x = Ok (<[i := x]> l).
Proof. intros Hi. apply set_Ok. auto. Qed.

(** Take apart the hypotheses that say a computation returned. *)
Ltac inv_res :=
  repeat match goal with
  | H : bind _ _ = Ok _ |- _ =>
      let a := fresh "a" in
      let Ha := fresh "Hm" in
      apply bind_Ok in H; destruct H as (a & Ha & H)
  | H : get _ _ = Ok _ |- _ => apply get_Ok in H
  | H : set _ _ _ = Ok _ |- _ =>
      let Hlt := fresh "Hlt" in
      apply set_Ok in H; destruct H as [Hlt H]
  | H : Ok _ = Ok _ |- _ => injection H as H
  | H : Raise _ = Ok _ |- _ => discriminate H
  end.

Lemma foldM_app {A B : Type} (f : B -> A -> res B) (b : B) (l1 l2 : list A) :
  foldM f b (l1 ++ l2) = (b' <- foldM f b l1;; foldM f b' l2).
Proof.
  revert b. induction l1 as [|x l1 IH]; intros b; simpl; [reflexivity|].
  destruct (f b x) as [b'|e]; simpl; [apply IH | reflexivity].
Qed.

(** A property that every step keeps holds when the fold returns. *)
Lemma foldM_invariant {A B : Type} (P : B -> Prop) (f : B -> A -> res B)
    (l : list A) (b r : B) :
  P b ->
  (forall b x b', x ∈ l -> P b -> f b x = Ok b' -> P b') ->
  foldM f b l = Ok r -> P r.
Proof.
  revert b. induction l as [|x l IH]; intros b Hb Hstep Hrun; simpl in Hrun.
  - inv_res. subst. exact Hb.
  - inv_res. apply (IH a).
    + apply (Hstep b x); [left | exact Hb | exact Hm].
    + intros b0 y b' Hy. apply Hstep. right. exact Hy.
    + exact Hrun.
Qed.

(** The same along a range, with the position in hand. *)
Lemma foldM_seq_invariant {B : Type} (P : nat -> B -> Prop)
    (f : B -> nat -> res B) (len : nat) (b r : B) :
  P 0 b ->
  (forall i b b', i < len -> P i b -> f b i = Ok b' -> P (S i) b') ->
  foldM f b (seq 0 len) = Ok r -> P len r.
Proof.
  revert r. induction len as [|len IH]; intros r H0 Hstep Hrun.
  - simpl in Hrun. inv_res. subst. exact H0.
  - rewrite seq_S, foldM_app in Hrun. simpl in Hrun. inv_res. subst.
    apply (Hstep len a); [lia | | exact Hm0].
    apply IH; [exact H0 | | exact Hm].
    intros i b0 b' Hi. apply Hstep. lia.
Qed.

(** A fold whose steps all return, returns. *)
Lemma foldM_seq_total {B : Type} (P : nat -> B -> Prop)
    (f : B -> nat -> res B) (len : nat) (b : B) :
  P 0 b ->
  (forall i b, i < len -> P i b -> exists b', f b i = Ok b' /\ P (S i) b') ->
  exists r, foldM f b (seq 0 len) = Ok r /\ P len r.
Proof.
  induction len as [|len IH]; intros H0 Hstep.
  - exists b. split; [reflexivity | exact H0].
  - destruct IH as (r & Hr & HP); [exact H0 | |].
    { intros i b0 Hi. apply Hstep. lia. }
    destruct (Hstep len r) as (r' & Hr' & HP'); [lia | exact HP |].
    exists r'. split; [|exact HP'].
    rewrite seq_S, foldM_app, Hr. simpl. rewrite Hr'. reflexivity.
Qed.

Lemma mapM_Ok {A B : Type} (f : A -> res B) (l : list A) (r : list B) :
  mapM f l = Ok r <-> Forall2 (fun x y => f x = Ok y) l r.
Proof.
  revert r. induction l as [|x l IH]; intros r; simpl.
  - split.
    + intros [= <-]. constructor.
    + intros Hr. inversion Hr. reflexivity.
  - split.
    + intros Hr. inv_res. subst. constructor; [exact Hm|].
      apply IH. exact Hm0.
    + intros Hr. inversion Hr as [|? y ? ys Hy Hys]; subst.
      rewrite Hy. simpl. apply IH in Hys. rewrite Hys. reflexivity.
Qed.

Lemma foldM_total {A B : Type} (P : B -> Prop) (f : B -> A -> res B)
    (l : list A) (b : B) :
  P b ->
  (forall b x, x ∈ l -> P b -> exists b', f b x = Ok b' /\ P b') ->
  exists r, foldM f b l = Ok r /\ P r.
Proof.
  revert b. induction l as [|x l IH]; intros b Hb Hstep; simpl.
  - exists b. auto.
  - destruct (Hstep b x) as (b' & Hb' & HP'); [left | exact Hb |].
    rewrite Hb'. simpl. apply IH; [exact HP'|].
    intros b0 y Hy. apply Hstep. right. exact Hy.
Qed.

(** ** Breadth-first search *)

Lemma walk_singleton (g : list (list nat)) (a : nat) : walk g [a].
Proof. intros k x y _ Hy. destruct k; discriminate Hy. Qed.

Lemma walk_snoc (g : list (list nat)) (l : list nat) (a b : nat) (nbrs : list nat) :
  walk g (l ++ [a]) -> g !! a = Some nbrs -> b ∈ nbrs ->
  walk g ((l ++ [a]) ++ [b]).
Proof.
  intros Hw Hg Hb k x y Hx Hy.
  assert (Hlen : length (l ++ [a]) = S (length l)).
  { rewrite length_app. simpl. lia. }
  destruct (decide (S k < length (l ++ [a]))) as [Hk|Hk].
  - rewrite lookup_app_l in Hx by lia. rewrite lookup_app_l in Hy by lia.
    exact (Hw k x y Hx Hy).
  - apply lookup_lt_Some in Hy as Hk'. rewrite length_app in Hk'. simpl in Hk'.
    assert (k = length l) as -> by lia.
    rewrite lookup_app_l in Hx by lia.
    rewrite lookup_app_r in Hx by lia. rewrite Nat.sub_diag in Hx.
    rewrite lookup_app_r in Hy by lia.
    replace (S (length l) - length (l ++ [a])) with 0 in Hy by lia.
    simpl in Hx, Hy. injection Hx as <-. injection Hy as <-.
    exists nbrs. auto.
Qed.

Section BfsInvariant.

Variable n : nat.
Variable g : list (list nat).
Variable s : nat.

Lemma head_snoc_snoc (p : list nat) (a b : nat) :
  head ((p ++ [a]) ++ [b]) = head (p ++ [a]).
Proof. destruct p; reflexivity. Qed.

Lemma bfs_visit_inv (node : nat) (nbrs : list nat) (st st' : bfs_state) (nb : nat) :
  g !! node = Some nbrs -> nb ∈ nbrs ->
  bfs_inv n g s st /\ visited st !! node = Some true ->
  bfs_visit node st nb = Ok st' ->
  bfs_inv n g s st' /\ visited st' !! node = Some true.
Proof.
  intros Hg Hnb [Hinv Hnode] Hrun. unfold bfs_visit in Hrun.
  apply bind_Ok in Hrun as (seen & Hseen & Hrun). apply get_Ok in Hseen.
  destruct seen; [injection Hrun as <-; auto|].
  apply bind_Ok in Hrun as (visited' & Hvis & Hrun).
  apply set_Ok in Hvis as [Hlt ->].
  apply bind_Ok in Hrun as (d & Hd & Hrun). apply get_Ok in Hd.
  apply bind_Ok in Hrun as (d' & Hd' & Hrun).
  destruct d as [k|]; [injection Hd' as <- | discriminate Hd'].
  apply bind_Ok in Hrun as (distances' & Hdis & Hrun).
  apply set_Ok in Hdis as [Hlt0 ->].
  apply bind_Ok in Hrun as (path_to_node & Hptn & Hrun). apply get_Ok in Hptn.
  apply bind_Ok in Hrun as (paths' & Hpaths & Hrun).
  apply set_Ok in Hpaths as [Hlt1 ->].
  injection Hrun as <-.
  destruct Hinv as [Hlv Hld Hlp Hdist Hunv Hq Hpath [Hs Hps]].
  simpl in *.
  assert (Hne : nb <> node) by (intros ->; congruence).
  assert (Hnes : nb <> s) by (intros ->; congruence).
  split; [|rewrite list_lookup_insert_ne by exact Hne; exact Hnode].
  split; simpl.
  - rewrite length_insert. exact Hlv.
  - rewrite length_insert. exact Hld.
  - rewrite length_insert. exact Hlp.
  - intros v Hv. destruct (decide (v = nb)) as [->|Hvn].
    + exists (k + 1). apply list_lookup_insert_eq. exact Hlt0.
    + rewrite list_lookup_insert_ne in Hv by auto.
      rewrite list_lookup_insert_ne by auto. auto.
  - intros v Hv. destruct (decide (v = nb)) as [->|Hvn].
    + rewrite list_lookup_insert_eq in Hv by exact Hlt. discriminate.
    + rewrite list_lookup_insert_ne in Hv by auto.
      rewrite list_lookup_insert_ne by auto. auto.
  - intros v Hv. apply elem_of_app in Hv as [Hv|Hv].
    + assert (v <> nb) by (intros ->; apply Hq in Hv; congruence).
      rewrite list_lookup_insert_ne by auto. auto.
    + apply list_elem_of_singleton in Hv as ->.
      apply list_lookup_insert_eq. exact Hlt.
  - intros v p Hv Hp. destruct (decide (v = nb)) as [->|Hvn].
    + rewrite list_lookup_insert_eq in Hp by exact Hlt1. injection Hp as <-.
      destruct (Hpath node path_to_node Hnode Hptn) as [Hhead Hwalk].
      split; [rewrite head_snoc_snoc; exact Hhead|].
      exact (walk_snoc g path_to_node node nb nbrs Hwalk Hg Hnb).
    + rewrite list_lookup_insert_ne in Hv by auto.
      rewrite list_lookup_insert_ne in Hp by auto. auto.
  - rewrite !list_lookup_insert_ne by auto. auto.
Qed.

Lemma bfs_while_inv (fuel : nat) (st st' : bfs_state) :
  bfs_inv n g s st -> bfs_while fuel g st = Ok st' -> bfs_inv n g s st'.
Proof.
  revert st. induction fuel as [|fuel IH]; intros st Hinv Hrun.
  - simpl in Hrun. destruct (queue st); inv_res. subst. exact Hinv.
  - simpl in Hrun. destruct (queue st) as [|node rest] eqn:Hq.
    { inv_res. subst. exact Hinv. }
    apply bind_Ok in Hrun as (nbrs & Hnbrs & Hrun). apply get_Ok in Hnbrs.
    apply bind_Ok in Hrun as (st1 & Hfold & Hrun).
    apply (IH st1); [|exact Hrun].
    assert (Hnode : visited st !! node = Some true).
    { apply (inv_queue n g s st Hinv). rewrite Hq. left. }
    refine (proj1 (foldM_invariant
      (fun st0 => bfs_inv n g s st0 /\ visited st0 !! node = Some true)
      (bfs_visit node) nbrs _ st1 _ _ Hfold)).
    + split; [|exact Hnode].
      destruct Hinv as [Hlv Hld Hlp Hdist Hunv Hqueue Hpath Hstart].
      split; simpl; auto.
      intros v Hv. apply Hqueue. rewrite Hq. right. exact Hv.
    + intros b x b' Hx Hb Hstep.
      exact (bfs_visit_inv node nbrs b b' x Hnbrs Hx Hb Hstep).
Qed.

Lemma bfs_init_inv :
  s < n ->
  bfs_inv n g s (BfsState [s] (<[s := true]> (replicate n false))
             (<[s := Some 0]> (replicate n None)) (replicate n [])).
Proof.
  intros Hs. split; simpl.
  - rewrite length_insert. apply length_replicate.
  - rewrite length_insert. apply length_replicate.
  - apply length_replicate.
  - intros v Hv. destruct (decide (v = s)) as [->|Hne].
    + exists 0. apply list_lookup_insert_eq. rewrite length_replicate. exact Hs.
    + rewrite list_lookup_insert_ne in Hv by auto.
      apply lookup_replicate in Hv as [Hv _]. discriminate.
  - intros v Hv. destruct (decide (v = s)) as [->|Hne].
    + rewrite list_lookup_insert_eq in Hv; [discriminate|].
      rewrite length_replicate. exact Hs.
    + rewrite list_lookup_insert_ne in Hv by auto.
      rewrite list_lookup_insert_ne by auto.
      apply lookup_replicate in Hv as [_ Hv].
      apply lookup_replicate. auto.
  - intros v Hv. apply list_elem_of_singleton in Hv as ->.
    apply list_lookup_insert_eq. rewrite length_replicate. exact Hs.
  - intros v p Hv Hp. apply lookup_replicate in Hp as [-> _]. simpl.
    destruct (decide (v = s)) as [->|Hne].
    + split; [reflexivity | apply walk_singleton].
    + rewrite list_lookup_insert_ne in Hv by auto.
      apply lookup_replicate in Hv as [Hv _]. discriminate.
  - split.
    + apply list_lookup_insert_eq. rewrite length_replicate. exact Hs.
    + apply lookup_replicate. auto.
Qed.

End BfsInvariant.

Lemma bfs_clean_spec (n s : nat) (dists : list (option nat))
    (spn r : list (list nat)) :
  length spn = n -> length dists = n ->
  foldM (bfs_clean s dists) spn (seq 0 n) = Ok r ->
  length r = n /\ forall i p', r !! i = Some p' -> cleaned s dists spn i p'.
Proof.
  intros Hlen Hld Hrun.
  pose (P := fun (k : nat) (paths : list (list nat)) =>
    length paths = n /\
    (forall i, k <= i -> paths !! i = spn !! i) /\
    (forall i p', i < k -> paths !! i = Some p' -> cleaned s dists spn i p')).
  assert (HP : P n r).
  { refine (foldM_seq_invariant P _ _ _ _ _ _ Hrun).
    - split; [exact Hlen|]. split; [reflexivity|]. intros i p' Hi. lia.
    - intros i paths paths' Hi (Hl & Hrest & Hdone) Hstep.
      unfold bfs_clean in Hstep.
      destruct (decide (i <> s)) as [Hne|Heq].
      + apply bind_Ok in Hstep as (p & Hp & Hstep). apply get_Ok in Hp.
        apply bind_Ok in Hstep as (paths1 & Hp1 & Hstep).
        apply set_Ok in Hp1 as [Hlt ->].
        apply bind_Ok in Hstep as (d & Hd & Hstep). apply get_Ok in Hd.
        rewrite Hrest in Hp by lia.
        assert (Hpaths' : paths' = <[i := match d with
                                           | None => []
                                           | Some _ => p ++ [i]
                                           end]> paths).
        { destruct d.
          - injection Hstep as <-. reflexivity.
          - apply set_Ok in Hstep as [_ ->]. apply list_insert_insert_eq. }
        subst paths'. split; [rewrite length_insert; exact Hl|]. split.
        * intros j Hj. rewrite list_lookup_insert_ne by lia. apply Hrest. lia.
        * intros j p' Hj Hp'. destruct (decide (j = i)) as [->|Hji].
          -- rewrite list_lookup_insert_eq in Hp' by exact Hlt.
             injection Hp' as <-. exists p, d.
             rewrite decide_False by exact Hne. auto.
          -- rewrite list_lookup_insert_ne in Hp' by auto.
             apply Hdone; [lia | exact Hp'].
      + injection Hstep as <-. apply dec_stable in Heq. subst i.
        split; [exact Hl|]. split.
        * intros j Hj. apply Hrest. lia.
        * intros j p' Hj Hp'. destruct (decide (j = s)) as [->|Hjs].
          -- rewrite Hrest in Hp' by lia.
             destruct (lookup_lt_is_Some_2 dists s) as [d Hd]; [lia|].
             exists p', d. rewrite decide_True by reflexivity. auto.
          -- apply Hdone; [lia | exact Hp']. }
  destruct HP as (Hl & _ & Hdone). split; [exact Hl|].
  intros i p' Hp'. apply (Hdone i p'); [|exact Hp'].
  apply lookup_lt_Some in Hp'. lia.
Qed.

(** What [bfs] returns: nothing for the start node, and for any other node
    either nothing or a walk of the graph from the start node to it. *)
Lemma bfs_spec (n : nat) (g : list (list nat)) (s : nat) (r : list (list nat)) :
  bfs n g s = Ok r ->
  s < n /\ length r = n /\ r !! s = Some [] /\
  forall t p, r !! t = Some p -> p <> [] ->
    t <> s /\ head p = Some s /\ last p = Some t /\ walk g p.
Proof.
  intros Hrun. unfold bfs in Hrun.
  apply bind_Ok in Hrun as (visited0 & Hv0 & Hrun).
  apply set_Ok in Hv0 as [Hs ->]. rewrite length_replicate in Hs.
  apply bind_Ok in Hrun as (distances0 & Hd0 & Hrun).
  apply set_Ok in Hd0 as [_ ->].
  apply bind_Ok in Hrun as (st & Hwhile & Hrun).
  apply (bfs_while_inv n g s) in Hwhile; [|apply bfs_init_inv; exact Hs].
  destruct Hwhile as [Hlv Hld Hlp Hdist Hunv Hq Hpath [Hvs Hps]].
  apply (bfs_clean_spec n) in Hrun as [Hlr Hclean]; [|exact Hlp|exact Hld].
  split; [exact Hs|]. split; [exact Hlr|]. split.
  - destruct (lookup_lt_is_Some_2 r s) as [p' Hp']; [lia|].
    destruct (Hclean s p' Hp') as (p & d & Hp & _ & ->).
    rewrite decide_True in Hp' by reflexivity. congruence.
  - intros t p' Hp' Hne.
    destruct (Hclean t p' Hp') as (p & d & Hp & Hd & ->).
    destruct (decide (t = s)) as [->|Hts]; [congruence|].
    destruct d as [k|]; [|congruence].
    assert (Hvt : visited st !! t = Some true).
    { destruct (lookup_lt_is_Some_2 (visited st) t) as [[|] Hb]; [|exact Hb|].
      - apply lookup_lt_Some in Hp. lia.
      - apply Hunv in Hb. congruence. }
    destruct (Hpath t p Hvt Hp) as [Hhead Hwalk].
    split; [exact Hts|]. split; [exact Hhead|]. split; [apply last_snoc | exact Hwalk].
Qed.

(** *** The search terminates within its fuel *)

Lemma unvisited_mark (vis : list bool) (i : nat) :
  vis !! i = Some false -> S (unvisited (<[i := true]> vis)) = unvisited vis.
Proof.
  revert i. induction vis as [|b vis IH]; intros i Hi; [discriminate|].
  destruct i as [|i]; simpl in Hi.
  - injection Hi as ->. reflexivity.
  - specialize (IH i Hi). unfold unvisited in *. simpl.
    rewrite !filter_cons. destruct (decide (b = false)); simpl; lia.
Qed.

Section BfsTermination.

Variable n : nat.
Variable g : list (list nat).
Variable s : nat.
Hypothesis Hg : wf_graph n g.

Lemma bfs_visit_total (node : nat) (nbrs : list nat) (st : bfs_state)
    (nb fuel : nat) :
  g !! node = Some nbrs -> nb ∈ nbrs ->
  (bfs_inv n g s st /\ visited st !! node = Some true) /\ bfs_measure st <= fuel ->
  exists st', bfs_visit node st nb = Ok st' /\
    (bfs_inv n g s st' /\ visited st' !! node = Some true) /\
    bfs_measure st' <= fuel.
Proof.
  intros Hnode Hnb [[Hinv Hvn] Hfuel].
  assert (Hrun : exists st', bfs_visit node st nb = Ok st' /\ bfs_measure st' = bfs_measure st).
  { unfold bfs_visit.
    assert (Hlt : nb < n) by (apply (proj2 Hg node nbrs nb Hnode Hnb)).
    destruct (get_lt (visited st) nb) as ([|] & -> & Hseen).
    { rewrite (inv_len_visited n g s st Hinv). exact Hlt. }
    { simpl. eauto. }
    simpl. rewrite set_lt by (rewrite (inv_len_visited n g s st Hinv); exact Hlt).
    simpl. destruct (inv_dist n g s st Hinv node Hvn) as [k Hk].
    rewrite (proj2 (get_Ok _ _ _) Hk). simpl.
    rewrite set_lt by (rewrite (inv_len_distances n g s st Hinv); exact Hlt).
    simpl. destruct (get_lt (shortest_paths_to_node st) node) as (p & -> & _).
    { rewrite (inv_len_paths n g s st Hinv).
      apply lookup_lt_Some in Hvn. rewrite (inv_len_visited n g s st Hinv) in Hvn.
      exact Hvn. }
    simpl. rewrite set_lt by (rewrite (inv_len_paths n g s st Hinv); exact Hlt).
    simpl. eexists. split; [reflexivity|].
    unfold bfs_measure. simpl. rewrite length_app. simpl.
    apply unvisited_mark in Hseen. lia. }
  destruct Hrun as (st' & Hrun & Hm). exists st'. split; [exact Hrun|].
  split; [|lia].
  exact (bfs_visit_inv n g s node nbrs st st' nb Hnode Hnb (conj Hinv Hvn) Hrun).
Qed.

Lemma bfs_while_total (fuel : nat) (st : bfs_state) :
  bfs_inv n g s st -> bfs_measure st <= fuel ->
  exists st', bfs_while fuel g st = Ok st'.
Proof.
  revert st. induction fuel as [|fuel IH]; intros st Hinv Hfuel.
  - unfold bfs_measure in Hfuel. simpl.
    destruct (queue st); [eauto | simpl in Hfuel; lia].
  - simpl. destruct (queue st) as [|node rest] eqn:Hq; [eauto|].
    assert (Hvn : visited st !! node = Some true).
    { apply (inv_queue n g s st Hinv). rewrite Hq. left. }
    destruct (get_lt g node) as (nbrs & -> & Hnbrs).
    { rewrite (proj1 Hg). apply lookup_lt_Some in Hvn.
      rewrite (inv_len_visited n g s st Hinv) in Hvn. exact Hvn. }
    simpl.
    destruct (foldM_total
      (fun st0 => (bfs_inv n g s st0 /\ visited st0 !! node = Some true) /\
                  bfs_measure st0 <= fuel)
      (bfs_visit node) nbrs
      (BfsState rest (visited st) (distances st) (shortest_paths_to_node st)))
      as (st1 & -> & [[Hinv1 _] Hfuel1]).
    + split; [split; [|exact Hvn]|].
      * destruct Hinv as [Hlv Hld Hlp Hdist Hunv Hqueue Hpath Hstart].
        split; simpl; auto.
        intros v Hv. apply Hqueue. rewrite Hq. right. exact Hv.
      * unfold bfs_measure in *. rewrite Hq in Hfuel. simpl in *. lia.
    + intros st0 nb Hnb Hst0.
      exact (bfs_visit_total node nbrs st0 nb fuel Hnbrs Hnb Hst0).
    + simpl. apply IH; assumption.
Qed.

End BfsTermination.

Lemma unvisited_replicate (n : nat) : unvisited (replicate n false) = n.
Proof.
  unfold unvisited. induction n as [|n IH]; [reflexivity|].
  change (replicate (S n) false) with (false :: replicate n false).
  rewrite filter_cons, decide_True by reflexivity.
  simpl. rewrite IH. reflexivity.
Qed.

Lemma bfs_clean_total (n s : nat) (dists : list (option nat)) (spn : list (list nat)) :
  length spn = n -> length dists = n ->
  exists r, foldM (bfs_clean s dists) spn (seq 0 n) = Ok r.
Proof.
  intros Hlen Hld.
  destruct (foldM_seq_total (fun _ paths => length paths = n)
              (bfs_clean s dists) n spn) as (r & Hr & _); [exact Hlen| |eauto].
  intros i paths Hi Hl. unfold bfs_clean.
  destruct (decide (i <> s)); [|eauto].
  destruct (get_lt paths i) as (p & -> & _); [lia|]. simpl.
  rewrite set_lt by lia. simpl.
  destruct (get_lt dists i) as (d & -> & _); [lia|]. simpl.
  destruct d.
  - eexists. split; [reflexivity|]. rewrite length_insert. exact Hl.
  - rewrite set_lt by (rewrite length_insert; lia).
    eexists. split; [reflexivity|]. rewrite !length_insert. exact Hl.
Qed.

(** On a well-formed graph [bfs] returns: no index is out of range and the
    fuel is never used up. *)
Lemma bfs_total (n : nat) (g : list (list nat)) (s : nat) :
  wf_graph n g -> s < n -> exists r, bfs n g s = Ok r.
Proof.
  intros Hg Hs. unfold bfs.
  rewrite !set_lt by (rewrite length_replicate; exact Hs). simpl.
  pose proof (bfs_init_inv n g s Hs) as Hinit.
  destruct (bfs_while_total n g s Hg n _ Hinit) as (st & Hst).
  { unfold bfs_measure. simpl.
    pose proof (unvisited_mark (replicate n false) s) as Hmark.
    rewrite unvisited_replicate in Hmark.
    specialize (Hmark (proj2 (lookup_replicate _ _ _ _) (conj eq_refl Hs))). lia. }
  rewrite Hst. simpl.
  apply (bfs_while_inv n g s) in Hst; [|exact Hinit].
  apply (bfs_clean_total n).
  - apply (inv_len_paths n g s st Hst).
  - apply (inv_len_distances n g s st Hst).
Qed.

(** *** The fuel is never what stops the search *)

Lemma bind_Raise {A B : Type} (m : res A) (f : A -> res B) (e : exn) :
  bind m f = Raise e <-> m = Raise e \/ exists a, m = Ok a /\ f a = Raise e.
Proof.
  destruct m as [a|e']; simpl; split.
  - intros Hf. right. eauto.
  - intros [Hm|(a' & [= <-] & Hf)]; [discriminate | exact Hf].
  - intros [= ->]. left. reflexivity.
  - intros [[= ->]|(a & Hm & _)]; [reflexivity | discriminate].
Qed.

Lemma get_Raise {A : Type} (l : list A) (i : nat) (e : exn) :
  get l i = Raise e -> e = IndexError.
Proof. unfold get. destruct (l !! i); [discriminate | intros [= <-]; reflexivity]. Qed.

Lemma set_Raise {A : Type} (l : list A) (i : nat) (x : A) (e : exn) :
  set l i x = Raise e -> e = IndexError.
Proof.
  unfold set. destruct (decide (i < length l)); [discriminate|].
  intros [= <-]. reflexivity.
Qed.

Lemma foldM_Raise {A B : Type} (P : exn -> Prop) (f : B -> A -> res B)
    (l : list A) (b : B) (e : exn) :
  (forall b x e, f b x = Raise e -> P e) -> foldM f b l = Raise e -> P e.
Proof.
  intros Hf. revert b. induction l as [|x l IH]; intros b Hrun; simpl in Hrun.
  - discriminate.
  - apply bind_Raise in Hrun as [Hrun|(b' & _ & Hrun)]; [exact (Hf b x e Hrun)|].
    exact (IH b' Hrun).
Qed.

Lemma bfs_visit_Raise (node : nat) (st : bfs_state) (nb : nat) (e : exn) :
  bfs_visit node st nb = Raise e -> e <> OutOfFuel.
Proof.
  intros Hrun. unfold bfs_visit in Hrun.
  apply bind_Raise in Hrun as [Hrun|(seen & _ & Hrun)].
  { apply get_Raise in Hrun. congruence. }
  destruct seen; [discriminate|].
  apply bind_Raise in Hrun as [Hrun|(? & _ & Hrun)].
  { apply set_Raise in Hrun. congruence. }
  apply bind_Raise in Hrun as [Hrun|(d & _ & Hrun)].
  { apply get_Raise in Hrun. congruence. }
  apply bind_Raise in Hrun as [Hrun|(? & _ & Hrun)].
  { destruct d; [discriminate|]. injection Hrun as <-. discriminate. }
  apply bind_Raise in Hrun as [Hrun|(? & _ & Hrun)].
  { apply set_Raise in Hrun. congruence. }
  apply bind_Raise in Hrun as [Hrun|(? & _ & Hrun)].
  { apply get_Raise in Hrun. congruence. }
  apply bind_Raise in Hrun as [Hrun|(? & _ & Hrun)].
  { apply set_Raise in Hrun. congruence. }
  discriminate.
Qed.

Lemma bfs_visit_measure (node : nat) (st st' : bfs_state) (nb : nat) :
  bfs_visit node st nb = Ok st' -> bfs_measure st' = bfs_measure st.
Proof.
  intros Hrun. unfold bfs_visit in Hrun.
  apply bind_Ok in Hrun as (seen & Hseen & Hrun). apply get_Ok in Hseen.
  destruct seen; [injection Hrun as <-; reflexivity|].
  apply bind_Ok in Hrun as (visited' & Hvis & Hrun).
  apply set_Ok in Hvis as [_ ->].
  apply bind_Ok in Hrun as (d & _ & Hrun).
  apply bind_Ok in Hrun as (d' & _ & Hrun).
  apply bind_Ok in Hrun as (distances' & _ & Hrun).
  apply bind_Ok in Hrun as (path_to_node & _ & Hrun).
  apply bind_Ok in Hrun as (paths' & _ & Hrun).
  injection Hrun as <-. unfold bfs_measure. simpl.
  rewrite length_app. simpl. apply unvisited_mark in Hseen. lia.
Qed.

Lemma bfs_while_fuel (n : nat) (g : list (list nat)) (s fuel : nat)
    (st : bfs_state) (e : exn) :
  bfs_inv n g s st -> bfs_measure st <= fuel ->
  bfs_while fuel g st = Raise e -> e <> OutOfFuel.
Proof.
  revert st. induction fuel as [|fuel IH]; intros st Hinv Hfuel Hrun.
  - unfold bfs_measure in Hfuel. simpl in Hrun.
    destruct (queue st); [discriminate | simpl in Hfuel; lia].
  - simpl in Hrun. destruct (queue st) as [|node rest] eqn:Hq; [discriminate|].
    apply bind_Raise in Hrun as [Hrun|(nbrs & Hnbrs & Hrun)].
    { apply get_Raise in Hrun. congruence. }
    apply get_Ok in Hnbrs.
    apply bind_Raise in Hrun as [Hrun|(st1 & Hfold & Hrun)].
    { exact (foldM_Raise (fun e => e <> OutOfFuel) _ _ _ e
               (fun b x e => bfs_visit_Raise node b x e) Hrun). }
    assert (Hnode : visited st !! node = Some true).
    { apply (inv_queue n g s st Hinv). rewrite Hq. left. }
    assert (Hst1 : (bfs_inv n g s st1 /\ visited st1 !! node = Some true) /\
                   bfs_measure st1 <= fuel).
    { refine (foldM_invariant
        (fun st0 => (bfs_inv n g s st0 /\ visited st0 !! node = Some true) /\
                    bfs_measure st0 <= fuel)
        (bfs_visit node) nbrs _ st1 _ _ Hfold).
      - split; [split; [|exact Hnode]|].
        + destruct Hinv as [Hlv Hld Hlp Hdist Hunv Hqueue Hpath Hstart].
          split; simpl; auto.
          intros v Hv. apply Hqueue. rewrite Hq. right. exact Hv.
        + unfold bfs_measure in *. rewrite Hq in Hfuel. simpl in *. lia.
      - intros b x b' Hx [Hb Hm] Hstep. split.
        + exact (bfs_visit_inv n g s node nbrs b b' x Hnbrs Hx Hb Hstep).
        + rewrite (bfs_visit_measure node b b' x Hstep). exact Hm. }
    exact (IH st1 (proj1 (proj1 Hst1)) (proj2 Hst1) Hrun).
Qed.

(** Whatever the graph, [bfs] does not stop for lack of fuel: the loop
    would run no longer without it. *)
Lemma bfs_fuel (n : nat) (g : list (list nat)) (s : nat) (e : exn) :
  bfs n g s = Raise e -> e <> OutOfFuel.
Proof.
  intros Hrun. unfold bfs in Hrun.
  apply bind_Raise in Hrun as [Hrun|(visited0 & Hv0 & Hrun)].
  { apply set_Raise in Hrun. congruence. }
  apply set_Ok in Hv0 as [Hs ->]. rewrite length_replicate in Hs.
  apply bind_Raise in Hrun as [Hrun|(distances0 & Hd0 & Hrun)].
  { apply set_Raise in Hrun. congruence. }
  apply set_Ok in Hd0 as [_ ->].
  apply bind_Raise in Hrun as [Hrun|(st & _ & Hrun)].
  - apply (bfs_while_fuel n g s n _ e (bfs_init_inv n g s Hs)); [|exact Hrun].
    unfold bfs_measure. simpl.
    pose proof (unvisited_mark (replicate n false) s) as Hmark.
    rewrite unvisited_replicate in Hmark.
    specialize (Hmark (proj2 (lookup_replicate _ _ _ _) (conj eq_refl Hs))). lia.
  - refine (foldM_Raise (fun e => e <> OutOfFuel) _ _ _ e _ Hrun).
    intros paths i e' Hclean. unfold bfs_clean in Hclean.
    destruct (decide (i <> s)); [|discriminate].
    apply bind_Raise in Hclean as [Hclean|(p & _ & Hclean)].
    { apply get_Raise in Hclean. congruence. }
    apply bind_Raise in Hclean as [Hclean|(paths1 & _ & Hclean)].
    { apply set_Raise in Hclean. congruence. }
    apply bind_Raise in Hclean as [Hclean|(d & _ & Hclean)].
    { apply get_Raise in Hclean. congruence. }
    destruct d; [discriminate|]. apply set_Raise in Hclean. congruence.
Qed.

(** *** The stored paths are shortest *)

(** A property of the prefix that was folded over. *)
Lemma foldM_prefix_invariant {A B : Type} (P : list A -> B -> Prop)
    (f : B -> A -> res B) (l : list A) (b r : B) :
  P [] b ->
  (forall pre x b b', x ∈ l -> P pre b -> f b x = Ok b' -> P (pre ++ [x]) b') ->
  foldM f b l = Ok r -> P l r.
Proof.
  intros Hb Hstep.
  assert (Hgen : forall suf pre b0, (forall x, x ∈ suf -> x ∈ l) -> P pre b0 ->
            foldM f b0 suf = Ok r -> P (pre ++ suf) r).
  { induction suf as [|x suf IH]; intros pre b0 Hsub Hpre Hrun; simpl in Hrun.
    - injection Hrun as <-. rewrite app_nil_r. exact Hpre.
    - apply bind_Ok in Hrun as (b1 & Hx & Hrun).
      rewrite (cons_middle x pre suf), app_assoc.
      apply (IH _ b1); [| |exact Hrun].
      + intros y Hy. apply Hsub. right. exact Hy.
      + apply (Hstep pre x b0 b1); [apply Hsub; left | exact Hpre | exact Hx]. }
  intros Hrun. exact (Hgen l [] b (fun x Hx => Hx) Hb Hrun).
Qed.

Lemma bfs_visit_cases (node : nat) (st st' : bfs_state) (nb : nat) :
  bfs_visit node st nb = Ok st' ->
  (visited st !! nb = Some true /\ st' = st) \/
  (visited st !! nb = Some false /\
   exists k p,
     distances st !! node = Some (Some k) /\
     shortest_paths_to_node st !! node = Some p /\
     nb < length (visited st) /\ nb < length (distances st) /\
     nb < length (shortest_paths_to_node st) /\
     st' = BfsState (queue st ++ [nb]) (<[nb := true]> (visited st))
             (<[nb := Some (k + 1)]> (distances st))
             (<[nb := p ++ [node]]> (shortest_paths_to_node st))).
Proof.
  intros Hrun. unfold bfs_visit in Hrun.
  apply bind_Ok in Hrun as (seen & Hseen & Hrun). apply get_Ok in Hseen.
  destruct seen; [injection Hrun as <-; left; auto|]. right.
  apply bind_Ok in Hrun as (visited' & Hvis & Hrun).
  apply set_Ok in Hvis as [Hlt ->].
  apply bind_Ok in Hrun as (d & Hd & Hrun). apply get_Ok in Hd.
  apply bind_Ok in Hrun as (d' & Hd' & Hrun).
  destruct d as [k|]; [injection Hd' as <- | discriminate Hd'].
  apply bind_Ok in Hrun as (distances' & Hdis & Hrun).
  apply set_Ok in Hdis as [Hlt0 ->].
  apply bind_Ok in Hrun as (path_to_node & Hptn & Hrun). apply get_Ok in Hptn.
  apply bind_Ok in Hrun as (paths' & Hpaths & Hrun).
  apply set_Ok in Hpaths as [Hlt1 ->].
  injection Hrun as <-.
  split; [exact Hseen|]. exists k, path_to_node. auto 10.
Qed.

Lemma dist_visited (n : nat) (g : list (list nat)) (s : nat) (st : bfs_state)
    (v d : nat) :
  bfs_inv n g s st -> dist st v d -> visited st !! v = Some true.
Proof.
  intros Hinv Hd. unfold dist in Hd.
  destruct (lookup_lt_is_Some_2 (visited st) v) as [[|] Hb]; [|exact Hb|].
  - apply lookup_lt_Some in Hd.
    rewrite (inv_len_visited n g s st Hinv), <- (inv_len_distances n g s st Hinv).
    exact Hd.
  - apply (inv_unvisited n g s st Hinv) in Hb. congruence.
Qed.

Section BfsShortest.

Variable n : nat.
Variable g : list (list nat).
Variable s : nat.

Lemma bfs_visit_mid (u k : nat) (pre : list nat) (st st' : bfs_state) (nb : nat) :
  bfs_inv n g s st ->
  bfs_mid g s u k pre st ->
  bfs_visit u st nb = Ok st' ->
  bfs_mid g s u k (pre ++ [nb]) st'.
Proof.
  intros Hinv (Hs0 & Hu & [(A & B & Hq & HA & HB) Hdone] & Hrel & Hlen & Hpre) Hrun.
  apply bfs_visit_cases in Hrun
    as [[Hseen ->]|(Hseen & k0 & p & Hk0 & Hp & Hlv & Hld & Hlp & ->)].
  - (* the neighbour was reached before *)
    split; [exact Hs0|]. split; [exact Hu|].
    split; [split; [exists A, B; auto | exact Hdone]|].
    split; [exact Hrel|]. split; [exact Hlen|].
    intros v Hv. apply elem_of_app in Hv as [Hv|Hv]; [exact (Hpre v Hv)|].
    apply list_elem_of_singleton in Hv as ->.
    destruct (decide (nb ∈ queue st)) as [Hin|Hout].
    + rewrite Hq in Hin. apply elem_of_app in Hin as [Hin|Hin].
      * exists k. split; [exact (HA nb Hin) | lia].
      * exists (k + 1). split; [exact (HB nb Hin) | lia].
    + destruct (Hdone nb Hseen Hout) as (dw & Hdw & Hle).
      exists dw. split; [exact Hdw | lia].
  - (* the neighbour is new *)
    assert (k0 = k) as -> by (unfold dist in Hu; congruence).
    pose proof (inv_unvisited n g s st Hinv nb Hseen) as Hnone.
    assert (Hmono : forall v d, dist st v d ->
              distances (BfsState (queue st ++ [nb]) (<[nb := true]> (visited st))
                (<[nb := Some (k + 1)]> (distances st))
                (<[nb := p ++ [u]]> (shortest_paths_to_node st))) !! v
              = Some (Some d)).
    { intros v d Hd. simpl. unfold dist in Hd.
      assert (v <> nb) by (intros ->; congruence).
      rewrite list_lookup_insert_ne by auto. exact Hd. }
    assert (Hnew : <[nb := Some (k + 1)]> (distances st) !! nb = Some (Some (k + 1))).
    { apply list_lookup_insert_eq. exact Hld. }
    unfold bfs_mid, levels, relaxed, path_lengths, dist in *. simpl in *.
    split; [apply Hmono; exact Hs0|]. split; [apply Hmono; exact Hu|].
    split; [split|].
    + exists A, (B ++ [nb]). split; [rewrite Hq, app_assoc; reflexivity|].
      split; [intros v Hv; apply Hmono, HA, Hv|].
      intros v Hv. apply elem_of_app in Hv as [Hv|Hv]; [apply Hmono, HB, Hv|].
      apply list_elem_of_singleton in Hv as ->. exact Hnew.
    + intros w Hw Hout.
      assert (w <> nb).
      { intros ->. apply Hout. apply elem_of_app. right. left. }
      rewrite list_lookup_insert_ne in Hw by auto.
      destruct (Hdone w Hw) as (dw & Hdw & Hle).
      { intros Hin. apply Hout. apply elem_of_app. left. exact Hin. }
      exists dw. split; [apply Hmono; exact Hdw | exact Hle].
    + split; [|split].
      * intros w nbrs v Hw Hout Hne Hnbrs Hv.
        assert (w <> nb).
        { intros ->. apply Hout. apply elem_of_app. right. left. }
        rewrite list_lookup_insert_ne in Hw by auto.
        destruct (Hrel w nbrs v Hw) as (dw & dv & Hdw & Hdv & Hle); auto.
        { intros Hin. apply Hout. apply elem_of_app. left. exact Hin. }
        exists dw, dv. split; [apply Hmono; exact Hdw|].
        split; [apply Hmono; exact Hdv | exact Hle].
      * intros v q d Hq' Hd. destruct (decide (v = nb)) as [->|Hne].
        -- rewrite list_lookup_insert_eq in Hq' by exact Hlp. injection Hq' as <-.
           rewrite Hnew in Hd. injection Hd as <-.
           rewrite length_app. simpl. rewrite (Hlen u p k Hp Hu). reflexivity.
        -- rewrite list_lookup_insert_ne in Hq' by auto.
           rewrite list_lookup_insert_ne in Hd by auto.
           exact (Hlen v q d Hq' Hd).
      * intros v Hv. apply elem_of_app in Hv as [Hv|Hv].
        -- destruct (Hpre v Hv) as (dv & Hdv & Hle).
           exists dv. split; [apply Hmono; exact Hdv | exact Hle].
        -- apply list_elem_of_singleton in Hv as ->.
           exists (k + 1). split; [exact Hnew | lia].
Qed.

Lemma bfs_pop_mid (u : nat) (rest : list nat) (st : bfs_state) :
  bfs_inv n g s st -> bfs_top g s st -> queue st = u :: rest ->
  exists k,
    bfs_mid g s u k []
      (BfsState rest (visited st) (distances st) (shortest_paths_to_node st)).
Proof.
  intros Hinv (Hs0 & (k & (A & B & Hq & HA & HB) & Hdone) & Hrel & Hlen) Hqueue.
  assert (Hold : forall w, visited st !! w = Some true -> w ∉ rest -> w <> u ->
            w ∉ queue st).
  { intros w _ Hout Hne Hin. rewrite Hqueue in Hin.
    apply elem_of_cons in Hin as [->|Hin]; [apply Hne; reflexivity | exact (Hout Hin)]. }
  assert (Hrel' : relaxed g
    (BfsState rest (visited st) (distances st) (shortest_paths_to_node st)) (Some u)).
  { intros w nbrs v Hw Hout Hne Hnbrs Hv. simpl in *.
    apply (Hrel w nbrs v Hw); [|discriminate|exact Hnbrs|exact Hv].
    apply Hold; [exact Hw | exact Hout | congruence]. }
  rewrite Hqueue in Hq. destruct A as [|a A'].
  - (* the level [k] is used up, the queue is the level [k + 1] *)
    simpl in Hq. exists (k + 1).
    assert (Hu : dist st u (k + 1)) by (apply HB; rewrite <- Hq; left).
    split; [exact Hs0|]. split; [exact Hu|]. split; [split|].
    + exists rest, []. split; [rewrite app_nil_r; reflexivity|]. split.
      * intros v Hv. apply HB. rewrite <- Hq. right. exact Hv.
      * intros v Hv. inversion Hv.
    + intros w Hw Hout. simpl in *. destruct (decide (w = u)) as [->|Hne].
      * exists (k + 1). split; [exact Hu | lia].
      * destruct (Hdone w Hw (Hold w Hw Hout Hne)) as (dw & Hdw & Hle).
        exists dw. split; [exact Hdw | lia].
    + split; [exact Hrel'|]. split; [exact Hlen|]. intros v Hv. inversion Hv.
  - simpl in Hq. injection Hq as <- ->. exists k.
    assert (Hu : dist st u k) by (apply HA; left).
    split; [exact Hs0|]. split; [exact Hu|]. split; [split|].
    + exists A', B. split; [reflexivity|]. split; [|exact HB].
      intros v Hv. apply HA. right. exact Hv.
    + intros w Hw Hout. simpl in *. destruct (decide (w = u)) as [->|Hne].
      * exists k. split; [exact Hu | lia].
      * exact (Hdone w Hw (Hold w Hw Hout Hne)).
    + split; [exact Hrel'|]. split; [exact Hlen|]. intros v Hv. inversion Hv.
Qed.

Lemma bfs_while_top (fuel : nat) (st st' : bfs_state) :
  bfs_inv n g s st -> bfs_top g s st ->
  bfs_while fuel g st = Ok st' ->
  bfs_top g s st' /\ queue st' = [].
Proof.
  revert st. induction fuel as [|fuel IH]; intros st Hinv Htop Hrun.
  - simpl in Hrun. destruct (queue st) eqn:Hq; [|discriminate].
    injection Hrun as <-. auto.
  - simpl in Hrun. destruct (queue st) as [|u rest] eqn:Hq.
    { injection Hrun as <-. auto. }
    apply bind_Ok in Hrun as (nbrs & Hnbrs & Hrun). apply get_Ok in Hnbrs.
    apply bind_Ok in Hrun as (st1 & Hfold & Hrun).
    assert (Hnode : visited st !! u = Some true).
    { apply (inv_queue n g s st Hinv). rewrite Hq. left. }
    destruct (bfs_pop_mid u rest st Hinv Htop Hq) as [k Hmid].
    assert (Hst1 : (bfs_inv n g s st1 /\ visited st1 !! u = Some true) /\
                   bfs_mid g s u k nbrs st1).
    { refine (foldM_prefix_invariant
        (fun pre st0 => (bfs_inv n g s st0 /\ visited st0 !! u = Some true) /\
                        bfs_mid g s u k pre st0)
        (bfs_visit u) nbrs _ st1 _ _ Hfold).
      - split; [split; [|exact Hnode] | exact Hmid].
        destruct Hinv as [Hlv Hld Hlp Hdist Hunv Hqueue Hpath Hstart].
        split; simpl; auto.
        intros v Hv. apply Hqueue. rewrite Hq. right. exact Hv.
      - intros pre x b b' Hx [Hb Hm] Hstep. split.
        + exact (bfs_visit_inv n g s u nbrs b b' x Hnbrs Hx Hb Hstep).
        + exact (bfs_visit_mid u k pre b b' x (proj1 Hb) Hm Hstep). }
    destruct Hst1 as [[Hinv1 Hnode1] (Hs0 & Hu & Hlev & Hrel & Hlen & Hpre)].
    apply (IH st1 Hinv1); [|exact Hrun].
    split; [exact Hs0|]. split; [exists k; exact Hlev|]. split; [|exact Hlen].
    intros w nbrs' v Hw Hout _ Hnbrs' Hv.
    destruct (decide (w = u)) as [->|Hne].
    + assert (nbrs' = nbrs) as -> by congruence.
      destruct (Hpre v Hv) as (dv & Hdv & Hle).
      exists k, dv. auto.
    + apply (Hrel w nbrs' v Hw Hout); [congruence | exact Hnbrs' | exact Hv].
Qed.

Lemma bfs_init_top :
  s < n ->
  bfs_top g s (BfsState [s] (<[s := true]> (replicate n false))
                 (<[s := Some 0]> (replicate n None)) (replicate n [])).
Proof.
  intros Hs.
  assert (Hs0 : <[s := Some 0]> (replicate n (@None nat)) !! s = Some (Some 0)).
  { apply list_lookup_insert_eq. rewrite length_replicate. exact Hs. }
  assert (Hvis : forall w, <[s := true]> (replicate n false) !! w = Some true -> w = s).
  { intros w Hw. destruct (decide (w = s)) as [->|Hne]; [reflexivity|].
    rewrite list_lookup_insert_ne in Hw by auto.
    apply lookup_replicate in Hw as [Hw _]. discriminate. }
  unfold bfs_top, levels, relaxed, path_lengths, dist. simpl.
  split; [exact Hs0|]. split; [|split].
  - exists 0. split.
    + exists [s], []. split; [reflexivity|]. split.
      * intros v Hv. apply list_elem_of_singleton in Hv as ->. exact Hs0.
      * intros v Hv. inversion Hv.
    + intros w Hw Hout. apply Hvis in Hw as ->. exfalso. apply Hout. left.
  - intros w nbrs v Hw Hout. apply Hvis in Hw as ->. exfalso. apply Hout. left.
  - intros v p d Hp Hd. apply lookup_replicate in Hp as [-> _].
    destruct (decide (v = s)) as [->|Hne].
    { rewrite Hs0 in Hd. injection Hd as <-. reflexivity. }
    rewrite list_lookup_insert_ne in Hd by auto.
    apply lookup_replicate in Hd as [Hd _]. discriminate.
Qed.

(** When the search is over, the distance of the [i]-th node of a walk from
    the start node is set, to [i] at most. *)
Lemma walk_dist (st : bfs_state) (l : list nat) :
  bfs_inv n g s st -> bfs_top g s st -> queue st = [] ->
  walk g l -> head l = Some s ->
  forall i v, l !! i = Some v -> exists dv, dist st v dv /\ dv <= i.
Proof.
  intros Hinv (Hs0 & _ & Hrel & _) Hq Hwalk Hhead.
  induction i as [|i IH]; intros v Hv.
  - rewrite <- head_lookup in Hv. assert (v = s) as -> by congruence.
    exists 0. auto.
  - destruct (lookup_lt_is_Some_2 l i) as [u Hu].
    { apply lookup_lt_Some in Hv. lia. }
    destruct (IH u Hu) as (du & Hdu & Hle).
    destruct (Hwalk i u v Hu Hv) as (nbrs & Hnbrs & Hin).
    destruct (Hrel u nbrs v) as (dw & dv & Hdw & Hdv & Hle'); auto.
    + exact (dist_visited n g s st u du Hinv Hdu).
    + rewrite Hq. intros Hempty. inversion Hempty.
    + exists dv. split; [exact Hdv|]. unfold dist in *.
      assert (dw = du) by congruence. lia.
Qed.

End BfsShortest.

(** [bfs] stores a path for every node that a walk from the start node
    reaches, and no such walk has fewer nodes than the stored path. *)
Lemma bfs_shortest (n : nat) (g : list (list nat)) (s : nat)
    (paths : list (list nat)) (t : nat) (l : list nat) :
  bfs n g s = Ok paths ->
  walk g l -> head l = Some s -> last l = Some t -> t <> s ->
  exists p, paths !! t = Some p /\ p <> [] /\ length p <= length l.
Proof.
  intros Hrun Hwalk Hhead Hlast Hts. unfold bfs in Hrun.
  apply bind_Ok in Hrun as (visited0 & Hv0 & Hrun).
  apply set_Ok in Hv0 as [Hs ->]. rewrite length_replicate in Hs.
  apply bind_Ok in Hrun as (distances0 & Hd0 & Hrun).
  apply set_Ok in Hd0 as [_ ->].
  apply bind_Ok in Hrun as (st & Hwhile & Hrun).
  pose proof (bfs_while_inv n g s _ _ _ (bfs_init_inv n g s Hs) Hwhile) as Hinv.
  destruct (bfs_while_top n g s _ _ _ (bfs_init_inv n g s Hs) (bfs_init_top n g s Hs)
              Hwhile) as [Htop Hq].
  rewrite last_lookup in Hlast.
  destruct (walk_dist n g s st l Hinv Htop Hq Hwalk Hhead _ t Hlast)
    as (dt & Hdt & Hle).
  apply (bfs_clean_spec n) in Hrun as [Hlr Hclean];
    [|exact (inv_len_paths n g s st Hinv)|exact (inv_len_distances n g s st Hinv)].
  destruct (lookup_lt_is_Some_2 paths t) as [p' Hp'].
  { rewrite Hlr, <- (inv_len_distances n g s st Hinv).
    unfold dist in Hdt. apply lookup_lt_Some in Hdt. exact Hdt. }
  exists p'. split; [exact Hp'|].
  destruct (Hclean t p' Hp') as (p & d & Hp & Hd & ->).
  rewrite decide_False by exact Hts.
  unfold dist in Hdt. rewrite Hdt in Hd. injection Hd as <-.
  destruct Htop as (_ & _ & _ & Hlen).
  rewrite length_app, (Hlen t p dt Hp Hdt). simpl.
  split; [destruct p; discriminate|].
  apply lookup_lt_Some in Hlast. lia.
Qed.

Lemma mapM_total {A B : Type} (f : A -> res B) (l : list A) :
  (forall x, x ∈ l -> exists y, f x = Ok y) -> exists r, mapM f l = Ok r.
Proof.
  induction l as [|x l IH]; intros Hf; simpl; [eauto|].
  destruct (Hf x) as [y ->]; [left|]. simpl.
  destruct IH as [ys ->]; [|simpl; eauto].
  intros z Hz. apply Hf. right. exact Hz.
Qed.

Lemma mapM_seq_lookup {B : Type} (f : nat -> res B) (len : nat) (r : list B) :
  mapM f (seq 0 len) = Ok r ->
  length r = len /\ forall i y, r !! i = Some y -> f i = Ok y.
Proof.
  intros Hrun. apply mapM_Ok in Hrun. split.
  - apply Forall2_length in Hrun. rewrite length_seq in Hrun. auto.
  - intros i y Hy.
    destruct (Forall2_lookup_r _ _ _ i y Hrun Hy) as (j & Hj & Hf).
    apply lookup_seq in Hj as [-> _]. exact Hf.
Qed.

(** ** Envy graph builder *)

Lemma envy_list_spec (m : nat) (preferences : list (list bool)) (x : nat)
    (allocation : list nat) (items : list nat) :
  envy_list m preferences x allocation = Ok items ->
  forall item, item ∈ items <->
    item < m /\ likes preferences x item /\
    exists b, allocation !! item = Some b /\ b <> x.
Proof.
  intros Hrun. unfold envy_list in Hrun.
  refine (foldM_seq_invariant (fun k acc => forall item, item ∈ acc <->
    item < k /\ likes preferences x item /\
    exists b, allocation !! item = Some b /\ b <> x) _ _ _ _ _ _ Hrun).
  - intros item. split; [intros Hin; inversion Hin | lia].
  - intros i acc acc' Hi Hacc Hstep item.
    apply bind_Ok in Hstep as (row & Hrow & Hstep). apply get_Ok in Hrow.
    apply bind_Ok in Hstep as (l & Hl & Hstep). apply get_Ok in Hl.
    assert (Hold : item ∈ acc <-> item ≠ i /\ item < S i /\
      likes preferences x item /\ exists b, allocation !! item = Some b /\ b <> x).
    { rewrite Hacc. split; [intros (H1 & H2 & H3) | intros (H0 & H1 & H2 & H3)];
        repeat split; auto; lia. }
    assert (Hlikes : likes preferences x i -> l = true).
    { intros (row' & Hrow' & Hl'). congruence. }
    destruct l.
    + apply bind_Ok in Hstep as (owner & Howner & Hstep). apply get_Ok in Howner.
      destruct (decide (owner <> x)) as [Hne|Heq]; injection Hstep as <-.
      * rewrite elem_of_app, list_elem_of_singleton, Hold. split.
        -- intros [Hin| ->]; [tauto|]. split; [lia|].
           split; [exists row; auto | exists owner; auto].
        -- intros (H1 & H2 & H3). destruct (decide (item = i)); [right | left]; auto.
      * rewrite Hold. apply dec_stable in Heq. subst owner. split; [tauto|].
        intros (H1 & H2 & b & Hb & Hbx). split; [|repeat split; eauto].
        intros ->. congruence.
    + injection Hstep as <-. rewrite Hold. split; [tauto|].
      intros (H1 & H2 & H3). split; [|auto].
      intros ->. specialize (Hlikes H2). discriminate.
Qed.

Lemma envy_list_total (n m : nat) (preferences : list (list bool)) (x : nat)
    (allocation : list nat) :
  wf_preferences n m preferences -> length allocation = m -> x < n ->
  exists items, envy_list m preferences x allocation = Ok items.
Proof.
  intros [Hlen Hrows] Hal Hx. unfold envy_list.
  match goal with
  | |- context [foldM ?f ?b (seq 0 ?k)] =>
      destruct (foldM_seq_total (fun _ _ => True) f k b) as (r & Hr & _);
        [exact I| |eauto]
  end.
  intros i acc Hi _.
  destruct (get_lt preferences x) as (row & -> & Hrow); [lia|]. simpl.
  destruct (get_lt row i) as (l & -> & _); [rewrite (Hrows x row Hrow); lia|].
  simpl. destruct l; [|eauto].
  destruct (get_lt allocation i) as (owner & -> & _); [lia|]. simpl.
  destruct (decide (owner <> x)); eauto.
Qed.

(** [list(dict.fromkeys(...))] on a sorted list *)
Lemma fromkeys_elem_of (keys l : list nat) (x : nat) :
  x ∈ fromkeys keys l <-> x ∈ keys \/ x ∈ l.
Proof.
  revert keys. induction l as [|y l IH]; intros keys; simpl.
  - split; [auto | intros [Hx|Hx]; [exact Hx | inversion Hx]].
  - destruct (decide (y ∈ keys)) as [Hy|Hy]; rewrite IH.
    + rewrite elem_of_cons. split; [tauto|].
      intros [Hx|[->|Hx]]; auto.
    + rewrite elem_of_app, list_elem_of_singleton, elem_of_cons. tauto.
Qed.

Lemma fromkeys_sorted (keys l : list nat) :
  StronglySorted lt keys -> StronglySorted le l ->
  (forall k x, k ∈ keys -> x ∈ l -> k <= x) ->
  StronglySorted lt (fromkeys keys l).
Proof.
  revert keys. induction l as [|y l IH]; intros keys Hkeys Hl Hle; simpl.
  - exact Hkeys.
  - apply StronglySorted_cons in Hl as [Hy Hl]. rewrite Forall_forall in Hy.
    destruct (decide (y ∈ keys)) as [Hin|Hin].
    + apply IH; [exact Hkeys | exact Hl |].
      intros k x Hk Hx. apply Hle; [exact Hk | right; exact Hx].
    + apply IH; [|exact Hl|].
      * apply StronglySorted_app_2; [|exact Hkeys|repeat constructor].
        intros k x Hk Hx. apply list_elem_of_singleton in Hx as ->.
        assert (k <= y) by (apply Hle; [exact Hk | left]).
        assert (k <> y) by (intros ->; contradiction). lia.
      * intros k x Hk Hx. apply elem_of_app in Hk as [Hk|Hk].
        -- apply Hle; [exact Hk | right; exact Hx].
        -- apply list_elem_of_singleton in Hk as ->. apply Hy. exact Hx.
Qed.

Lemma StronglySorted_lt_NoDup (l : list nat) : StronglySorted lt l -> NoDup l.
Proof.
  induction l as [|x l IH]; intros Hl; [constructor|].
  apply StronglySorted_cons in Hl as [Hx Hl]. rewrite Forall_forall in Hx.
  apply NoDup_cons. split; [|auto].
  intros Hin. apply Hx in Hin. lia.
Qed.

Lemma short_envy_spec (edges : list nat) :
  let short_envy := fromkeys [] (merge_sort Nat.le edges) in
  StronglySorted lt short_envy /\ NoDup short_envy /\
  forall b, b ∈ short_envy <-> b ∈ edges.
Proof.
  simpl.
  assert (Hs : StronglySorted lt (fromkeys [] (merge_sort Nat.le edges))).
  { apply fromkeys_sorted; [constructor | |].
    - apply StronglySorted_merge_sort; apply _.
    - intros k x Hk. inversion Hk. }
  split; [exact Hs|]. split; [apply StronglySorted_lt_NoDup; exact Hs|].
  intros b. rewrite fromkeys_elem_of, merge_sort_Permutation.
  split; [intros [Hb|Hb]; [inversion Hb | exact Hb] | auto].
Qed.

Lemma shorten_envy_list_spec (n : nat) (edges g : list (list nat)) :
  shorten_envy_list n edges = Ok g ->
  length edges = n /\ length g = n /\
  forall i e, edges !! i = Some e ->
    g !! i = Some (fromkeys [] (merge_sort Nat.le e)).
Proof.
  intros Hrun. unfold shorten_envy_list in Hrun.
  apply bind_Ok in Hrun as (sh & Hfold & Hrun).
  destruct (decide (length edges < n)) as [|Hge]; [discriminate|].
  injection Hrun as ->.
  pose (P := fun (k : nat) (sh : list (list nat)) =>
    length sh = n /\ k <= n /\
    forall i e, i < k -> edges !! i = Some e ->
      sh !! i = Some (fromkeys [] (merge_sort Nat.le e))).
  assert (HP : P (length edges) g).
  { refine (foldM_seq_invariant P _ _ _ _ _ _ Hfold).
    - split; [apply length_replicate|]. split; [lia|]. intros i e Hi. lia.
    - intros i acc acc' Hi (Hl & Hk & Hdone) Hstep.
      apply bind_Ok in Hstep as (e & He & Hstep). apply get_Ok in He.
      apply set_Ok in Hstep as [Hlt ->].
      split; [rewrite length_insert; exact Hl|]. split; [lia|].
      intros j e' Hj He'. destruct (decide (j = i)) as [->|Hji].
      + rewrite list_lookup_insert_eq by exact Hlt. congruence.
      + rewrite list_lookup_insert_ne by auto. apply Hdone; [lia | exact He']. }
  destruct HP as (Hl & Hk & Hdone).
  split; [lia|]. split; [exact Hl|].
  intros i e He. apply Hdone; [|exact He]. apply lookup_lt_Some in He. exact He.
Qed.

Lemma shorten_envy_list_total (n : nat) (edges : list (list nat)) :
  length edges = n -> exists g, shorten_envy_list n edges = Ok g.
Proof.
  intros Hlen. unfold shorten_envy_list.
  match goal with
  | |- context [foldM ?f ?b (seq 0 ?k)] =>
      destruct (foldM_seq_total (fun _ sh => length sh = n) f k b) as (r & -> & _)
  end.
  - apply length_replicate.
  - intros i sh Hi Hl.
    destruct (get_lt edges i) as (e & -> & _); [exact Hi|]. simpl.
    rewrite set_lt by lia. eexists. split; [reflexivity|].
    rewrite length_insert. exact Hl.
  - simpl. rewrite decide_False by lia. eauto.
Qed.

Lemma mapM_get_elem_of (allocation items agents : list nat) (b : nat) :
  mapM (fun specific_item => get allocation specific_item) items = Ok agents ->
  b ∈ agents <-> exists item, item ∈ items /\ allocation !! item = Some b.
Proof.
  intros Hrun. apply mapM_Ok in Hrun. split.
  - intros Hb. apply list_elem_of_lookup in Hb as [i Hi].
    destruct (Forall2_lookup_r _ _ _ i b Hrun Hi) as (item & Hitem & Hget).
    exists item. split; [|apply get_Ok; exact Hget].
    apply list_elem_of_lookup. eauto.
  - intros (item & Hitem & Hal). apply list_elem_of_lookup in Hitem as [i Hi].
    destruct (Forall2_lookup_l _ _ _ i item Hrun Hi) as (b' & Hb' & Hget).
    apply get_Ok in Hget. apply list_elem_of_lookup. exists i. congruence.
Qed.

(** The rows of the envy graph, as [main] builds it in each pass. *)
Lemma envy_graph_spec (n m : nat) (preferences : list (list bool))
    (allocation : list nat) (edges g : list (list nat)) :
  calculate_item_envy_relations n m preferences allocation = Ok edges ->
  shorten_envy_list n edges = Ok g ->
  length g = n /\
  forall a l, g !! a = Some l ->
    StronglySorted lt l /\ NoDup l /\
    forall b, b ∈ l <-> envies m preferences allocation a b.
Proof.
  intros Hcalc Hshort. unfold calculate_item_envy_relations in Hcalc.
  apply bind_Ok in Hcalc as (big & Hbig & Hagents).
  apply mapM_seq_lookup in Hbig as [Hlbig Hbig].
  unfold envied_agents in Hagents. apply mapM_Ok in Hagents.
  apply shorten_envy_list_spec in Hshort as (Hledges & Hlg & Hg).
  split; [exact Hlg|]. intros a l Hl.
  destruct (lookup_lt_is_Some_2 edges a) as [e He].
  { apply lookup_lt_Some in Hl. lia. }
  rewrite (Hg a e He) in Hl. injection Hl as <-.
  destruct (short_envy_spec e) as (Hsorted & Hnodup & Hmem).
  split; [exact Hsorted|]. split; [exact Hnodup|].
  intros b. rewrite Hmem.
  destruct (Forall2_lookup_r _ _ _ a e Hagents He) as (items & Hitems & Hmap).
  rewrite (mapM_get_elem_of allocation items e b Hmap).
  pose proof (envy_list_spec m preferences a allocation items (Hbig a items Hitems))
    as Hspec.
  unfold envies. split.
  - intros (item & Hin & Hal). apply Hspec in Hin as (Hlt & Hlikes & b' & Hb' & Hne).
    assert (b' = b) as -> by congruence.
    split; [exact Hne|]. exists item. auto.
  - intros (Hne & item & Hlt & Hlikes & Hal). exists item. split; [|exact Hal].
    apply Hspec. split; [exact Hlt|]. split; [exact Hlikes|]. eauto.
Qed.

Lemma envy_graph_total (n m : nat) (preferences : list (list bool))
    (allocation : list nat) :
  wf_preferences n m preferences -> length allocation = m ->
  exists edges g,
    calculate_item_envy_relations n m preferences allocation = Ok edges /\
    shorten_envy_list n edges = Ok g.
Proof.
  intros Hp Hal. unfold calculate_item_envy_relations.
  destruct (mapM_total (fun i => envy_list m preferences i allocation) (seq 0 n))
    as [big Hbig].
  { intros x Hx. apply elem_of_seq in Hx.
    apply (envy_list_total n m); [exact Hp | exact Hal | lia]. }
  rewrite Hbig. simpl.
  pose proof (mapM_seq_lookup _ _ _ Hbig) as [Hlbig Hbig'].
  destruct (mapM_total
    (fun items => mapM (fun specific_item => get allocation specific_item) items) big)
    as [edges Hedges].
  { intros items Hitems. apply list_elem_of_lookup in Hitems as [a Ha].
    apply mapM_total. intros item Hitem.
    apply (envy_list_spec _ _ _ _ _ (Hbig' a items Ha)) in Hitem
      as (_ & _ & b & Hb & _).
    exists b. apply get_Ok. exact Hb. }
  unfold envied_agents. rewrite Hedges.
  destruct (shorten_envy_list_total n edges) as [g Hg].
  { apply mapM_Ok, Forall2_length in Hedges. lia. }
  eauto.
Qed.

(** ** Possessions *)

(** Each agent's list holds, in ascending order, the items allocated to it. *)
Lemma find_possession_spec (n : nat) (allocation : list nat)
    (possessions : list (list nat)) :
  find_possession n allocation = Ok possessions ->
  length possessions = n /\
  (forall item a, allocation !! item = Some a -> a < n) /\
  forall a own, possessions !! a = Some own ->
    StronglySorted lt own /\
    forall item, item ∈ own <-> allocation !! item = Some a.
Proof.
  intros Hrun. unfold find_possession in Hrun.
  pose (P := fun (k : nat) (poss : list (list nat)) =>
    length poss = n /\
    (forall item a, item < k -> allocation !! item = Some a -> a < n) /\
    forall a own, poss !! a = Some own ->
      StronglySorted lt own /\
      forall item, item ∈ own <-> item < k /\ allocation !! item = Some a).
  assert (HP : P (length allocation) possessions).
  { refine (foldM_seq_invariant P _ _ _ _ _ _ Hrun).
    - split; [apply length_replicate|]. split; [intros item a Hi; lia|].
      intros a own Hown. apply lookup_replicate in Hown as [-> _].
      split; [constructor|]. intros item. split; [intros Hin; inversion Hin | lia].
    - intros i poss poss' Hi (Hl & Hbound & Hposs) Hstep.
      apply bind_Ok in Hstep as (owner & Howner & Hstep). apply get_Ok in Howner.
      apply bind_Ok in Hstep as (own0 & Hown0 & Hstep). apply get_Ok in Hown0.
      apply set_Ok in Hstep as [Hlt ->].
      split; [rewrite length_insert; exact Hl|]. split.
      { intros item a Hitem Ha. destruct (decide (item = i)) as [->|Hne].
        - assert (a = owner) as -> by congruence. lia.
        - apply (Hbound item); [lia | exact Ha]. }
      intros a own Hown. destruct (decide (a = owner)) as [->|Hne].
      + rewrite list_lookup_insert_eq in Hown by exact Hlt. injection Hown as <-.
        destruct (Hposs owner own0 Hown0) as [Hsorted Hmem]. split.
        * apply StronglySorted_app_2; [|exact Hsorted|repeat constructor].
          intros x y Hx Hy. apply list_elem_of_singleton in Hy as ->.
          apply Hmem in Hx. lia.
        * intros item. rewrite elem_of_app, list_elem_of_singleton, Hmem.
          split.
          -- intros [[Hlti Hal]| ->]; [split; [lia | exact Hal] | split; [lia | exact Howner]].
          -- intros [Hlti Hal]. destruct (decide (item = i)); [right | left; split]; auto; lia.
      + rewrite list_lookup_insert_ne in Hown by auto.
        destruct (Hposs a own Hown) as [Hsorted Hmem]. split; [exact Hsorted|].
        intros item. rewrite Hmem. split.
        * intros [Hlti Hal]. split; [lia | exact Hal].
        * intros [Hlti Hal]. split; [|exact Hal].
          destruct (decide (item = i)) as [->|]; [congruence | lia]. }
  destruct HP as (Hl & Hbound & Hposs). split; [exact Hl|]. split.
  - intros item a Ha. apply (Hbound item); [|exact Ha].
    apply lookup_lt_Some in Ha. exact Ha.
  - intros a own Hown. destruct (Hposs a own Hown) as [Hsorted Hmem].
    split; [exact Hsorted|]. intros item. rewrite Hmem. split; [tauto|].
    intros Hal. split; [|exact Hal]. apply lookup_lt_Some in Hal. exact Hal.
Qed.

Lemma find_possession_total (n m : nat) (allocation : list nat) :
  wf_allocation n m allocation ->
  exists possessions, find_possession n allocation = Ok possessions.
Proof.
  intros [Hlen Hbound]. unfold find_possession.
  match goal with
  | |- context [foldM ?f ?b (seq 0 ?k)] =>
      destruct (foldM_seq_total (fun _ poss => length poss = n) f k b)
        as (r & Hr & _); [apply length_replicate| |eauto]
  end.
  intros i poss Hi Hl.
  destruct (get_lt allocation i) as (owner & -> & Howner); [exact Hi|]. simpl.
  apply Hbound in Howner.
  destruct (get_lt poss owner) as (own & -> & _); [lia|]. simpl.
  rewrite set_lt by lia. eexists. split; [reflexivity|].
  rewrite length_insert. exact Hl.
Qed.

(** ** Item selection *)

Lemma likesb_likes (preferences : list (list bool)) (a item : nat) :
  likesb preferences a item = true <-> likes preferences a item.
Proof.
  unfold likesb, likes. split.
  - destruct (preferences !! a) as [row|]; [|discriminate].
    destruct (row !! item) as [b|] eqn:Hb; simpl; [|discriminate].
    intros ->. eauto.
  - intros (row & -> & ->). reflexivity.
Qed.

Lemma pick_item_spec (n m : nat) (preferences : list (list bool))
    (best_path : list nat) (agent taker : nat) (own : list nat) :
  wf_preferences n m preferences ->
  best_path !! agent = Some taker -> taker < n ->
  (forall item, item ∈ own -> item < m) ->
  pick_item preferences best_path agent own = Ok (first_liked preferences taker own).
Proof.
  intros [Hlen Hrows] Htaker Hlt Hown.
  destruct (lookup_lt_is_Some_2 preferences taker) as [row Hrow]; [lia|].
  unfold first_liked. induction own as [|item own IH]; [reflexivity|].
  simpl. rewrite (proj2 (get_Ok _ _ _) Htaker). simpl.
  rewrite (proj2 (get_Ok _ _ _) Hrow). simpl.
  destruct (get_lt row item) as (l & -> & Hl).
  { rewrite (Hrows taker row Hrow). apply Hown. left. }
  assert (Hlb : likesb preferences taker item = l).
  { unfold likesb. rewrite Hrow, Hl. reflexivity. }
  simpl. rewrite filter_cons. destruct l.
  - rewrite decide_True by exact Hlb. reflexivity.
  - rewrite decide_False by congruence. apply IH.
    intros item' Hin. apply Hown. right. exact Hin.
Qed.

(** [pick_items] collects the items of the hops that have one, in the
    order of the hops; it raises nothing on a hop that has none. *)
Lemma pick_items_spec (n m : nat) (preferences : list (list bool))
    (best_path allocation : list nat) (possessions : list (list nat)) :
  wf_preferences n m preferences ->
  length possessions = n ->
  (forall a own item, possessions !! a = Some own -> item ∈ own -> item < m) ->
  (forall a, a ∈ best_path -> a < n) ->
  pick_items best_path allocation possessions preferences =
    Ok (omap (hop_pick preferences possessions best_path)
             (seq 0 (length best_path - 1))).
Proof.
  intros Hp Hlen Hitems Hpath. unfold pick_items.
  match goal with
  | |- context [foldM ?f ?b (seq 0 ?k)] =>
      destruct (foldM_seq_total
        (fun j acc => acc = omap (hop_pick preferences possessions best_path) (seq 0 j))
        f k b) as (r & -> & ->); [reflexivity| |reflexivity]
  end.
  intros i acc Hi ->. rewrite seq_S, omap_app.
  destruct (get_lt best_path (i + 1)) as (giver & -> & Hgiver); [lia|]. simpl.
  assert (Hgn : giver < n).
  { apply Hpath. apply list_elem_of_lookup. eauto. }
  destruct (get_lt possessions giver) as (own & -> & Hown); [lia|]. simpl.
  destruct (lookup_lt_is_Some_2 best_path i) as [taker Htaker]; [lia|].
  rewrite (pick_item_spec n m preferences best_path i taker own Hp Htaker).
  - simpl.
    assert (Hhop : hop_pick preferences possessions best_path i =
                   first_liked preferences taker own).
    { unfold hop_pick. rewrite Htaker, Hgiver, Hown. reflexivity. }
    rewrite Hhop.
    destruct (first_liked preferences taker own); eexists; split;
      try reflexivity.
    rewrite app_nil_r. reflexivity.
  - apply Hpath. apply list_elem_of_lookup. eauto.
  - intros item Hin. exact (Hitems giver own item Hown Hin).
Qed.

Lemma first_liked_Some (preferences : list (list bool)) (taker : nat)
    (own : list nat) (item : nat) :
  first_liked preferences taker own = Some item ->
  exists l1 l2, own = l1 ++ item :: l2 /\
    likesb preferences taker item = true /\
    forall x, x ∈ l1 -> likesb preferences taker x = false.
Proof.
  unfold first_liked. induction own as [|y own IH]; [discriminate|].
  rewrite filter_cons.
  destruct (decide (likesb preferences taker y = true)) as [Hy|Hy]; simpl.
  - intros [= ->]. exists [], own. split; [reflexivity|]. split; [exact Hy|].
    intros x Hx. inversion Hx.
  - intros Hfind. destruct (IH Hfind) as (l1 & l2 & -> & Hitem & Hl1).
    exists (y :: l1), l2. split; [reflexivity|]. split; [exact Hitem|].
    intros x Hx. apply elem_of_cons in Hx as [->|Hx]; [|auto].
    destruct (likesb preferences taker y); congruence.
Qed.

Lemma first_liked_None (preferences : list (list bool)) (taker : nat)
    (own : list nat) :
  first_liked preferences taker own = None ->
  forall x, x ∈ own -> likesb preferences taker x = false.
Proof.
  unfold first_liked. intros Hnone x Hx.
  destruct (likesb preferences taker x) eqn:Hlx; [|reflexivity].
  assert (Hin : x ∈ filter (fun item => likesb preferences taker item = true) own).
  { apply list_elem_of_filter. auto. }
  destruct (filter _ own); [inversion Hin | discriminate].
Qed.

(** In an ascending list the first liked item is the least liked one. *)
Lemma first_liked_least (preferences : list (list bool)) (taker : nat)
    (own : list nat) (item : nat) :
  StronglySorted lt own ->
  first_liked preferences taker own = Some item ->
  item ∈ own /\ likes preferences taker item /\
  forall item', item' ∈ own -> item' < item -> ~ likes preferences taker item'.
Proof.
  intros Hsorted Hfind.
  destruct (first_liked_Some _ _ _ _ Hfind) as (l1 & l2 & -> & Hitem & Hl1).
  split; [apply elem_of_app; right; left|].
  split; [apply likesb_likes; exact Hitem|].
  intros item' Hin Hlt Hlikes. apply likesb_likes in Hlikes.
  apply elem_of_app in Hin as [Hin|Hin].
  - rewrite (Hl1 item' Hin) in Hlikes. discriminate.
  - apply StronglySorted_app_1_r, StronglySorted_cons in Hsorted as [Hall _].
    rewrite Forall_forall in Hall.
    apply elem_of_cons in Hin as [->|Hin]; [lia|].
    apply Hall in Hin. lia.
Qed.

Lemma omap_seq_all_Some {B : Type} (f : nat -> option B) (len : nat) :
  (forall k, k < len -> is_Some (f k)) ->
  length (omap f (seq 0 len)) = len /\
  forall k, k < len -> omap f (seq 0 len) !! k = f k.
Proof.
  induction len as [|len IH]; intros Hf.
  - split; [reflexivity|]. intros k Hk. lia.
  - destruct IH as [Hl Hlook]; [intros k Hk; apply Hf; lia|].
    rewrite seq_S, omap_app. simpl. destruct (Hf len) as [y Hy]; [lia|].
    rewrite Hy. split.
    + rewrite length_app. simpl. lia.
    + intros k Hk. destruct (decide (k = len)) as [->|Hne].
      * rewrite lookup_app_r by lia. rewrite Hl, Nat.sub_diag, Hy. reflexivity.
      * rewrite lookup_app_l by lia. apply Hlook. lia.
Qed.

Lemma walk_bound (n : nat) (g : list (list nat)) (s : nat) (p : list nat) :
  wf_graph n g -> walk g p -> head p = Some s -> s < n ->
  forall a, a ∈ p -> a < n.
Proof.
  intros [_ Hg] Hwalk Hhead Hs a Ha.
  apply list_elem_of_lookup in Ha as [k Hk]. destruct k as [|k].
  - rewrite <- head_lookup in Hk. congruence.
  - destruct (lookup_lt_is_Some_2 p k) as [b Hb].
    { apply lookup_lt_Some in Hk. lia. }
    destruct (Hwalk k b a Hb Hk) as (nbrs & Hnbrs & Hin).
    exact (Hg b nbrs a Hnbrs Hin).
Qed.

(** The envy graph of a well-formed instance is a well-formed graph. *)
Lemma envy_graph_wf (n m : nat) (preferences : list (list bool))
    (allocation : list nat) (edges g : list (list nat)) :
  wf_allocation n m allocation ->
  calculate_item_envy_relations n m preferences allocation = Ok edges ->
  shorten_envy_list n edges = Ok g ->
  wf_graph n g.
Proof.
  intros [_ Hbound] Hcalc Hshort.
  destruct (envy_graph_spec n m preferences allocation edges g Hcalc Hshort)
    as [Hlen Hrows].
  split; [exact Hlen|]. intros a nbrs b Hnbrs Hb.
  destruct (Hrows a nbrs Hnbrs) as (_ & _ & Hmem).
  apply Hmem in Hb as (_ & item & _ & _ & Hal).
  exact (Hbound item b Hal).
Qed.

Lemma solve_APSP_total (n : nat) (g : list (list nat)) :
  wf_graph n g -> exists apsp, solve_APSP n g = Ok apsp.
Proof.
  intros Hg. unfold solve_APSP. apply mapM_total.
  intros s Hs. apply elem_of_seq in Hs. apply bfs_total; [exact Hg | lia].
Qed.

(** Every stored path of the table is a walk of the graph from its row's
    agent to its column's agent. *)
Lemma solve_APSP_spec (n : nat) (g : list (list nat))
    (apsp : list (list (list nat))) :
  solve_APSP n g = Ok apsp ->
  length apsp = n /\
  forall s row, apsp !! s = Some row ->
    s < n /\ length row = n /\ row !! s = Some [] /\
    forall t p, row !! t = Some p -> p <> [] ->
      t <> s /\ head p = Some s /\ last p = Some t /\ walk g p.
Proof.
  intros Hrun. unfold solve_APSP in Hrun.
  apply mapM_seq_lookup in Hrun as [Hlen Hrows].
  split; [exact Hlen|]. intros s row Hrow.
  exact (bfs_spec n g s row (Hrows s row Hrow)).
Qed.

(** Along a walk of the envy graph every hop has an item to move: the
    inner loop of [pick_items] leaves by [break], at the least item of the
    giver that the taker likes. *)
Lemma pick_items_walk (n m : nat) (preferences : list (list bool))
    (allocation : list nat) (edges g possessions : list (list nat))
    (p : list nat) (s : nat) :
  wf_preferences n m preferences ->
  wf_allocation n m allocation ->
  calculate_item_envy_relations n m preferences allocation = Ok edges ->
  shorten_envy_list n edges = Ok g ->
  find_possession n allocation = Ok possessions ->
  walk g p -> head p = Some s -> s < n ->
  exists items,
    pick_items p allocation possessions preferences = Ok items /\
    length items = length p - 1 /\
    forall k taker giver, p !! k = Some taker -> p !! (k + 1) = Some giver ->
      exists item own, items !! k = Some item /\
        possessions !! giver = Some own /\
        pick_item preferences p k own = Ok (Some item) /\
        allocation !! item = Some giver /\ likes preferences taker item /\
        forall item', item' < item -> allocation !! item' = Some giver ->
          ~ likes preferences taker item'.
Proof.
  intros Hp Ha Hcalc Hshort Hposs Hwalk Hhead Hs.
  pose proof (envy_graph_wf n m preferences allocation edges g Ha Hcalc Hshort) as Hg.
  destruct (envy_graph_spec n m preferences allocation edges g Hcalc Hshort)
    as [_ Hrows].
  destruct (find_possession_spec n allocation possessions Hposs)
    as (Hlposs & _ & Hown).
  pose proof (walk_bound n g s p Hg Hwalk Hhead Hs) as Hbound.
  assert (Hitems : forall a own item,
    possessions !! a = Some own -> item ∈ own -> item < m).
  { intros a own item Hao Hin. apply (Hown a own Hao) in Hin.
    apply lookup_lt_Some in Hin. rewrite (proj1 Ha) in Hin. exact Hin. }
  rewrite (pick_items_spec n m preferences p allocation possessions
             Hp Hlposs Hitems Hbound).
  eexists. split; [reflexivity|].
  assert (Hhop : forall k taker giver,
    p !! k = Some taker -> p !! (k + 1) = Some giver ->
    exists item own, hop_pick preferences possessions p k = Some item /\
      possessions !! giver = Some own /\
      pick_item preferences p k own = Ok (Some item) /\
      allocation !! item = Some giver /\ likes preferences taker item /\
      forall item', item' < item -> allocation !! item' = Some giver ->
        ~ likes preferences taker item').
  { intros k taker giver Htaker Hgiver.
    rewrite Nat.add_1_r in Hgiver.
    destruct (Hwalk k taker giver Htaker Hgiver) as (nbrs & Hnbrs & Hin).
    destruct (Hrows taker nbrs Hnbrs) as (_ & _ & Hmem).
    apply Hmem in Hin as (_ & item0 & _ & Hlikes0 & Hal0).
    destruct (lookup_lt_is_Some_2 possessions giver) as [own Ho].
    { rewrite Hlposs. exact (proj2 Ha item0 giver Hal0). }
    destruct (Hown giver own Ho) as [Hsorted Hmemo].
    assert (Hpick : pick_item preferences p k own =
                    Ok (first_liked preferences taker own)).
    { apply (pick_item_spec n m); [exact Hp | exact Htaker | |].
      - apply Hbound. apply list_elem_of_lookup. eauto.
      - intros item Hin. exact (Hitems giver own item Ho Hin). }
    unfold hop_pick. rewrite Htaker, Nat.add_1_r, Hgiver, Ho.
    destruct (first_liked preferences taker own) as [item|] eqn:Hfind.
    - destruct (first_liked_least _ _ _ _ Hsorted Hfind) as (Hio & Hli & Hleast).
      exists item, own. split; [reflexivity|]. split; [reflexivity|].
      split; [exact Hpick|]. split; [apply Hmemo; exact Hio|].
      split; [exact Hli|]. intros item' Hlt Hal'. apply Hleast; [|exact Hlt].
      apply Hmemo. exact Hal'.
    - pose proof (first_liked_None _ _ _ Hfind item0 (proj2 (Hmemo item0) Hal0)) as Hno.
      apply likesb_likes in Hlikes0. congruence. }
  destruct (omap_seq_all_Some (hop_pick preferences possessions p) (length p - 1))
    as [Hlen Hlook].
  { intros k Hk.
    destruct (lookup_lt_is_Some_2 p k) as [taker Htaker]; [lia|].
    destruct (lookup_lt_is_Some_2 p (k + 1)) as [giver Hgiver]; [lia|].
    destruct (Hhop k taker giver Htaker Hgiver) as (item & own & -> & _). eauto. }
  split; [exact Hlen|]. intros k taker giver Htaker Hgiver.
  destruct (Hhop k taker giver Htaker Hgiver) as (item & own & Hitem & Hrest).
  exists item, own. split; [|exact Hrest].
  rewrite Hlook; [exact Hitem|]. apply lookup_lt_Some in Hgiver. lia.
Qed.

(** ** Reallocation *)

Lemma execute_swap_spec (allocation swapping_list best_path allocation' : list nat) :
  execute_swap allocation swapping_list best_path = Ok allocation' ->
  length allocation' = length allocation /\
  (forall item a, allocation' !! item = Some a ->
     allocation !! item = Some a \/ a ∈ best_path) /\
  (forall item, item ∉ swapping_list -> allocation' !! item = allocation !! item) /\
  (NoDup swapping_list -> forall k item, swapping_list !! k = Some item ->
     allocation' !! item = best_path !! k).
Proof.
  intros Hrun. unfold execute_swap in Hrun.
  pose (P := fun (k : nat) (al : list nat) =>
    length al = length allocation /\
    (forall item a, al !! item = Some a ->
       allocation !! item = Some a \/ a ∈ best_path) /\
    (forall item, (forall j, j < k -> swapping_list !! j <> Some item) ->
       al !! item = allocation !! item) /\
    (NoDup swapping_list -> forall j item, j < k -> swapping_list !! j = Some item ->
       al !! item = best_path !! j)).
  assert (HP : P (length swapping_list) allocation').
  { refine (foldM_seq_invariant P _ _ _ _ _ _ Hrun).
    - split; [reflexivity|]. split; [auto|]. split; [auto|]. intros _ j item Hj. lia.
    - intros i al al' Hi (Hl & Hfrom & Hkeep & Hput) Hstep.
      apply bind_Ok in Hstep as (agent & Hagent & Hstep). apply get_Ok in Hagent.
      apply bind_Ok in Hstep as (swapped & Hswapped & Hstep). apply get_Ok in Hswapped.
      apply set_Ok in Hstep as [Hlt ->].
      split; [rewrite length_insert; exact Hl|]. split; [|split].
      + intros item a Ha. destruct (decide (item = swapped)) as [->|Hne].
        * rewrite list_lookup_insert_eq in Ha by exact Hlt. injection Ha as <-.
          right. apply list_elem_of_lookup. eauto.
        * rewrite list_lookup_insert_ne in Ha by auto. auto.
      + intros item Hnot. assert (item <> swapped).
        { intros ->. apply (Hnot i); [lia | exact Hswapped]. }
        rewrite list_lookup_insert_ne by auto. apply Hkeep.
        intros j Hj. apply Hnot. lia.
      + intros Hnodup j item Hj Hitem. destruct (decide (j = i)) as [->|Hji].
        * assert (item = swapped) as -> by congruence.
          rewrite list_lookup_insert_eq by exact Hlt. auto.
        * assert (item <> swapped).
          { intros ->. apply Hji.
            exact (NoDup_lookup _ _ _ _ Hnodup Hitem Hswapped). }
          rewrite list_lookup_insert_ne by auto. apply Hput; [exact Hnodup|lia|exact Hitem]. }
  destruct HP as (Hl & Hfrom & Hkeep & Hput).
  split; [exact Hl|]. split; [exact Hfrom|]. split.
  - intros item Hnot. apply Hkeep. intros j _ Hj. apply Hnot.
    apply list_elem_of_lookup. eauto.
  - intros Hnodup k item Hitem. apply (Hput Hnodup); [|exact Hitem].
    apply lookup_lt_Some in Hitem. exact Hitem.
Qed.

Lemma execute_swap_total (allocation swapping_list best_path : list nat) :
  (forall item, item ∈ swapping_list -> item < length allocation) ->
  length swapping_list <= length best_path ->
  exists allocation', execute_swap allocation swapping_list best_path = Ok allocation'.
Proof.
  intros Hitems Hlen. unfold execute_swap.
  match goal with
  | |- context [foldM ?f ?b (seq 0 ?k)] =>
      destruct (foldM_seq_total (fun _ al => length al = length allocation) f k b)
        as (r & Hr & _); [reflexivity| |eauto]
  end.
  intros i al Hi Hl.
  destruct (get_lt best_path i) as (agent & -> & _); [lia|]. simpl.
  destruct (get_lt swapping_list i) as (swapped & -> & Hswapped); [exact Hi|]. simpl.
  rewrite set_lt.
  - eexists. split; [reflexivity|]. rewrite length_insert. exact Hl.
  - rewrite Hl. apply Hitems. apply list_elem_of_lookup. eauto.
Qed.

(** A swap along agents of the instance, of items of the instance, leaves
    an allocation of the instance. *)
Lemma execute_swap_wf (n m : nat) (allocation swapping_list best_path : list nat) :
  wf_allocation n m allocation ->
  (forall a, a ∈ best_path -> a < n) ->
  (forall item, item ∈ swapping_list -> item < m) ->
  length swapping_list <= length best_path ->
  exists allocation',
    execute_swap allocation swapping_list best_path = Ok allocation' /\
    wf_allocation n m allocation'.
Proof.
  intros [Hlen Hbound] Hpath Hitems Hle.
  destruct (execute_swap_total allocation swapping_list best_path)
    as [allocation' Hrun]; [rewrite Hlen; exact Hitems | exact Hle |].
  exists allocation'. split; [exact Hrun|].
  destruct (execute_swap_spec _ _ _ _ Hrun) as (Hl & Hfrom & _).
  split; [lia|]. intros item a Ha.
  destruct (Hfrom item a Ha) as [Hold|Hin]; [exact (Hbound item a Hold) | auto].
Qed.

Lemma omap_length_le {A B : Type} (f : A -> option B) (l : list A) :
  length (omap f l) <= length l.
Proof.
  induction l as [|x l IH]; simpl; [lia|].
  change (list_omap A B f l) with (omap f l).
  destruct (f x); simpl; lia.
Qed.

Lemma hop_pick_owned (preferences : list (list bool)) (allocation : list nat)
    (n : nat) (possessions : list (list nat)) (path : list nat) (k item : nat) :
  find_possession n allocation = Ok possessions ->
  hop_pick preferences possessions path k = Some item ->
  exists taker giver, path !! k = Some taker /\ path !! (k + 1) = Some giver /\
    allocation !! item = Some giver /\ likes preferences taker item.
Proof.
  intros Hposs Hhop. unfold hop_pick in Hhop.
  destruct (path !! k) as [taker|]; [|discriminate].
  destruct (path !! (k + 1)) as [giver|]; [|discriminate].
  destruct (possessions !! giver) as [own|] eqn:Hown; [|discriminate].
  destruct (find_possession_spec n allocation possessions Hposs) as (_ & _ & Hspec).
  destruct (Hspec giver own Hown) as [Hsorted Hmem].
  destruct (first_liked_least _ _ _ _ Hsorted Hhop) as (Hin & Hlikes & _).
  exists taker, giver. repeat split; [apply Hmem; exact Hin | exact Hlikes].
Qed.

(** ** Welfare of a hypothetical transfer *)

Lemma foldM_concat {A B : Type} (f : B -> A -> res B) (b : B) (ll : list (list A)) :
  foldM (fun st l => foldM f st l) b ll = foldM f b (concat ll).
Proof.
  revert b. induction ll as [|l ll IH]; intros b; simpl; [reflexivity|].
  rewrite foldM_app. destruct (foldM f b l); simpl; [apply IH | reflexivity].
Qed.

Lemma calculate_agent_valuations_spec (n m : nat) (allocation : list nat)
    (agent_values : list Z) :
  calculate_agent_valuations n m allocation = Ok agent_values ->
  length agent_values = n /\
  forall a, a < n ->
    agent_values !! a = Some (Z.of_nat (count_owned allocation m a)).
Proof.
  intros Hrun. unfold calculate_agent_valuations in Hrun.
  refine (foldM_seq_invariant (fun k av => length av = n /\
    forall a, a < n -> av !! a = Some (Z.of_nat (count_owned allocation k a)))
    _ _ _ _ _ _ Hrun).
  - split; [apply length_replicate|]. intros a Ha.
    apply lookup_replicate. auto.
  - intros i av av' Hi [Hl Hcount] Hstep.
    apply bind_Ok in Hstep as (owner & Howner & Hstep). apply get_Ok in Howner.
    apply bind_Ok in Hstep as (v & Hv & Hstep). apply get_Ok in Hv.
    apply set_Ok in Hstep as [Hlt ->].
    split; [rewrite length_insert; exact Hl|]. intros a Ha.
    unfold count_owned. rewrite seq_S, filter_app, length_app. simpl.
    rewrite filter_cons, filter_nil.
    destruct (decide (a = owner)) as [->|Hne].
    + rewrite list_lookup_insert_eq by exact Hlt.
      rewrite decide_True by exact Howner.
      rewrite (Hcount owner Ha) in Hv. injection Hv as <-.
      f_equal. unfold count_owned. simpl. lia.
    + rewrite list_lookup_insert_ne by auto.
      rewrite decide_False by congruence.
      rewrite (Hcount a Ha). unfold count_owned. simpl.
      f_equal. lia.
Qed.

Lemma calculate_agent_valuations_total (n m : nat) (allocation : list nat) :
  wf_allocation n m allocation ->
  exists agent_values, calculate_agent_valuations n m allocation = Ok agent_values.
Proof.
  intros [Hlen Hbound]. unfold calculate_agent_valuations.
  match goal with
  | |- context [foldM ?f ?b (seq 0 ?k)] =>
      destruct (foldM_seq_total (fun _ av => length av = n) f k b)
        as (r & Hr & _); [apply length_replicate| |eauto]
  end.
  intros i av Hi Hl.
  destruct (get_lt allocation i) as (owner & -> & Howner); [lia|]. simpl.
  apply Hbound in Howner.
  destruct (get_lt av owner) as (v & -> & _); [lia|]. simpl.
  rewrite set_lt by lia. eexists. split; [reflexivity|].
  rewrite length_insert. exact Hl.
Qed.

Lemma hypothetical_counts_lookup (agent_values : list Z) (receiver giver i : nat)
    (c : Z) :
  agent_values !! i = Some c ->
  hypothetical_counts agent_values receiver giver !! i =
    Some (c + (if decide (i = receiver) then 1 else 0)
            - (if decide (i = giver) then 1 else 0))%Z.
Proof.
  intros Hc. unfold hypothetical_counts.
  destruct (decide (i = giver)) as [Hg|Hg];
    destruct (decide (i = receiver)) as [Hr|Hr];
    try rewrite <- Hg; try rewrite <- Hr.
  - rewrite list_lookup_alter_eq, list_lookup_alter_eq, Hc. simpl. f_equal.
  - rewrite list_lookup_alter_eq, list_lookup_alter_ne, Hc by auto.
    simpl. f_equal. lia.
  - rewrite list_lookup_alter_ne, list_lookup_alter_eq, Hc by auto.
    simpl. f_equal. lia.
  - rewrite !list_lookup_alter_ne, Hc by auto. f_equal. lia.
Qed.

Lemma fast_nsw_spec `{PyNum} (n m : nat) (path allocation : list nat)
    (agent_values : list Z) (receiver giver : nat) :
  calculate_agent_valuations n m allocation = Ok agent_values ->
  head path = Some receiver -> last path = Some giver ->
  receiver < n -> giver < n ->
  fast_nsw n m path allocation =
    split_nsw n (hypothetical_counts agent_values receiver giver).
Proof.
  intros Hcalc Hhead Hlast Hr Hg. unfold fast_nsw. rewrite Hcalc. simpl.
  destruct (calculate_agent_valuations_spec n m allocation agent_values Hcalc)
    as [Hlen _].
  rewrite head_lookup in Hhead. rewrite (proj2 (get_Ok _ _ _) Hhead). simpl.
  destruct (get_lt agent_values receiver) as (v & -> & Hv); [lia|]. simpl.
  rewrite set_lt by lia. simpl.
  rewrite last_lookup in Hlast.
  replace (length path - 1) with (pred (length path)) by lia.
  rewrite (proj2 (get_Ok _ _ _) Hlast). simpl.
  destruct (get_lt (<[receiver := (v + 1)%Z]> agent_values) giver)
    as (w & -> & Hw); [rewrite length_insert; lia|]. simpl.
  rewrite set_lt by (rewrite length_insert; lia). simpl.
  f_equal. unfold hypothetical_counts.
  apply list_eq. intros i.
  destruct (decide (i = giver)) as [->|Hne].
  - rewrite list_lookup_insert_eq by (rewrite length_insert; lia).
    rewrite list_lookup_alter_eq.
    destruct (decide (giver = receiver)) as [->|Hne'].
    + rewrite list_lookup_insert_eq in Hw by lia. injection Hw as <-.
      rewrite list_lookup_alter_eq, Hv. reflexivity.
    + rewrite list_lookup_insert_ne in Hw by auto.
      rewrite list_lookup_alter_ne, Hw by auto. reflexivity.
  - rewrite list_lookup_insert_ne by auto. rewrite list_lookup_alter_ne by auto.
    destruct (decide (i = receiver)) as [->|Hne'].
    + rewrite list_lookup_insert_eq by lia. rewrite list_lookup_alter_eq, Hv.
      reflexivity.
    + rewrite list_lookup_insert_ne by auto. rewrite list_lookup_alter_ne by auto.
      reflexivity.
Qed.

(** ** Augmenting path selector *)

Section Selector.

Context `{PyNum}.
Variable n m : nat.
Variable allocation : list nat.

Lemma find_path_step_inv (pre : list (list nat)) (path best_path best_path' : list nat)
    (current_maximum current_maximum' : num) :
  scan_inv n m allocation pre best_path current_maximum ->
  find_path_step n m allocation (best_path, current_maximum) path =
    Ok (best_path', current_maximum') ->
  scan_inv n m allocation (pre ++ [path]) best_path' current_maximum'.
Proof.
  intros [Hmax Hbest] Hstep. unfold find_path_step in Hstep.
  assert (Hkeep : scan_inv n m allocation pre best_path current_maximum ->
    (path <> [] -> forall w, fast_nsw n m path allocation = Ok w ->
       num_gt w current_maximum <> Ok true) ->
    scan_inv n m allocation (pre ++ [path]) best_path current_maximum).
  { intros [Hmax' Hbest'] Hpath. split.
    - intros q w Hq Hne Hw. apply elem_of_app in Hq as [Hq|Hq].
      + exact (Hmax' q w Hq Hne Hw).
      + apply list_elem_of_singleton in Hq as ->. exact (Hpath Hne w Hw).
    - destruct Hbest' as [Hempty|(k & Hk & Hne & Hw & Hfirst)]; [left; exact Hempty|].
      right. exists k. apply lookup_lt_Some in Hk as Hlt.
      split; [rewrite lookup_app_l by exact Hlt; exact Hk|].
      split; [exact Hne|]. split; [exact Hw|].
      intros j q Hj Hq. rewrite lookup_app_l in Hq by lia. exact (Hfirst j q Hj Hq). }
  destruct path as [|a path'].
  { injection Hstep as <- <-. apply Hkeep; [split; assumption|].
    intros Hne. contradiction. }
  apply bind_Ok in Hstep as (w & Hw & Hstep).
  apply bind_Ok in Hstep as (better & Hbetter & Hstep).
  destruct better; injection Hstep as <- <-.
  - split.
    + intros q w' Hq Hne Hw' Hgt. apply elem_of_app in Hq as [Hq|Hq].
      * apply (Hmax q w' Hq Hne Hw'). exact (num_gt_trans _ _ _ Hgt Hbetter).
      * apply list_elem_of_singleton in Hq as ->.
        assert (w' = w) as -> by congruence.
        exact (num_gt_irrefl w Hgt).
    + right. exists (length pre).
      split; [rewrite lookup_app_r, Nat.sub_diag by lia; reflexivity|].
      split; [discriminate|]. split; [exact Hw|].
      intros j q Hj Hq Hne Hqw. rewrite lookup_app_l in Hq by exact Hj.
      apply (Hmax q w); [|exact Hne|exact Hqw|exact Hbetter].
      apply list_elem_of_lookup. eauto.
  - apply Hkeep; [split; assumption|].
    intros _ w' Hw'. assert (w' = w) as -> by congruence. congruence.
Qed.

Lemma find_path_scan (suf pre : list (list nat)) (best_path best_path' : list nat)
    (current_maximum current_maximum' : num) :
  scan_inv n m allocation pre best_path current_maximum ->
  foldM (find_path_step n m allocation) (best_path, current_maximum) suf =
    Ok (best_path', current_maximum') ->
  scan_inv n m allocation (pre ++ suf) best_path' current_maximum'.
Proof.
  revert pre best_path current_maximum.
  induction suf as [|path suf IH]; intros pre bp cm Hinv Hrun; simpl in Hrun.
  - injection Hrun as <- <-. rewrite app_nil_r. exact Hinv.
  - apply bind_Ok in Hrun as ([bp1 cm1] & Hstep & Hrun).
    rewrite (cons_middle path pre suf), app_assoc.
    apply (IH _ bp1 cm1); [|exact Hrun].
    exact (find_path_step_inv pre path bp bp1 cm cm1 Hinv Hstep).
Qed.

(** A path that [find_path] returns stands in the table, rates above the
    present welfare, is rated by no path of the table above it, and is the
    first in the order of the loops with its rating. *)
Lemma find_path_spec (apsp_matrix : list (list (list nat))) (best_path : list nat) :
  find_path n m apsp_matrix allocation = Ok best_path ->
  best_path <> [] ->
  exists agent_values current_nsw k w,
    calculate_agent_valuations n m allocation = Ok agent_values /\
    split_nsw n agent_values = Ok current_nsw /\
    concat apsp_matrix !! k = Some best_path /\
    fast_nsw n m best_path allocation = Ok w /\
    num_gt w current_nsw = Ok true /\
    (forall q w', q ∈ concat apsp_matrix -> q <> [] ->
       fast_nsw n m q allocation = Ok w' -> num_gt w' w <> Ok true) /\
    (forall j q, j < k -> concat apsp_matrix !! j = Some q -> q <> [] ->
       fast_nsw n m q allocation <> Ok w).
Proof.
  intros Hrun Hne. unfold find_path in Hrun.
  apply bind_Ok in Hrun as (agent_values & Hvals & Hrun).
  apply bind_Ok in Hrun as (current_nsw & Hnsw & Hrun).
  apply bind_Ok in Hrun as ([bp cm] & Hscan & Hrun).
  apply bind_Ok in Hrun as (improves & Himproves & Hrun).
  rewrite foldM_concat in Hscan.
  apply (find_path_scan _ []) in Hscan.
  2:{ split; [intros q w Hq; inversion Hq | left; auto]. }
  simpl in Hscan. destruct Hscan as [Hmax Hbest].
  destruct improves; injection Hrun as <-; [|contradiction].
  destruct Hbest as [[-> _]|(k & Hk & _ & Hw & Hfirst)]; [contradiction|].
  exists agent_values, current_nsw, k, cm. auto 10.
Qed.

(** Once [(p, w)] is the best path and its rating, paths that do not rate
    above [w] leave it in place. *)
Lemma find_path_scan_keep (suf : list (list nat)) (p : list nat) (w : num)
    (st : list nat * num) :
  (forall q w', q ∈ suf -> q <> [] -> fast_nsw n m q allocation = Ok w' ->
     num_gt w' w <> Ok true) ->
  foldM (find_path_step n m allocation) (p, w) suf = Ok st ->
  st = (p, w).
Proof.
  induction suf as [|q suf IH]; intros Hsuf Hrun; simpl in Hrun.
  - injection Hrun as <-. reflexivity.
  - apply bind_Ok in Hrun as (st1 & Hstep & Hrun).
    assert (st1 = (p, w)) as ->.
    { unfold find_path_step in Hstep. destruct q as [|a q'].
      - injection Hstep as <-. reflexivity.
      - apply bind_Ok in Hstep as (w' & Hw' & Hstep).
        apply bind_Ok in Hstep as (better & Hbetter & Hstep).
        destruct better; [|injection Hstep as <-; reflexivity].
        exfalso. apply (Hsuf (a :: q') w'); [left | discriminate | exact Hw' | exact Hbetter]. }
    apply IH; [|exact Hrun].
    intros q0 w' Hq0. apply Hsuf. right. exact Hq0.
Qed.

(** The path that [find_path] returns when a path of the table rates above
    the present welfare: let [p], the [k]-th path in the order of the
    loops, rate above the initial maximum [0], above every path before it
    and above the present welfare, and let no path after it rate above it.
    Then [p] is returned. *)
Lemma find_path_first (apsp_matrix : list (list (list nat))) (k : nat)
    (p best_path : list nat) (agent_values : list Z) (current_nsw w : num) :
  find_path n m apsp_matrix allocation = Ok best_path ->
  calculate_agent_valuations n m allocation = Ok agent_values ->
  split_nsw n agent_values = Ok current_nsw ->
  concat apsp_matrix !! k = Some p -> p <> [] ->
  fast_nsw n m p allocation = Ok w ->
  num_gt w current_nsw = Ok true ->
  num_gt w (num_of_int 0) = Ok true ->
  (forall j q w', j < k -> concat apsp_matrix !! j = Some q -> q <> [] ->
     fast_nsw n m q allocation = Ok w' -> num_gt w w' = Ok true) ->
  (forall j q w', k < j -> concat apsp_matrix !! j = Some q -> q <> [] ->
     fast_nsw n m q allocation = Ok w' -> num_gt w' w <> Ok true) ->
  best_path = p.
Proof.
  intros Hrun Hvals Hnsw Hk Hne Hw Hbase Hzero Hbefore Hafter.
  unfold find_path in Hrun. rewrite Hvals in Hrun. cbn [bind] in Hrun.
  rewrite Hnsw in Hrun. cbn [bind] in Hrun.
  apply bind_Ok in Hrun as ([bp cm] & Hscan & Hrun).
  rewrite foldM_concat in Hscan.
  rewrite <- (take_drop_middle (concat apsp_matrix) k p Hk) in Hscan.
  rewrite foldM_app in Hscan.
  apply bind_Ok in Hscan as ([bp1 cm1] & Hpre & Hscan).
  cbn [foldM] in Hscan.
  apply bind_Ok in Hscan as (st1 & Hstep & Hsuf).
  (* the paths before [p] *)
  apply (find_path_scan _ []) in Hpre.
  2:{ split; [intros q w' Hq; inversion Hq | left; auto]. }
  simpl in Hpre. destruct Hpre as [_ Hbest].
  assert (Hgt : num_gt w cm1 = Ok true).
  { destruct Hbest as [[_ ->]|(k1 & Hk1 & Hne1 & Hw1 & _)]; [exact Hzero|].
    apply lookup_take_Some in Hk1 as [Hk1 Hlt].
    exact (Hbefore k1 bp1 cm1 Hlt Hk1 Hne1 Hw1). }
  (* the path [p] *)
  assert (st1 = (p, w)) as ->.
  { unfold find_path_step in Hstep. destruct p as [|a p']; [contradiction|].
    rewrite Hw in Hstep. cbn [bind] in Hstep.
    rewrite Hgt in Hstep. cbn [bind] in Hstep.
    injection Hstep as <-. reflexivity. }
  (* the paths after [p] *)
  apply find_path_scan_keep in Hsuf.
  2:{ intros q w' Hq Hneq Hw'. apply list_elem_of_lookup in Hq as [i Hi].
      rewrite lookup_drop in Hi.
      exact (Hafter (S k + i) q w' ltac:(lia) Hi Hneq Hw'). }
  injection Hsuf as -> ->.
  rewrite Hbase in Hrun. cbn [bind] in Hrun.
  injection Hrun as <-. reflexivity.
Qed.

End Selector.

(** ** Optimisation loop *)

Section Loop.

Context `{PyNum}.
Variable n m : nat.

Lemma solve_loop_pass (runs run : nat) (preferences : list (list bool))
    (allocation : list nat) (swaps : list (list nat)) :
  solve_loop n m (S runs) run preferences allocation swaps =
    (best_path <- select n m preferences allocation;;
     match best_path with
     | [] => Ok (Outcome allocation swaps (run + 1) CONVERGED)
     | _ :: _ =>
         step <- reallocate n preferences allocation best_path;;
         solve_loop n m runs (run + 1) preferences (fst step) (swaps ++ [snd step])
     end).
Proof.
  simpl. unfold select, reallocate.
  destruct (calculate_item_envy_relations n m preferences allocation); [|reflexivity].
  simpl. destruct (shorten_envy_list n a); [|reflexivity].
  simpl. destruct (solve_APSP n a0); [|reflexivity].
  simpl. destruct (find_path n m a1 allocation) as [[|b best_path]|]; try reflexivity.
  simpl. destruct (find_possession n allocation); [|reflexivity].
  simpl. destruct (pick_items (b :: best_path) allocation a2 preferences); [|reflexivity].
  simpl. destruct (execute_swap allocation a3 (b :: best_path)); reflexivity.
Qed.

(** The loop makes at most [runs] passes; it leaves by [return] in a pass
    that selects no path, and otherwise after exactly [runs] passes, with
    the allocation and the swaps it has then. *)
Lemma solve_loop_bound (runs run : nat) (preferences : list (list bool))
    (allocation : list nat) (swaps : list (list nat)) (out : outcome) :
  solve_loop n m runs run preferences allocation swaps = Ok out ->
  run <= iterations out <= run + runs /\
  match reason out with
  | BUDGET_EXHAUSTED =>
      iterations out = run + runs /\
      length (global_swapping_list out) = length swaps + runs
  | CONVERGED =>
      run < iterations out /\
      length (global_swapping_list out) + run + 1 = length swaps + iterations out /\
      select n m preferences (final_allocation out) = Ok []
  end.
Proof.
  revert run allocation swaps.
  induction runs as [|runs IH]; intros run allocation swaps Hrun.
  - simpl in Hrun. injection Hrun as <-. simpl. lia.
  - rewrite solve_loop_pass in Hrun.
    apply bind_Ok in Hrun as (best_path & Hselect & Hrun).
    destruct best_path as [|b best_path].
    + injection Hrun as <-. simpl. split; [lia|]. split; [lia|].
      split; [lia | exact Hselect].
    + apply bind_Ok in Hrun as ([allocation' plan] & _ & Hrun). simpl in Hrun.
      apply IH in Hrun as [Hiter Hreason]. split; [lia|].
      rewrite length_app in Hreason. simpl in Hreason.
      destruct (reason out); [|lia].
      destruct Hreason as (Hlt & Hlen & Hsel). split; [lia|]. split; [lia | exact Hsel].
Qed.

(** A second run from the allocation of a converged run stops in its
    first pass. *)
Lemma solve_loop_again (runs : nat) (preferences : list (list bool))
    (allocation : list nat) (out : outcome) :
  solve_loop n m runs 0 preferences allocation [] = Ok out ->
  reason out = CONVERGED ->
  solve_loop n m runs 0 preferences (final_allocation out) [] =
    Ok (Outcome (final_allocation out) [] 1 CONVERGED).
Proof.
  intros Hrun Hreason.
  apply solve_loop_bound in Hrun as [Hiter Hout]. rewrite Hreason in Hout.
  destruct Hout as (Hlt & _ & Hselect).
  destruct runs as [|runs]; [lia|].
  rewrite solve_loop_pass, Hselect. reflexivity.
Qed.

End Loop.

Lemma elem_of_concat {A : Type} (x : A) (ll : list (list A)) :
  x ∈ concat ll <-> exists l, x ∈ l /\ l ∈ ll.
Proof.
  rewrite list_elem_of_In, in_concat. split.
  - intros (l & Hl & Hx). exists l. rewrite !list_elem_of_In. auto.
  - intros (l & Hx & Hl). exists l. rewrite <- !list_elem_of_In. auto.
Qed.

Section LoopSafety.

Context `{PyNum}.
Variable n m : nat.
Variable preferences : list (list bool).
Variable allocation : list nat.
Hypothesis Hpreferences : wf_preferences n m preferences.
Hypothesis Hallocation : wf_allocation n m allocation.

(** A selected path is a walk of the present envy graph. *)
Lemma select_walk (best_path : list nat) :
  select n m preferences allocation = Ok best_path -> best_path <> [] ->
  exists edges g s,
    calculate_item_envy_relations n m preferences allocation = Ok edges /\
    shorten_envy_list n edges = Ok g /\
    s < n /\ head best_path = Some s /\ walk g best_path.
Proof.
  intros Hselect Hne. unfold select in Hselect.
  apply bind_Ok in Hselect as (edges & Hedges & Hselect).
  apply bind_Ok in Hselect as (g & Hg & Hselect).
  apply bind_Ok in Hselect as (apsp & Hapsp & Hfind).
  destruct (find_path_spec n m allocation apsp best_path Hfind Hne)
    as (_ & _ & k & _ & _ & _ & Hk & _).
  assert (Hin : best_path ∈ concat apsp) by (apply list_elem_of_lookup; eauto).
  apply elem_of_concat in Hin as (row & Hin & Hrow).
  apply list_elem_of_lookup in Hrow as [s Hs].
  apply list_elem_of_lookup in Hin as [t Ht].
  destruct (solve_APSP_spec n g apsp Hapsp) as [_ Hrows].
  destruct (Hrows s row Hs) as (Hlt & _ & _ & Hpaths).
  destruct (Hpaths t best_path Ht Hne) as (_ & Hhead & _ & Hwalk).
  exists edges, g, s. auto.
Qed.

(** The pass that follows a selection raises nothing: it moves one item
    for every hop of the path, each from the giver of the hop and liked by
    its taker, and leaves an allocation of the instance. *)
Lemma reallocate_spec (best_path : list nat) :
  select n m preferences allocation = Ok best_path -> best_path <> [] ->
  exists allocation' swapping_plan,
    reallocate n preferences allocation best_path = Ok (allocation', swapping_plan) /\
    wf_allocation n m allocation' /\
    length swapping_plan = length best_path - 1 /\
    forall k taker giver,
      best_path !! k = Some taker -> best_path !! (k + 1) = Some giver ->
      exists item, swapping_plan !! k = Some item /\
        allocation !! item = Some giver /\ likes preferences taker item.
Proof.
  intros Hselect Hne.
  destruct (select_walk best_path Hselect Hne)
    as (edges & g & s & Hedges & Hg & Hs & Hhead & Hwalk).
  destruct (find_possession_total n m allocation Hallocation) as [possessions Hposs].
  destruct (pick_items_walk n m preferences allocation edges g possessions
              best_path s Hpreferences Hallocation Hedges Hg Hposs Hwalk Hhead Hs)
    as (items & Hitems & Hlen & Hhops).
  destruct (execute_swap_wf n m allocation items best_path Hallocation)
    as (allocation' & Hswap & Hwf).
  - apply (walk_bound n g s); [|exact Hwalk|exact Hhead|exact Hs].
    exact (envy_graph_wf n m preferences allocation edges g Hallocation Hedges Hg).
  - intros item Hin. apply list_elem_of_lookup in Hin as [k Hk].
    assert (Hklt : k < length best_path - 1).
    { apply lookup_lt_Some in Hk. lia. }
    destruct (lookup_lt_is_Some_2 best_path k) as [taker Htaker]; [lia|].
    destruct (lookup_lt_is_Some_2 best_path (k + 1)) as [giver Hgiver]; [lia|].
    destruct (Hhops k taker giver Htaker Hgiver)
      as (item' & own & Hitem' & _ & _ & Hal & _).
    assert (item' = item) as -> by congruence.
    apply lookup_lt_Some in Hal. rewrite (proj1 Hallocation) in Hal. exact Hal.
  - lia.
  - exists allocation', items. unfold reallocate.
    rewrite Hposs. simpl. rewrite Hitems. simpl. rewrite Hswap. simpl.
    split; [reflexivity|]. split; [exact Hwf|]. split; [exact Hlen|].
    intros k taker giver Htaker Hgiver.
    destruct (Hhops k taker giver Htaker Hgiver)
      as (item & own & Hitem & _ & _ & Hal & Hlikes & _).
    eauto.
Qed.

End LoopSafety.

(** ** No exception on a well-formed instance *)

Section Total.

Context `{PyNum}.
Variable n m : nat.
Hypothesis Hagents : 0 < n.
(** The float operations on what the program gives them: a root of a
    non-negative integer and a comparison of two floats raise nothing. *)
Hypothesis Hpow : forall p, (0 <= p)%Z ->
  exists y, int_pow p (int_truediv 1 (Z.of_nat n)) = Ok y.
Hypothesis Hgt : forall x y, exists b, num_gt x y = Ok b.

Lemma split_nsw_total (agent_values : list Z) :
  Forall (fun v => (0 <= v)%Z) agent_values ->
  exists w, split_nsw n agent_values = Ok w.
Proof.
  intros Hvals. unfold split_nsw.
  destruct (foldM_total (fun st : nat * Z * num => (0 <= snd (fst st))%Z)
              (split_nsw_step n) agent_values (0, 1%Z, num_of_int 1))
    as ([[counter product] rooted] & -> & Hprod).
  - simpl. lia.
  - intros [[counter product] rooted] v Hv Hprod. simpl in Hprod.
    rewrite Forall_forall in Hvals. specialize (Hvals v Hv).
    unfold split_nsw_step.
    destruct (decide ((counter + 1) mod 20 = 0)).
    + rewrite decide_False by lia.
      destruct (Hpow (product * v)%Z) as [y ->]; [lia|].
      simpl. eexists. split; [reflexivity|]. simpl. lia.
    + eexists. split; [reflexivity|]. simpl. lia.
  - simpl in *. rewrite decide_False by lia.
    destruct (Hpow product) as [y ->]; [exact Hprod|].
    simpl. eauto.
Qed.

Variable preferences : list (list bool).
Variable allocation : list nat.
Hypothesis Hpreferences : wf_preferences n m preferences.
Hypothesis Hallocation : wf_allocation n m allocation.

Lemma count_owned_pos (item a : nat) :
  item < m -> allocation !! item = Some a -> 0 < count_owned allocation m a.
Proof.
  intros Hitem Hal. unfold count_owned.
  assert (Hin : item ∈ filter (fun item => allocation !! item = Some a) (seq 0 m)).
  { apply list_elem_of_filter. split; [exact Hal|]. apply elem_of_seq. lia. }
  destruct (filter _ (seq 0 m)); [inversion Hin | simpl; lia].
Qed.

(** The rating of a walk of the envy graph is computed: its giver holds an
    item, so that no count becomes negative. *)
Lemma fast_nsw_total (edges g : list (list nat)) (p : list nat) (s t : nat) :
  calculate_item_envy_relations n m preferences allocation = Ok edges ->
  shorten_envy_list n edges = Ok g ->
  walk g p -> head p = Some s -> last p = Some t -> s < n -> t <> s ->
  exists w, fast_nsw n m p allocation = Ok w.
Proof.
  intros Hedges Hg Hwalk Hhead Hlast Hs Hts.
  destruct (calculate_agent_valuations_total n m allocation Hallocation)
    as [agent_values Hvals].
  destruct (calculate_agent_valuations_spec n m allocation agent_values Hvals)
    as [Hlen Hcount].
  pose proof (envy_graph_wf n m preferences allocation edges g Hallocation Hedges Hg)
    as Hwf.
  assert (Ht : t < n).
  { apply (walk_bound n g s p Hwf Hwalk Hhead Hs).
    rewrite last_lookup in Hlast. apply list_elem_of_lookup. eauto. }
  assert (Hgiver : 0 < count_owned allocation m t).
  { rewrite last_lookup in Hlast. rewrite head_lookup in Hhead.
    destruct (length p) as [|[|len]] eqn:Hl; simpl in Hlast.
    - apply lookup_lt_Some in Hhead. lia.
    - congruence.
    - destruct (lookup_lt_is_Some_2 p len) as [a Ha]; [lia|].
      destruct (Hwalk len a t Ha Hlast) as (nbrs & Hnbrs & Hin).
      destruct (envy_graph_spec n m preferences allocation edges g Hedges Hg)
        as [_ Hrows].
      destruct (Hrows a nbrs Hnbrs) as (_ & _ & Hmem).
      apply Hmem in Hin as (_ & item & Hitem & _ & Hal).
      exact (count_owned_pos item t Hitem Hal). }
  rewrite (fast_nsw_spec n m p allocation agent_values s t Hvals Hhead Hlast Hs Ht).
  apply split_nsw_total. apply Forall_lookup. intros i v Hv.
  destruct (lookup_lt_is_Some_2 agent_values i) as [c Hc].
  { apply lookup_lt_Some in Hv. unfold hypothetical_counts in Hv.
    rewrite !length_alter in Hv. exact Hv. }
  rewrite (hypothetical_counts_lookup agent_values s t i c Hc) in Hv.
  injection Hv as <-.
  assert (Hi : i < n) by (apply lookup_lt_Some in Hc; lia).
  rewrite (Hcount i Hi) in Hc. injection Hc as <-.
  destruct (decide (i = s)), (decide (i = t)); subst; lia.
Qed.

(** The selection of a pass is computed. *)
Lemma select_total :
  exists best_path, select n m preferences allocation = Ok best_path.
Proof.
  unfold select.
  destruct (envy_graph_total n m preferences allocation Hpreferences
              (proj1 Hallocation)) as (edges & g & Hedges & Hg).
  rewrite Hedges. simpl. rewrite Hg. simpl.
  pose proof (envy_graph_wf n m preferences allocation edges g Hallocation Hedges Hg)
    as Hwf.
  destruct (solve_APSP_total n g Hwf) as [apsp Hapsp]. rewrite Hapsp. simpl.
  unfold find_path.
  destruct (calculate_agent_valuations_total n m allocation Hallocation)
    as [agent_values Hvals].
  rewrite Hvals. simpl.
  destruct (calculate_agent_valuations_spec n m allocation agent_values Hvals)
    as [Hlen Hcount].
  destruct (split_nsw_total agent_values) as [current_nsw ->].
  { apply Forall_lookup. intros i v Hv.
    rewrite Hcount in Hv by (apply lookup_lt_Some in Hv; lia).
    injection Hv as <-. lia. }
  simpl. rewrite foldM_concat.
  destruct (foldM_total (fun _ => True) (find_path_step n m allocation)
              (concat apsp) ([], num_of_int 0)) as ([bp cm] & -> & _); [exact I| |].
  - intros [bp cm] q Hq _. unfold find_path_step.
    destruct q as [|a q]; [eauto|].
    apply elem_of_concat in Hq as (row & Hq & Hrow).
    apply list_elem_of_lookup in Hrow as [s Hs].
    apply list_elem_of_lookup in Hq as [t Ht].
    destruct (solve_APSP_spec n g apsp Hapsp) as [_ Hrows].
    destruct (Hrows s row Hs) as (Hsn & _ & _ & Hpaths).
    destruct (Hpaths t (a :: q) Ht) as (Hts & Hhead & Hlast & Hwalk); [discriminate|].
    destruct (fast_nsw_total edges g (a :: q) s t Hedges Hg Hwalk Hhead Hlast Hsn Hts)
      as [w ->].
    simpl. destruct (Hgt w cm) as [b ->]. simpl. destruct b; eauto.
  - simpl. destruct (Hgt cm current_nsw) as [b ->]. simpl. destruct b; eauto.
Qed.

End Total.

(** ** The chunks of the welfare evaluator *)

Lemma product_snoc (vs : list Z) (v : Z) :
  product (vs ++ [v]) = (product vs * v)%Z.
Proof.
  unfold product. induction vs as [|x vs IH]; simpl; [lia|].
  rewrite IH. lia.
Qed.

Lemma chunks_from_concat (cur vs : list Z) :
  concat (chunks_from cur vs) = cur ++ vs.
Proof.
  revert cur. induction vs as [|v vs IH]; intros cur; simpl.
  - reflexivity.
  - destruct (decide (length cur = 19)); simpl; rewrite IH.
    + rewrite <- app_assoc. reflexivity.
    + rewrite <- app_assoc. reflexivity.
Qed.

Lemma chunks_from_nonempty (cur vs : list Z) :
  0 < length (chunks_from cur vs).
Proof.
  revert cur. induction vs as [|v vs IH]; intros cur; simpl; [lia|].
  destruct (decide (length cur = 19)); [simpl; lia | apply IH].
Qed.

Lemma chunks_from_lengths (cur vs : list Z) :
  length cur < 20 ->
  forall i ch, chunks_from cur vs !! i = Some ch ->
    if decide (S i = length (chunks_from cur vs)) then length ch < 20
    else length ch = 20.
Proof.
  revert cur. induction vs as [|v vs IH]; intros cur Hcur i ch Hch; simpl in *.
  - destruct i; [|discriminate]. injection Hch as <-.
    rewrite decide_True by reflexivity. exact Hcur.
  - destruct (decide (length cur = 19)) as [Hfull|Hnot].
    + destruct i as [|i]; simpl in *.
      * injection Hch as <-. rewrite decide_False.
        -- rewrite length_app. simpl. lia.
        -- pose proof (chunks_from_nonempty [] vs). lia.
      * specialize (IH [] ltac:(simpl; lia) i ch Hch).
        destruct (decide (S i = length (chunks_from [] vs)));
          [rewrite decide_True by lia | rewrite decide_False by lia]; exact IH.
    + apply IH; [|exact Hch]. rewrite length_app. simpl. lia.
Qed.

Lemma chunks_from_zero (cur vs : list Z) :
  0%Z ∈ cur ++ vs -> 0%Z ∈ map product (chunks_from cur vs).
Proof.
  assert (Hzero : forall l : list Z, 0%Z ∈ l -> product l = 0%Z).
  { intros l. unfold product. induction l as [|x l IH]; intros Hin; simpl.
    - inversion Hin.
    - apply elem_of_cons in Hin as [<-|Hin]; [lia|]. rewrite IH by exact Hin. lia. }
  revert cur. induction vs as [|v vs IH]; intros cur Hin; simpl.
  - rewrite app_nil_r in Hin. rewrite (Hzero cur Hin). left.
  - rewrite (cons_middle v cur vs), app_assoc in Hin.
    destruct (decide (length cur = 19)); simpl.
    + apply elem_of_app in Hin as [Hin|Hin].
      * rewrite (Hzero _ Hin). left.
      * right. apply IH. exact Hin.
    + apply IH. exact Hin.
Qed.

Lemma counter_mod_20 (counter k : nat) :
  counter mod 20 = k -> k < 20 -> ((counter + 1) mod 20 = 0 <-> k = 19).
Proof.
  intros Hk Hlt. rewrite Nat.Div0.add_mod, Hk.
  change (1 mod 20) with 1.
  destruct (decide (k = 19)) as [->|Hne]; [split; reflexivity|].
  rewrite Nat.mod_small by lia. lia.
Qed.

Section Chunks.

Context `{PyNum}.
Variable n : nat.
Hypothesis Hagents : 0 < n.

Lemma split_nsw_step_block (cur : list Z) (counter : nat) (rooted_product : num)
    (v : Z) :
  counter mod 20 = length cur -> length cur < 20 ->
  split_nsw_step n (counter, product cur, rooted_product) v =
    if decide (length cur = 19) then
      r <- int_pow (product (cur ++ [v])) (int_truediv 1 (Z.of_nat n));;
      Ok (counter + 1, 1%Z, num_mul rooted_product r)
    else Ok (counter + 1, product (cur ++ [v]), rooted_product).
Proof.
  intros Hcounter Hcur. unfold split_nsw_step. rewrite product_snoc.
  pose proof (counter_mod_20 counter (length cur) Hcounter Hcur) as Hmod.
  destruct (decide (length cur = 19)) as [Hfull|Hnot].
  - rewrite decide_True by (apply Hmod; exact Hfull).
    rewrite decide_False by lia. reflexivity.
  - rewrite decide_False by (rewrite Hmod; exact Hnot). reflexivity.
Qed.

Lemma split_nsw_from (vs cur : list Z) (counter : nat) (rooted_product : num) :
  counter mod 20 = length cur -> length cur < 20 ->
  (st <- foldM (split_nsw_step n) (counter, product cur, rooted_product) vs;;
   let '(_, p, rooted) := st in root_and_multiply n rooted p)
  = foldM (root_and_multiply n) rooted_product (map product (chunks_from cur vs)).
Proof.
  revert cur counter rooted_product.
  induction vs as [|v vs IH]; intros cur counter rooted Hcounter Hcur.
  - simpl. unfold root_and_multiply.
    destruct (int_pow (product cur) (int_truediv 1 (Z.of_nat n))); reflexivity.
  - cbn [foldM chunks_from].
    rewrite (split_nsw_step_block cur counter rooted v Hcounter Hcur).
    destruct (decide (length cur = 19)) as [Hfull|Hnot].
    + cbn [map foldM]. unfold root_and_multiply at 2.
      destruct (int_pow (product (cur ++ [v])) (int_truediv 1 (Z.of_nat n)))
        as [r|e]; [|reflexivity].
      cbn [bind]. apply (IH [] (counter + 1)); [|simpl; lia].
      apply (counter_mod_20 counter (length cur) Hcounter Hcur). exact Hfull.
    + cbn [bind]. apply (IH (cur ++ [v]) (counter + 1)).
      * rewrite length_app, Nat.Div0.add_mod, Hcounter. simpl length.
        change (1 mod 20) with 1. apply Nat.mod_small. lia.
      * rewrite length_app. simpl. lia.
Qed.

End Chunks.

(** ** The instance generator *)

Lemma likesb_get (n m : nat) (preferences : list (list bool)) (a item : nat) :
  wf_preferences n m preferences -> a < n -> item < m ->
  exists row, get preferences a = Ok row /\
    get row item = Ok (likesb preferences a item).
Proof.
  intros [Hlen Hrows] Ha Hitem.
  destruct (lookup_lt_is_Some_2 preferences a) as [row Hrow]; [lia|].
  destruct (lookup_lt_is_Some_2 row item) as [b Hb].
  { rewrite (Hrows a row Hrow). exact Hitem. }
  exists row. unfold get, likesb. rewrite Hrow, Hb. auto.
Qed.

Lemma give_liked_spec (n m : nat) (preferences : list (list bool)) (agent : nat)
    (items : list nat) (leftover_items : list Z) (allocation : list (option Z)) :
  wf_preferences n m preferences -> agent < n ->
  (forall item, item ∈ items -> item < m) ->
  length leftover_items = m -> length allocation = m ->
  give_liked preferences agent items (leftover_items, allocation) =
    Ok (match first_free preferences leftover_items agent items with
        | Some item => (<[item := 1%Z]> leftover_items,
                        <[item := Some (Z.of_nat agent)]> allocation)
        | None => (leftover_items, allocation)
        end).
Proof.
  intros Hp Ha Hitems Hlo Hal.
  induction items as [|item rest IH]; [reflexivity|].
  assert (Hitem : item < m) by (apply Hitems; left).
  assert (Hrest : forall i, i ∈ rest -> i < m) by (intros i Hi; apply Hitems; right; exact Hi).
  destruct (likesb_get n m preferences agent item Hp Ha Hitem) as (row & Hrow & Hb).
  destruct (get_lt leftover_items item) as (mark & Hmark & Hlook); [lia|].
  unfold first_free. rewrite filter_cons.
  cbn [give_liked]. rewrite Hrow. cbn [bind]. rewrite Hb. cbn [bind].
  destruct (likesb preferences agent item) eqn:Hlikes.
  - rewrite Hmark. cbn [bind]. destruct (decide (mark <> 1%Z)) as [Hne|He].
    + rewrite decide_True by (split; [reflexivity | congruence]).
      rewrite set_lt by lia. cbn [bind]. rewrite set_lt by lia. reflexivity.
    + rewrite decide_False by (intros [_ Hn]; apply Hn; rewrite Hlook; f_equal;
                               destruct (decide (mark = 1%Z)); [assumption | contradiction]).
      exact (IH Hrest).
  - rewrite decide_False by (intros [Ht _]; discriminate Ht).
    exact (IH Hrest).
Qed.

Lemma filter_length_le {A : Type} (P Q : A -> Prop)
    `{forall x, Decision (P x)} `{forall x, Decision (Q x)} (l : list A) :
  (forall x, x ∈ l -> P x -> Q x) ->
  length (filter P l) <= length (filter Q l).
Proof.
  induction l as [|x l IH]; intros Himp; [reflexivity|].
  rewrite !filter_cons.
  assert (IH' : length (filter P l) <= length (filter Q l)).
  { apply IH. intros y Hy. apply Himp. right. exact Hy. }
  destruct (decide (P x)) as [Hp|Hp].
  - rewrite decide_True by (apply Himp; [left | exact Hp]). simpl. lia.
  - destruct (decide (Q x)); simpl; lia.
Qed.

Lemma filter_length_none {A : Type} (P : A -> Prop)
    `{forall x, Decision (P x)} (l : list A) :
  (forall x, x ∈ l -> ~ P x) -> length (filter P l) = 0.
Proof.
  induction l as [|x l IH]; intros Hnone; [reflexivity|].
  rewrite filter_cons, decide_False by (apply Hnone; left).
  apply IH. intros y Hy. apply Hnone. right. exact Hy.
Qed.

Lemma filter_length_add {A : Type} `{EqDecision A} (P Q : A -> Prop)
    `{forall x, Decision (P x)} `{forall x, Decision (Q x)} (l : list A) (y : A) :
  (forall x, x <> y -> Q x -> P x) ->
  NoDup l ->
  length (filter Q l) <= length (filter P l) + (if decide (y ∈ l) then 1 else 0).
Proof.
  intros Himp Hnd. induction Hnd as [|x l Hx Hnd IH]; [simpl; lia|].
  rewrite !filter_cons.
  destruct (decide (x = y)) as [->|Hne].
  - rewrite (decide_True (P := y ∈ y :: l)) by left.
    rewrite decide_False in IH by exact Hx.
    destruct (decide (Q y)), (decide (P y)); simpl; lia.
  - assert (Hiff : y ∈ x :: l <-> y ∈ l).
    { rewrite elem_of_cons. split; [intros [->|Hy]; [contradiction | exact Hy] | auto]. }
    assert (Hd : (if decide (y ∈ x :: l) then 1 else 0)
                 = (if decide (y ∈ l) then 1 else 0)).
    { destruct (decide (y ∈ x :: l)), (decide (y ∈ l)); tauto || reflexivity. }
    rewrite Hd. destruct (decide (Q x)) as [Hq|Hq].
    + rewrite decide_True by (apply Himp; assumption). simpl. lia.
    + destruct (decide (P x)); simpl; lia.
Qed.

Lemma first_free_Some (preferences : list (list bool)) (leftover_items : list Z)
    (agent : nat) (items : list nat) (item : nat) :
  first_free preferences leftover_items agent items = Some item ->
  item ∈ items /\ likesb preferences agent item = true /\
  leftover_items !! item <> Some 1%Z.
Proof.
  unfold first_free. intros Hhead.
  assert (Hin : item ∈ filter (fun item => likesb preferences agent item = true /\
                               leftover_items !! item <> Some 1%Z) items).
  { destruct (filter _ items) as [|x l]; [discriminate|].
    injection Hhead as ->. left. }
  apply list_elem_of_filter in Hin. tauto.
Qed.

Lemma first_free_None (preferences : list (list bool)) (leftover_items : list Z)
    (agent : nat) (items : list nat) :
  first_free preferences leftover_items agent items = None ->
  forall item, item ∈ items -> likesb preferences agent item = true ->
    leftover_items !! item = Some 1%Z.
Proof.
  unfold first_free. intros Hnone item Hitem Hlikes.
  destruct (decide (leftover_items !! item = Some 1%Z)) as [Hm|Hm]; [exact Hm|].
  assert (Hin : item ∈ filter (fun item => likesb preferences agent item = true /\
                               leftover_items !! item <> Some 1%Z) items).
  { apply list_elem_of_filter. auto. }
  destruct (filter _ items); [inversion Hin | discriminate].
Qed.

Lemma seq_bound (m item : nat) : item ∈ seq 0 m <-> item < m.
Proof. rewrite list_elem_of_In, in_seq. lia. Qed.

Lemma dealt_start (m : nat) (preferences : list (list bool)) :
  dealt m 0 preferences (replicate m 0%Z, replicate m None).
Proof.
  unfold dealt. simpl. rewrite !length_replicate.
  split; [reflexivity|]. split; [reflexivity|]. split; [|split].
  - intros item Hitem. right.
    split; apply lookup_replicate; auto.
  - unfold marked_count.
    rewrite filter_length_none; [lia|]. intros item _ Hmark.
    apply lookup_replicate in Hmark as [Hmark _]. discriminate.
  - intros a Ha. lia.
Qed.

Lemma dealt_step (n m k : nat) (preferences : list (list bool))
    (st : list Z * list (option Z)) :
  wf_preferences n m preferences -> k < n ->
  dealt m k preferences st ->
  exists st', give_liked preferences k (seq 0 m) st = Ok st' /\
              dealt m (S k) preferences st'.
Proof.
  intros Hp Hk (Hlo & Hal & Hitems & Hmarked & Hserved).
  destruct st as [lo al]. simpl in *.
  rewrite (give_liked_spec n m) by (try assumption; apply seq_bound).
  destruct (first_free preferences lo k (seq 0 m)) as [item|] eqn:Hfree.
  - apply first_free_Some in Hfree as (Hin & Hlikes & Hunmarked).
    apply seq_bound in Hin.
    assert (Hnone : lo !! item = Some 0%Z /\ al !! item = Some None).
    { destruct (Hitems item Hin) as [[Hm _]|Hz]; [contradiction | exact Hz]. }
    eexists. split; [reflexivity|]. unfold dealt. simpl.
    rewrite !length_insert.
    split; [exact Hlo|]. split; [exact Hal|]. split; [|split].
    + intros item' Hitem'. destruct (decide (item' = item)) as [->|Hne].
      * left. split; [apply list_lookup_insert_eq; lia|].
        exists k. split; [lia|]. split; [apply list_lookup_insert_eq; lia|].
        apply likesb_likes. exact Hlikes.
      * rewrite !list_lookup_insert_ne by auto.
        destruct (Hitems item' Hitem') as [(Hm & a & Ha & Hown & Hl)|Hz]; [left | right; exact Hz].
        split; [exact Hm|]. exists a. split; [lia | auto].
    + unfold marked_count in *.
      pose proof (filter_length_add
        (fun i => lo !! i = Some 1%Z) (fun i => <[item := 1%Z]> lo !! i = Some 1%Z)
        (seq 0 m) item) as Hadd.
      assert (Hone : (if decide (item ∈ seq 0 m) then 1 else 0) <= 1)
        by (destruct (decide (item ∈ seq 0 m)); lia).
      assert (Hle : length (filter (fun i => <[item := 1%Z]> lo !! i = Some 1%Z) (seq 0 m))
                    <= length (filter (fun i => lo !! i = Some 1%Z) (seq 0 m))
                       + (if decide (item ∈ seq 0 m) then 1 else 0)).
      { apply Hadd; [|apply NoDup_seq].
        intros x Hx Hq. rewrite list_lookup_insert_ne in Hq by auto. exact Hq. }
      lia.
    + intros a Ha Hcount. destruct (decide (a = k)) as [->|Hne].
      * exists item. apply list_lookup_insert_eq. lia.
      * destruct (Hserved a) as [item' Hitem']; [lia | exact Hcount|].
        exists item'. rewrite list_lookup_insert_ne; [exact Hitem'|].
        intros <-. destruct Hnone as [_ Hn]. congruence.
  - eexists. split; [reflexivity|]. unfold dealt. simpl.
    split; [exact Hlo|]. split; [exact Hal|]. split; [|split].
    + intros item Hitem.
      destruct (Hitems item Hitem) as [(Hm & a & Ha & Hown & Hl)|Hz]; [left | right; exact Hz].
      split; [exact Hm|]. exists a. split; [lia | auto].
    + lia.
    + intros a Ha Hcount. destruct (decide (a = k)) as [->|Hne].
      * exfalso. unfold liked_count, marked_count in *.
        pose proof (filter_length_le
          (fun item => likesb preferences k item = true)
          (fun item => lo !! item = Some 1%Z) (seq 0 m)
          (first_free_None preferences lo k (seq 0 m) Hfree)) as Hle.
        lia.
      * apply Hserved; [lia | exact Hcount].
Qed.

Lemma part_one_dealt (n m : nat) (preferences : list (list bool)) :
  wf_preferences n m preferences ->
  exists st,
    foldM (fun st agent => give_liked preferences agent (seq 0 m) st)
      (replicate m 0%Z, replicate m None) (seq 0 n) = Ok st /\
    dealt m n preferences st.
Proof.
  intros Hp.
  apply (foldM_seq_total (fun k st => dealt m k preferences st)).
  - apply dealt_start.
  - intros k st Hk Hst. exact (dealt_step n m k preferences st Hp Hk Hst).
Qed.

Lemma index_nat (len : nat) (x : Z) :
  (0 <= x < Z.of_nat len)%Z -> index len x = Ok (Z.to_nat x).
Proof. intros Hx. unfold index. rewrite decide_True by exact Hx. reflexivity. Qed.

Section Leftover.

Context `{PyRandom}.
Variable n m : nat.
Variable preferences : list (list bool).
Variable upper : res Z.
Variable hi : Z.
Hypothesis Hpreferences : wf_preferences n m preferences.
Hypothesis Hupper : upper = Ok hi.
Hypothesis Hhi : (0 <= hi < Z.of_nat n)%Z.

Lemma try_agents_total (fuel : nat) :
  forall (infinity_counter : nat) (j : nat) (allocation : list (option Z)) (g : rng),
    n ^ 2 + 2 <= infinity_counter + fuel -> infinity_counter <= n ^ 2 + 1 ->
    j < m -> length allocation = m ->
    exists x g',
      try_agents n fuel upper preferences j infinity_counter allocation g
        = Ok (<[j := Some (Z.of_nat x)]> allocation, g') /\
      x < n /\ (likes preferences x j \/ x = n - 1).
Proof.
  induction fuel as [|fuel IH]; intros c j allocation g Hfuel Hc Hj Hlen; [lia|].
  cbn [try_agents]. destruct (decide (n ^ 2 < c)) as [Hlate|Hearly].
  - rewrite set_lt by lia. cbn [bind].
    exists (n - 1), g. split; [|split; [lia | right; reflexivity]].
    replace (Z.of_nat (n - 1)) with (Z.of_nat n - 1)%Z by lia. reflexivity.
  - rewrite Hupper. cbn [bind].
    destruct (randint_draws 0 hi g) as (x & g' & Hdraw); [lia|].
    rewrite Hdraw. cbn [bind].
    apply randint_range in Hdraw.
    unfold get_at. rewrite index_nat by (rewrite (proj1 Hpreferences); lia).
    cbn [bind].
    destruct (likesb_get n m preferences (Z.to_nat x) j Hpreferences)
      as (row & Hrow & Hb); [lia | exact Hj|].
    rewrite Hrow. cbn [bind]. rewrite Hb. cbn [bind].
    destruct (likesb preferences (Z.to_nat x) j) eqn:Hlikes.
    + rewrite set_lt by lia. cbn [bind].
      exists (Z.to_nat x), g'. rewrite Z2Nat.id by lia.
      split; [reflexivity|]. split; [lia|]. left. apply likesb_likes. exact Hlikes.
    + rewrite <- Hupper. apply IH; lia.
Qed.

Lemma allocate_leftover_settled (lo : list Z) (al : list (option Z)) (j : nat)
    (allocation : list (option Z)) (g : rng) :
  dealt m n preferences (lo, al) -> j < m ->
  settled n j preferences al allocation ->
  exists allocation' g',
    allocate_leftover n upper preferences lo (allocation, g) j
      = Ok (allocation', g') /\
    settled n (S j) preferences al allocation'.
Proof.
  intros (Hlo & Hal & Hitems & _ & _) Hj (Hlen & Hdone & Hrest & Hkeep).
  simpl in *. unfold allocate_leftover.
  destruct (Hitems j Hj) as [(Hmark & a & Ha & Hown & Hlikes)|[Hmark Hnone]].
  - unfold get. rewrite Hmark. cbn [bind]. rewrite decide_False by tauto.
    exists allocation, g. split; [reflexivity|].
    split; [exact Hlen|]. split; [|split; [|exact Hkeep]].
    + intros item Hitem. destruct (decide (item = j)) as [->|Hne].
      * exists a. split; [exact Ha|]. split; [|left; exact Hlikes].
        apply Hkeep. exact Hown.
      * apply Hdone. lia.
    + intros item Hitem. apply Hrest. lia.
  - unfold get. rewrite Hmark. cbn [bind]. rewrite decide_True by discriminate.
    destruct (try_agents_total (n ^ 2 + 2) 0 j allocation g)
      as (x & g' & Hrun & Hx & Hlikes); [lia | lia | exact Hj | lia|].
    eexists _, g'. split; [exact Hrun|].
    split; [rewrite length_insert; exact Hlen|]. split; [|split].
    + intros item Hitem. destruct (decide (item = j)) as [->|Hne].
      * exists x. split; [exact Hx|]. split; [|exact Hlikes].
        apply list_lookup_insert_eq. lia.
      * rewrite list_lookup_insert_ne by auto. apply Hdone. lia.
    + intros item Hitem. rewrite list_lookup_insert_ne by lia. apply Hrest. lia.
    + intros item b Hb. rewrite list_lookup_insert_ne; [exact (Hkeep item b Hb)|].
      intros <-. congruence.
Qed.

Lemma agents_of_slots (allocation : list (option Z)) :
  (forall item, item < length allocation ->
     exists a : nat, allocation !! item = Some (Some (Z.of_nat a))) ->
  exists agents : list nat,
    allocation = map (fun a => Some (Z.of_nat a)) agents.
Proof.
  intros Hall.
  exists (map (fun slot => Z.to_nat (default 0%Z slot)) allocation).
  apply list_eq. intros item. rewrite !list_lookup_fmap.
  destruct (allocation !! item) as [slot|] eqn:Hslot; [|reflexivity].
  destruct (Hall item) as [a Ha]; [apply lookup_lt_Some in Hslot; exact Hslot|].
  rewrite Hslot in Ha. injection Ha as ->. simpl. rewrite Nat2Z.id. reflexivity.
Qed.

(** Both allocators, where the draw has a range within the agents. *)
Lemma allocation_from_spec (g : rng) :
  exists allocation g',
    allocation_from n m upper preferences g
      = Ok (map (fun a => Some (Z.of_nat a)) allocation, g') /\
    wf_allocation n m allocation /\
    (forall item a, allocation !! item = Some a ->
       likes preferences a item \/ a = n - 1) /\
    (forall a, a < n -> a < liked_count preferences m a ->
       exists item, allocation !! item = Some a /\ likes preferences a item).
Proof.
  unfold allocation_from.
  destruct (part_one_dealt n m preferences Hpreferences) as ([lo al] & Hone & Hdealt).
  rewrite Hone. cbn [bind].
  pose proof Hdealt as (Hlo & Hal & Hitems & _ & Hserved). simpl in *.
  destruct (foldM_seq_total
              (fun j (st : list (option Z) * rng) =>
                 settled n j preferences al (fst st))
              (allocate_leftover n upper preferences lo) (length lo) (al, g))
    as ([allocation g'] & Htwo & Hlen & Hdone & _ & Hkeep).
  { simpl. split; [reflexivity|]. split; [intros item Hitem; lia|]. auto. }
  { intros j [allocation g0] Hj Hst. simpl in Hst.
    destruct (allocate_leftover_settled lo al j allocation g0 Hdealt)
      as (allocation' & g' & Hrun & Hst'); [lia | exact Hst|].
    exists (allocation', g'). auto. }
  simpl in *. rewrite Htwo.
  destruct (agents_of_slots allocation) as [agents ->].
  { intros item Hitem. destruct (Hdone item) as (a & _ & Ha & _); [lia|]. eauto. }
  rewrite length_map in Hlen.
  assert (Hlook : forall item a, agents !! item = Some a ->
            a < n /\ (likes preferences a item \/ a = n - 1)).
  { intros item a Ha. destruct (Hdone item) as (b & Hb & Hslot & Hlikes).
    { apply lookup_lt_Some in Ha. lia. }
    rewrite list_lookup_fmap, Ha in Hslot. simpl in Hslot.
    assert (a = b) as -> by (injection Hslot as Heq; lia). auto. }
  exists agents, g'. split; [reflexivity|]. split; [split|split].
  - lia.
  - intros item a Ha. exact (proj1 (Hlook item a Ha)).
  - intros item a Ha. exact (proj2 (Hlook item a Ha)).
  - intros a Ha Hcount. destruct (Hserved a Ha Hcount) as [item Hitem].
    exists item. split.
    + apply Hkeep in Hitem. rewrite list_lookup_fmap in Hitem.
      destruct (agents !! item) as [b|]; [|discriminate]. simpl in Hitem.
      f_equal. injection Hitem as Heq. lia.
    + destruct (Hitems item) as [(_ & b & _ & Hb & Hlikes)|[_ Hnone]].
      * apply lookup_lt_Some in Hitem. lia.
      * assert (b = a) as -> by (rewrite Hitem in Hb; injection Hb as Heq; lia).
        exact Hlikes.
      * congruence.
Qed.

End Leftover.

Lemma filter_length_lt_inv {A : Type} (P : A -> Prop)
    `{forall x, Decision (P x)} (l : list A) :
  length (filter P l) < length l -> exists x, x ∈ l /\ ~ P x.
Proof.
  induction l as [|x l IH]; simpl; [lia|].
  rewrite filter_cons. destruct (decide (P x)) as [Hp|Hp].
  - simpl. intros Hlt. destruct IH as (y & Hy & Hn); [lia|].
    exists y. split; [right; exact Hy | exact Hn].
  - intros _. exists x. split; [left | exact Hp].
Qed.

Section FewAgents.

Context `{PyRandom}.
Variable n m : nat.
Variable preferences : list (list bool).
Hypothesis Hfew : n <= 1.

Lemma try_agents_few (j : nat) (allocation : list (option Z)) (g : rng) :
  try_agents n (n ^ 2 + 2) (Ok (Z.of_nat n - 2)%Z) preferences j 0 allocation g
    = Raise ValueError.
Proof.
  replace (n ^ 2 + 2) with (S (n ^ 2 + 1)) by lia.
  cbn [try_agents]. rewrite decide_False by lia. cbn [bind].
  rewrite randint_empty by lia. reflexivity.
Qed.

Lemma leftover_few (lo : list Z) (al : list (option Z)) (l : list nat) :
  dealt m n preferences (lo, al) ->
  (forall item, item ∈ l -> item < m) ->
  (exists j, j ∈ l /\ lo !! j <> Some 1%Z) ->
  forall allocation g,
    foldM (allocate_leftover n (Ok (Z.of_nat n - 2)%Z) preferences lo)
      (allocation, g) l = Raise ValueError.
Proof.
  intros (_ & _ & Hitems & _) Hl. simpl in Hitems.
  induction l as [|item l IH]; intros (j & Hj & Hfree) allocation g.
  { inversion Hj. }
  cbn [foldM]. unfold allocate_leftover at 1.
  destruct (Hitems item) as [[Hmark _]|[Hmark _]]; [apply Hl; left| |].
  - unfold get. rewrite Hmark. cbn [bind]. rewrite decide_False by tauto.
    cbn [bind]. apply IH.
    + intros i Hi. apply Hl. right. exact Hi.
    + exists j. split; [|exact Hfree].
      apply elem_of_cons in Hj as [->|Hj]; [contradiction | exact Hj].
  - unfold get. rewrite Hmark. cbn [bind]. rewrite decide_True by discriminate.
    rewrite try_agents_few. reflexivity.
Qed.

Lemma random_allocation_few (g : rng) :
  n < m -> wf_preferences n m preferences ->
  random_allocation n m preferences g = Raise ValueError.
Proof.
  intros Hm Hp. unfold random_allocation, allocation_from.
  destruct (part_one_dealt n m preferences Hp) as ([lo al] & Hone & Hdealt).
  rewrite Hone. cbn [bind].
  pose proof Hdealt as (Hlo & _ & _ & Hmarked & _). simpl in *.
  apply (leftover_few lo al); [exact Hdealt | |].
  - intros item Hitem. apply seq_bound in Hitem. lia.
  - unfold marked_count in Hmarked.
    destruct (filter_length_lt_inv (fun item => lo !! item = Some 1%Z) (seq 0 m))
      as (j & Hj & Hfree).
    { rewrite length_seq. lia. }
    exists j. rewrite Hlo. auto.
Qed.

End FewAgents.

(** The fuel of [try_agents] is never used up: the counter grows with every
    draw and the loop is left when it exceeds [agent_quantity ** 2]. *)
Lemma randint_Raise `{PyRandom} (a b : Z) (g : rng) (e : exn) :
  randint a b g = Raise e -> e = ValueError.
Proof.
  intros Hrun. destruct (decide (a <= b)%Z) as [Hab|Hab].
  - destruct (randint_draws a b g Hab) as (x & g' & Hdraw). congruence.
  - rewrite randint_empty in Hrun by lia. congruence.
Qed.

Lemma try_agents_fuel `{PyRandom} (n : nat) (upper : res Z)
    (preferences : list (list bool)) (j : nat) (fuel : nat) :
  upper <> Raise OutOfFuel ->
  forall infinity_counter allocation g,
    n ^ 2 + 2 <= infinity_counter + fuel -> infinity_counter <= n ^ 2 + 1 ->
    try_agents n fuel upper preferences j infinity_counter allocation g
      <> Raise OutOfFuel.
Proof.
  intros Hupper. induction fuel as [|fuel IH]; intros c allocation g Hfuel Hc; [lia|].
  cbn [try_agents]. destruct (decide (n ^ 2 < c)) as [Hlate|Hearly].
  - intros Hrun. apply bind_Raise in Hrun as [Hrun|(al & _ & Hrun)]; [|discriminate].
    apply set_Raise in Hrun. discriminate.
  - intros Hrun. apply bind_Raise in Hrun as [Hrun|(hi & _ & Hrun)]; [contradiction|].
    apply bind_Raise in Hrun as [Hrun|([x g'] & _ & Hrun)].
    { apply randint_Raise in Hrun. discriminate. }
    apply bind_Raise in Hrun as [Hrun|(row & _ & Hrun)].
    { unfold get_at in Hrun.
      apply bind_Raise in Hrun as [Hrun|(k & _ & Hrun)].
      - unfold index in Hrun. repeat destruct (decide _); discriminate.
      - apply get_Raise in Hrun. discriminate. }
    apply bind_Raise in Hrun as [Hrun|(liked & _ & Hrun)].
    { apply get_Raise in Hrun. discriminate. }
    destruct liked.
    + apply bind_Raise in Hrun as [Hrun|(al & _ & Hrun)]; [|discriminate].
      apply set_Raise in Hrun. discriminate.
    + revert Hrun. apply IH; lia.
Qed.

Lemma create_agents_replicate (n : nat) : create_agents n = replicate n [].
Proof.
  unfold create_agents. induction n as [|n IH]; [reflexivity|].
  rewrite seq_S, fold_left_app, IH. simpl.
  clear IH. induction n as [|n IH]; [reflexivity|].
  simpl. f_equal. exact IH.
Qed.

Section Preferences.

Context `{PyRandom}.
Variable n m : nat.
Variable liking_probability : num.
(** The comparison of the coin flip raises nothing. *)
Hypothesis Hflip : forall r, exists b, num_gt liking_probability r = Ok b.

Lemma flip_preferences_total (g : rng) :
  exists row g',
    foldM (flip_preference liking_probability) ([], g) (seq 0 m) = Ok (row, g') /\
    length row = m.
Proof.
  destruct (foldM_seq_total (fun k (st : list bool * rng) => length (fst st) = k)
              (flip_preference liking_probability) m ([], g))
    as ([row g'] & Hrun & Hlen); [reflexivity| |eauto].
  intros k [row g0] _ Hk. simpl in Hk.
  unfold flip_preference, coinflip.
  destruct (np_random g0) as [r g1]. destruct (Hflip r) as [b ->]. cbn [bind].
  eexists. split; [reflexivity|]. simpl. rewrite length_app. simpl. lia.
Qed.

Lemma create_agent_preferences_spec (agent_list : list (list bool)) (g : rng) :
  0 < n -> length agent_list = n ->
  exists preferences g',
    create_agent_preferences n m liking_probability agent_list g
      = Ok (preferences, g') /\
    wf_preferences n m preferences /\
    forall item, item < m -> likes preferences (n - 1) item.
Proof.
  intros Hn Hlen. unfold create_agent_preferences.
  match goal with |- context [foldM ?f ?b (seq 0 ?k)] =>
    destruct (foldM_seq_total
      (fun k (st : list (list bool) * rng) =>
         length (fst st) = n /\
         forall a row, a < k -> fst st !! a = Some row -> length row = m)
      f k b) as ([rows g'] & Hrun & Hlen' & Hrows)
  end.
  { split; [exact Hlen|]. intros a row Ha. lia. }
  { intros k [rows g0] Hk [Hl Hrows]. simpl in Hl, Hrows.
    destruct (flip_preferences_total g0) as (row & g1 & -> & Hrow). cbn [bind].
    rewrite set_lt by lia. cbn [bind]. eexists. split; [reflexivity|]. simpl.
    split; [rewrite length_insert; exact Hl|].
    intros a row' Ha Hrow'. destruct (decide (a = k)) as [->|Hne].
    - rewrite list_lookup_insert_eq in Hrow' by lia. congruence.
    - rewrite list_lookup_insert_ne in Hrow' by auto.
      apply (Hrows a); [lia | exact Hrow']. }
  simpl in Hlen', Hrows. rewrite Hrun. cbn [bind].
  unfold set_at. rewrite index_nat by lia. cbn [bind].
  rewrite set_lt by lia. cbn [bind].
  replace (Z.to_nat (Z.of_nat n - 1)) with (n - 1) by lia.
  eexists _, g'. split; [reflexivity|]. split; [split|].
  - rewrite length_insert. exact Hlen'.
  - intros a row Hrow. destruct (decide (a = n - 1)) as [->|Hne].
    + rewrite list_lookup_insert_eq in Hrow by lia. injection Hrow as <-.
      apply length_replicate.
    + rewrite list_lookup_insert_ne in Hrow by auto.
      apply (Hrows a); [|exact Hrow]. apply lookup_lt_Some in Hrow. lia.
  - intros item Hitem. exists (replicate m true).
    split; [apply list_lookup_insert_eq; lia|].
    apply lookup_replicate. auto.
Qed.

End Preferences.

(** *** The linear congruential generator implements the interface *)

Lemma z_randint_range (a b s x s' : Z) :
  Lcg.z_randint a b s = Ok (x, s') -> (a <= x <= b)%Z.
Proof.
  unfold Lcg.z_randint. destruct (b <? a)%Z eqn:Hba; [discriminate|].
  apply Z.ltb_ge in Hba. intros [= <- _].
  pose proof (Z.mod_pos_bound (Lcg.step s) (b - a + 1)). lia.
Qed.

Lemma z_randint_empty (a b s : Z) :
  (b < a)%Z -> Lcg.z_randint a b s = Raise ValueError.
Proof.
  intros Hba. unfold Lcg.z_randint.
  apply Z.ltb_lt in Hba. rewrite Hba. reflexivity.
Qed.

Lemma z_randint_draws (a b s : Z) :
  (a <= b)%Z -> exists x s', Lcg.z_randint a b s = Ok (x, s').
Proof.
  intros Hab. unfold Lcg.z_randint.
  apply Z.ltb_ge in Hab. rewrite Hab. eauto.
Qed.

Definition lcg_random : @PyRandom rat_num := {|
  rng := Z;
  np_random := Lcg.q_random : Z -> @num rat_num * Z;
  randint := Lcg.z_randint;
  randint_range := z_randint_range;
  randint_empty := z_randint_empty;
  randint_draws := z_randint_draws
|}.

Lemma likes_all_check (m a : nat) (preferences : list (list bool)) :
  forallb (fun item => likesb preferences a item) (seq 0 m) = true ->
  forall item, item < m -> likes preferences a item.
Proof.
  intros Hall item Hitem. rewrite forallb_forall in Hall.
  apply likesb_likes, Hall, in_seq. lia.
Qed.

(** ** The loop, pass by pass *)

(** *** The stored paths are simple *)

Lemma walk_tail (g : list (list nat)) (a : nat) (l : list nat) :
  walk g (a :: l) -> walk g l.
Proof. intros Hwalk k x y Hx Hy. exact (Hwalk (S k) x y Hx Hy). Qed.

Lemma walk_suffix (g : list (list nat)) (l1 l2 : list nat) :
  walk g (l1 ++ l2) -> walk g l2.
Proof.
  induction l1 as [|a l1 IH]; [auto|].
  intros Hwalk. apply IH. exact (walk_tail g a _ Hwalk).
Qed.

Lemma walk_cons (g : list (list nat)) (a b : nat) (l : list nat) (nbrs : list nat) :
  g !! a = Some nbrs -> b ∈ nbrs -> walk g (b :: l) -> walk g (a :: b :: l).
Proof.
  intros Hnbrs Hb Hwalk k x y Hx Hy. destruct k as [|k].
  - simpl in Hx, Hy. injection Hx as <-. injection Hy as <-. eauto.
  - exact (Hwalk k x y Hx Hy).
Qed.

Lemma shortest_NoDup (g : list (list nat)) (p : list nat) :
  walk g p -> shortest g p -> NoDup p.
Proof.
  induction p as [|a p IH]; intros Hwalk Hshort; [apply NoDup_nil_2|].
  apply NoDup_cons. split.
  - intros Hin. apply list_elem_of_split in Hin as (l2 & l3 & ->).
    pose proof (Hshort (a :: l3)) as Hlen.
    rewrite length_cons, length_app in Hlen. simpl in Hlen.
    assert (S (length l2 + S (length l3)) <= S (length l3)); [|lia].
    apply Hlen.
    + exact (walk_suffix g (a :: l2) (a :: l3) Hwalk).
    + reflexivity.
    + symmetry. exact (last_app_cons (a :: l2) l3 a).
  - apply IH; [exact (walk_tail g a p Hwalk)|].
    destruct p as [|b p]; [intros l _ _ _; simpl; lia|].
    intros l Hl Hhead Hlast.
    destruct l as [|b' l]; [discriminate|]. simpl in Hhead.
    injection Hhead as ->.
    destruct (Hwalk 0 a b eq_refl eq_refl) as (nbrs & Hnbrs & Hb).
    pose proof (Hshort (a :: b :: l)) as Hlen. simpl in Hlen. simpl.
    assert (S (S (length p)) <= S (S (length l))); [|lia].
    apply Hlen.
    + exact (walk_cons g a b l nbrs Hnbrs Hb Hl).
    + reflexivity.
    + exact Hlast.
Qed.

Lemma bfs_path_shortest (n : nat) (g : list (list nat)) (s : nat)
    (paths : list (list nat)) (t : nat) (p : list nat) :
  bfs n g s = Ok paths -> paths !! t = Some p -> p <> [] ->
  walk g p /\ shortest g p.
Proof.
  intros Hrun Hp Hne.
  destruct (bfs_spec n g s paths Hrun) as (_ & _ & _ & Hpaths).
  destruct (Hpaths t p Hp Hne) as (Hts & Hhead & Hlast & Hwalk).
  split; [exact Hwalk|]. intros l Hl Hhl Hll.
  destruct (bfs_shortest n g s paths t l Hrun Hl) as (p' & Hp' & _ & Hle);
    [congruence | congruence | exact Hts|].
  assert (p' = p) as -> by congruence. exact Hle.
Qed.

Lemma NoDup_bounded_length (n : nat) (l : list nat) :
  NoDup l -> (forall a, a ∈ l -> a < n) -> length l <= n.
Proof.
  intros Hnd Hbound.
  rewrite <- (length_seq n 0).
  apply submseteq_length, NoDup_submseteq; [exact Hnd|].
  intros a Ha. apply list_elem_of_In, in_seq. specialize (Hbound a Ha). lia.
Qed.

Lemma solve_APSP_NoDup (n : nat) (g : list (list nat))
    (apsp : list (list (list nat))) (s t : nat) (row : list (list nat)) (p : list nat) :
  solve_APSP n g = Ok apsp ->
  apsp !! s = Some row -> row !! t = Some p ->
  NoDup p.
Proof.
  intros Hrun Hrow Hp.
  destruct p as [|a p]; [apply NoDup_nil_2|].
  unfold solve_APSP in Hrun. apply mapM_seq_lookup in Hrun as [_ Hbfs].
  destruct (bfs_path_shortest n g s row t (a :: p) (Hbfs s row Hrow) Hp)
    as [Hwalk Hshort]; [discriminate|].
  exact (shortest_NoDup g (a :: p) Hwalk Hshort).
Qed.

(** *** What a reallocation does to the counts *)

Lemma filter_insert_length (allocation : list nat) (item a b x : nat) (l : list nat) :
  allocation !! item = Some b -> NoDup l ->
  Z.of_nat (length (filter (fun i => <[item := a]> allocation !! i = Some x) l)) =
    (Z.of_nat (length (filter (fun i => allocation !! i = Some x) l))
     + (if decide (item ∈ l) then holds (Some a) x - holds (Some b) x else 0))%Z.
Proof.
  intros Hb Hnd. induction Hnd as [|i l Hi Hnd IH]; [reflexivity|].
  rewrite !filter_cons. destruct (decide (i = item)) as [->|Hne].
  - rewrite list_lookup_insert_eq by (apply lookup_lt_Some in Hb; exact Hb).
    rewrite Hb. rewrite decide_False in IH by exact Hi.
    rewrite (decide_True (P := item ∈ item :: l)) by left.
    unfold holds.
    destruct (decide (Some a = Some x)), (decide (Some b = Some x));
      simpl length; lia.
  - rewrite list_lookup_insert_ne by auto.
    assert (Hd : (if decide (item ∈ i :: l) then holds (Some a) x - holds (Some b) x else 0)%Z
                 = (if decide (item ∈ l) then holds (Some a) x - holds (Some b) x else 0)%Z).
    { destruct (decide (item ∈ i :: l)) as [Hin|Hout], (decide (item ∈ l)) as [Hin'|Hout'];
        try reflexivity.
      - apply elem_of_cons in Hin as [->|Hin]; [contradiction Hne; reflexivity | contradiction].
      - exfalso. apply Hout. right. exact Hin'. }
    rewrite Hd. destruct (decide (allocation !! i = Some x)); simpl length; lia.
Qed.

Lemma count_owned_insert (allocation : list nat) (m item a b x : nat) :
  item < m -> allocation !! item = Some b ->
  Z.of_nat (count_owned (<[item := a]> allocation) m x) =
    (Z.of_nat (count_owned allocation m x) + holds (Some a) x - holds (Some b) x)%Z.
Proof.
  intros Hitem Hb. unfold count_owned.
  rewrite (filter_insert_length allocation item a b x (seq 0 m) Hb (NoDup_seq 0 m)).
  rewrite decide_True by (apply list_elem_of_In, in_seq; lia). lia.
Qed.

Lemma execute_swap_counts (m : nat) (allocation swapping_list best_path
    allocation' : list nat) :
  length allocation = m -> NoDup swapping_list ->
  (forall k item, swapping_list !! k = Some item ->
     exists giver, best_path !! (k + 1) = Some giver /\
                   allocation !! item = Some giver) ->
  execute_swap allocation swapping_list best_path = Ok allocation' ->
  forall x,
    Z.of_nat (count_owned allocation' m x) =
      (Z.of_nat (count_owned allocation m x) + holds (best_path !! 0%nat) x
       - holds (best_path !! length swapping_list) x)%Z.
Proof.
  intros Hlen Hnd Hown Hrun. unfold execute_swap in Hrun.
  pose (P := fun (j : nat) (al : list nat) =>
    (forall item, item ∉ take j swapping_list -> al !! item = allocation !! item) /\
    forall x, Z.of_nat (count_owned al m x) =
      (Z.of_nat (count_owned allocation m x) + holds (best_path !! 0%nat) x
       - holds (best_path !! j) x)%Z).
  assert (HP : P (length swapping_list) allocation').
  { refine (foldM_seq_invariant P _ _ _ _ _ _ Hrun).
    - split; [reflexivity|]. intros x. lia.
    - intros j al al' Hj [Hsame Hcount] Hstep.
      apply bind_Ok in Hstep as (agent & Hagent & Hstep). apply get_Ok in Hagent.
      apply bind_Ok in Hstep as (swapped & Hswapped & Hstep). apply get_Ok in Hswapped.
      apply set_Ok in Hstep as [Hlt ->].
      destruct (Hown j swapped Hswapped) as (giver & Hgiver & Howner).
      assert (Hfresh : swapped ∉ take j swapping_list).
      { intros Hin. apply list_elem_of_lookup in Hin as [i Hi].
        apply lookup_take_Some in Hi as [Hi Hij].
        pose proof (NoDup_lookup swapping_list i j swapped Hnd Hi Hswapped). lia. }
      split.
      + intros item Hitem.
        rewrite (take_S_r swapping_list j swapped Hswapped) in Hitem.
        rewrite list_lookup_insert_ne.
        * apply Hsame. intros Hin. apply Hitem, elem_of_app. left. exact Hin.
        * intros <-. apply Hitem, elem_of_app. right. left.
      + intros x.
        rewrite (count_owned_insert al m swapped agent giver x).
        * rewrite Hcount. replace (S j) with (j + 1) by lia.
          rewrite Hagent, Hgiver. lia.
        * apply lookup_lt_Some in Howner. lia.
        * rewrite (Hsame swapped Hfresh). exact Howner. }
  exact (proj2 HP).
Qed.

Section Pass.

Context `{PyNum}.
Variable n m : nat.
Variable preferences : list (list bool).
Variable allocation : list nat.
Hypothesis Hpreferences : wf_preferences n m preferences.
Hypothesis Hallocation : wf_allocation n m allocation.

(** A selected path stands in the table of the present envy graph. *)
Lemma select_table (best_path : list nat) :
  select n m preferences allocation = Ok best_path -> best_path <> [] ->
  exists edges g apsp s t row,
    calculate_item_envy_relations n m preferences allocation = Ok edges /\
    shorten_envy_list n edges = Ok g /\
    solve_APSP n g = Ok apsp /\
    apsp !! s = Some row /\ row !! t = Some best_path /\
    find_path n m apsp allocation = Ok best_path.
Proof.
  intros Hselect Hne. unfold select in Hselect.
  apply bind_Ok in Hselect as (edges & Hedges & Hselect).
  apply bind_Ok in Hselect as (g & Hg & Hselect).
  apply bind_Ok in Hselect as (apsp & Hapsp & Hfind).
  destruct (find_path_spec n m allocation apsp best_path Hfind Hne)
    as (_ & _ & k & _ & _ & _ & Hk & _).
  assert (Hin : best_path ∈ concat apsp) by (apply list_elem_of_lookup; eauto).
  apply elem_of_concat in Hin as (row & Hin & Hrow).
  apply list_elem_of_lookup in Hrow as [s Hs].
  apply list_elem_of_lookup in Hin as [t Ht].
  exists edges, g, apsp, s, t, row. auto 10.
Qed.

Lemma select_ends (best_path : list nat) :
  select n m preferences allocation = Ok best_path -> best_path <> [] ->
  NoDup best_path /\
  exists receiver giver,
    head best_path = Some receiver /\ last best_path = Some giver /\
    receiver < n /\ giver < n /\ giver <> receiver.
Proof.
  intros Hselect Hne.
  destruct (select_table best_path Hselect Hne)
    as (edges & g & apsp & s & t & row & Hedges & Hg & Hapsp & Hrow & Ht & _).
  split; [exact (solve_APSP_NoDup n g apsp s t row best_path Hapsp Hrow Ht)|].
  destruct (solve_APSP_spec n g apsp Hapsp) as [_ Hrows].
  destruct (Hrows s row Hrow) as (Hs & Hlen & _ & Hpaths).
  destruct (Hpaths t best_path Ht Hne) as (Hts & Hhead & Hlast & _).
  exists s, t. split; [exact Hhead|]. split; [exact Hlast|]. split; [exact Hs|].
  split; [|exact Hts]. apply lookup_lt_Some in Ht. lia.
Qed.

(** The pass after a selection: the plan has one item for every hop, no
    item twice, each held by the giver of its hop and liked by its taker;
    the allocation changes at the items of the plan only, where the taker
    of the hop becomes the owner. *)
Lemma reallocate_plan (best_path allocation' swapping_plan : list nat) :
  select n m preferences allocation = Ok best_path -> best_path <> [] ->
  reallocate n preferences allocation best_path = Ok (allocation', swapping_plan) ->
  execute_swap allocation swapping_plan best_path = Ok allocation' /\
  wf_allocation n m allocation' /\
  NoDup swapping_plan /\
  length swapping_plan = length best_path - 1 /\
  forall k item, swapping_plan !! k = Some item ->
    exists taker giver, best_path !! k = Some taker /\
      best_path !! (k + 1) = Some giver /\
      allocation !! item = Some giver /\ likes preferences taker item.
Proof.
  intros Hselect Hne Hrun.
  destruct (reallocate_spec n m preferences allocation Hpreferences Hallocation
              best_path Hselect Hne)
    as (allocation0 & plan0 & Hrun0 & Hwf & Hlen & Hhops).
  rewrite Hrun in Hrun0. injection Hrun0 as <- <-.
  assert (Hitems : forall k item, swapping_plan !! k = Some item ->
    exists taker giver, best_path !! k = Some taker /\
      best_path !! (k + 1) = Some giver /\
      allocation !! item = Some giver /\ likes preferences taker item).
  { intros k item Hk.
    assert (Hklt : k < length best_path - 1).
    { apply lookup_lt_Some in Hk. lia. }
    destruct (lookup_lt_is_Some_2 best_path k) as [taker Htaker]; [lia|].
    destruct (lookup_lt_is_Some_2 best_path (k + 1)) as [giver Hgiver]; [lia|].
    destruct (Hhops k taker giver Htaker Hgiver) as (item' & Hitem' & Hal & Hlikes).
    assert (item' = item) as -> by congruence.
    exists taker, giver. auto. }
  split; [|split; [exact Hwf|split; [|split; [exact Hlen | exact Hitems]]]].
  - unfold reallocate in Hrun.
    apply bind_Ok in Hrun as (possessions & _ & Hrun).
    apply bind_Ok in Hrun as (plan & _ & Hrun).
    apply bind_Ok in Hrun as (al & Hswap & Hrun).
    injection Hrun as <- <-. exact Hswap.
  - destruct (select_ends best_path Hselect Hne) as [Hnd _].
    apply NoDup_alt. intros i j item Hi Hj.
    destruct (Hitems i item Hi) as (_ & gi & _ & Hgi & Hali & _).
    destruct (Hitems j item Hj) as (_ & gj & _ & Hgj & Halj & _).
    assert (gi = gj) as -> by congruence.
    pose proof (NoDup_lookup best_path (i + 1) (j + 1) gj Hnd Hgi Hgj). lia.
Qed.

(** After the pass the counts are those that [fast_nsw] rated: one more
    for the head of the path, one less for its last agent. *)
Lemma reallocate_valuations (best_path allocation' swapping_plan : list nat)
    (agent_values : list Z) (receiver giver : nat) :
  select n m preferences allocation = Ok best_path -> best_path <> [] ->
  reallocate n preferences allocation best_path = Ok (allocation', swapping_plan) ->
  calculate_agent_valuations n m allocation = Ok agent_values ->
  head best_path = Some receiver -> last best_path = Some giver ->
  calculate_agent_valuations n m allocation'
    = Ok (hypothetical_counts agent_values receiver giver).
Proof.
  intros Hselect Hne Hrun Hvals Hhead Hlast.
  destruct (reallocate_plan best_path allocation' swapping_plan Hselect Hne Hrun)
    as (Hswap & Hwf & Hnd & Hlen & Hitems).
  destruct (calculate_agent_valuations_total n m allocation' Hwf) as [values' Hvals'].
  rewrite Hvals'. f_equal.
  destruct (calculate_agent_valuations_spec n m allocation agent_values Hvals)
    as [Hl Hcount].
  destruct (calculate_agent_valuations_spec n m allocation' values' Hvals')
    as [Hl' Hcount'].
  assert (Hcounts := execute_swap_counts m allocation swapping_plan best_path
                       allocation' (proj1 Hallocation) Hnd).
  rewrite head_lookup in Hhead. rewrite last_lookup in Hlast.
  replace (pred (length best_path)) with (length swapping_plan) in Hlast by lia.
  apply list_eq. intros a.
  destruct (decide (a < n)) as [Ha|Ha].
  - rewrite (hypothetical_counts_lookup agent_values receiver giver a _ (Hcount a Ha)).
    rewrite (Hcount' a Ha). f_equal.
    rewrite Hcounts; [| |exact Hswap].
    + rewrite Hhead, Hlast. unfold holds.
      destruct (decide (Some receiver = Some a)) as [Hr|Hr],
               (decide (a = receiver)) as [Hr'|Hr']; try congruence;
      destruct (decide (Some giver = Some a)) as [Hg|Hg],
               (decide (a = giver)) as [Hg'|Hg']; try congruence; lia.
    + intros k item Hk.
      destruct (Hitems k item Hk) as (_ & g & _ & Hg & Hal & _). eauto.
  - rewrite !lookup_ge_None_2; [reflexivity| |lia].
    unfold hypothetical_counts. rewrite !length_alter. lia.
Qed.

(** A pass that swaps raises the welfare: the new allocation has the
    welfare that [find_path] gave to the path, which is above the old. *)
Lemma reallocate_improves (best_path allocation' swapping_plan : list nat) :
  select n m preferences allocation = Ok best_path -> best_path <> [] ->
  reallocate n preferences allocation best_path = Ok (allocation', swapping_plan) ->
  exists w w',
    welfare n m allocation = Ok w /\
    welfare n m allocation' = Ok w' /\
    fast_nsw n m best_path allocation = Ok w' /\
    num_gt w' w = Ok true.
Proof.
  intros Hselect Hne Hrun.
  destruct (select_table best_path Hselect Hne)
    as (edges & g & apsp & s & t & row & _ & _ & _ & _ & _ & Hfind).
  destruct (find_path_spec n m allocation apsp best_path Hfind Hne)
    as (agent_values & w & _ & w' & Hvals & Hw & _ & Hw' & Hgt & _).
  destruct (select_ends best_path Hselect Hne)
    as (_ & receiver & giver & Hhead & Hlast & Hr & Hg & _).
  exists w, w'. unfold welfare. rewrite Hvals. cbn [bind].
  split; [exact Hw|]. split; [|split; [exact Hw' | exact Hgt]].
  rewrite (reallocate_valuations best_path allocation' swapping_plan agent_values
             receiver giver Hselect Hne Hrun Hvals Hhead Hlast).
  cbn [bind].
  rewrite <- (fast_nsw_spec n m best_path allocation agent_values receiver giver
                Hvals Hhead Hlast Hr Hg).
  exact Hw'.
Qed.

(** A pass that swaps wastes nothing that was not wasted before. *)
Lemma reallocate_nonwasteful (best_path allocation' swapping_plan : list nat) :
  select n m preferences allocation = Ok best_path -> best_path <> [] ->
  reallocate n preferences allocation best_path = Ok (allocation', swapping_plan) ->
  forall item a, allocation' !! item = Some a ->
    allocation !! item = Some a \/ likes preferences a item.
Proof.
  intros Hselect Hne Hrun item a Ha.
  destruct (reallocate_plan best_path allocation' swapping_plan Hselect Hne Hrun)
    as (Hswap & _ & Hnd & _ & Hitems).
  destruct (execute_swap_spec allocation swapping_plan best_path allocation' Hswap)
    as (_ & _ & Hsame & Hmoved).
  destruct (decide (item ∈ swapping_plan)) as [Hin|Hout].
  - right. apply list_elem_of_lookup in Hin as [k Hk].
    destruct (Hitems k item Hk) as (taker & _ & Htaker & _ & _ & Hlikes).
    rewrite (Hmoved Hnd k item Hk), Htaker in Ha. congruence.
  - left. rewrite <- (Hsame item Hout). exact Ha.
Qed.

End Pass.

Section Progress.

Context `{PyNum}.
Variable n m : nat.
Variable preferences : list (list bool).
Hypothesis Hpreferences : wf_preferences n m preferences.

Lemma solve_loop_welfare (runs : nat) :
  forall run allocation swaps out,
    wf_allocation n m allocation ->
    solve_loop n m runs run preferences allocation swaps = Ok out ->
    (final_allocation out = allocation /\ global_swapping_list out = swaps) \/
    (exists w w', welfare n m allocation = Ok w /\
       welfare n m (final_allocation out) = Ok w' /\ num_gt w' w = Ok true).
Proof.
  induction runs as [|runs IH]; intros run allocation swaps out Ha Hrun.
  - injection Hrun as <-. left. auto.
  - rewrite solve_loop_pass in Hrun.
    apply bind_Ok in Hrun as (best_path & Hselect & Hrun).
    destruct best_path as [|b best_path].
    + injection Hrun as <-. left. auto.
    + apply bind_Ok in Hrun as ([allocation' plan] & Hstep & Hrun). simpl in Hrun.
      destruct (reallocate_improves n m preferences allocation Hpreferences Ha
                  (b :: best_path) allocation' plan Hselect)
        as (w & w' & Hw & Hw' & _ & Hgt); [discriminate | exact Hstep|].
      destruct (reallocate_plan n m preferences allocation Hpreferences Ha
                  (b :: best_path) allocation' plan Hselect)
        as (_ & Hwf & _); [discriminate | exact Hstep|].
      right. destruct (IH _ _ _ _ Hwf Hrun) as [[-> _]|(v & v' & Hv & Hv' & Hgt')].
      * exists w, w'. auto.
      * exists w, v'. split; [exact Hw|]. split; [exact Hv'|].
        assert (v = w') as -> by congruence.
        exact (num_gt_trans v' w' w Hgt' Hgt).
Qed.

Lemma solve_loop_nonwasteful (runs : nat) :
  forall run allocation swaps out,
    wf_allocation n m allocation ->
    nonwasteful preferences allocation ->
    solve_loop n m runs run preferences allocation swaps = Ok out ->
    wf_allocation n m (final_allocation out) /\
    nonwasteful preferences (final_allocation out).
Proof.
  induction runs as [|runs IH]; intros run allocation swaps out Ha Hnw Hrun.
  - injection Hrun as <-. auto.
  - rewrite solve_loop_pass in Hrun.
    apply bind_Ok in Hrun as (best_path & Hselect & Hrun).
    destruct best_path as [|b best_path].
    + injection Hrun as <-. auto.
    + apply bind_Ok in Hrun as ([allocation' plan] & Hstep & Hrun). simpl in Hrun.
      destruct (reallocate_plan n m preferences allocation Hpreferences Ha
                  (b :: best_path) allocation' plan Hselect)
        as (_ & Hwf & _); [discriminate | exact Hstep|].
      refine (IH _ _ _ _ Hwf _ Hrun).
      intros item a Hitem.
      destruct (reallocate_nonwasteful n m preferences allocation Hpreferences Ha
                  (b :: best_path) allocation' plan Hselect) with (item := item) (a := a)
        as [Hold|Hlikes]; [discriminate | exact Hstep | exact Hitem | |exact Hlikes].
      exact (Hnw item a Hold).
Qed.

End Progress.

(** *** An allocation without envy *)

Section EnvyFree.

Context `{PyNum}.
Variable n m : nat.
Hypothesis Hagents : 0 < n.
Hypothesis Hpow : forall p, (0 <= p)%Z ->
  exists y, int_pow p (int_truediv 1 (Z.of_nat n)) = Ok y.
Hypothesis Hgt : forall x y, exists b, num_gt x y = Ok b.
Variable preferences : list (list bool).
Variable allocation : list nat.
Hypothesis Hpreferences : wf_preferences n m preferences.
Hypothesis Hallocation : wf_allocation n m allocation.
Hypothesis Hfree : forall a b, ~ envies m preferences allocation a b.


End EnvyFree.

(** *** Possessions and valuations *)

Lemma StronglySorted_seq (a len : nat) : StronglySorted lt (seq a len).
Proof.
  revert a. induction len as [|len IH]; intros a; [constructor|].
  simpl. constructor; [apply IH|].
  apply Forall_forall. intros x Hx. apply list_elem_of_In, in_seq in Hx. lia.
Qed.

Lemma StronglySorted_filter {A : Type} (R : relation A) (P : A -> Prop)
    `{forall x, Decision (P x)} (l : list A) :
  StronglySorted R l -> StronglySorted R (filter P l).
Proof.
  induction 1 as [|x l Hl IH Hx]; [constructor|].
  rewrite filter_cons. destruct (decide (P x)); [|exact IH].
  constructor; [exact IH|].
  apply Forall_forall. intros y Hy. apply list_elem_of_filter in Hy as [_ Hy].
  rewrite Forall_forall in Hx. exact (Hx y Hy).
Qed.

Lemma possession_filter (n m : nat) (allocation : list nat)
    (possessions : list (list nat)) (a : nat) (own : list nat) :
  length allocation = m ->
  find_possession n allocation = Ok possessions ->
  possessions !! a = Some own ->
  own = filter (fun item => allocation !! item = Some a) (seq 0 m).
Proof.
  intros Hlen Hrun Hown.
  destruct (find_possession_spec n allocation possessions Hrun) as (_ & _ & Hrows).
  destruct (Hrows a own Hown) as [Hsorted Hmem].
  apply (StronglySorted_unique_strong lt); [intros; lia | exact Hsorted | |].
  - apply StronglySorted_filter, StronglySorted_seq.
  - apply NoDup_Permutation.
    + apply StronglySorted_lt_NoDup. exact Hsorted.
    + apply NoDup_filter, NoDup_seq.
    + intros item. rewrite Hmem, list_elem_of_filter, list_elem_of_In, in_seq.
      split; [|tauto]. intros Hitem. split; [exact Hitem|].
      apply lookup_lt_Some in Hitem. lia.
Qed.

Lemma total_map_add {A : Type} (f g : A -> Z) (l : list A) :
  total (map (fun x => (f x + g x)%Z) l) = (total (map f l) + total (map g l))%Z.
Proof. induction l as [|x l IH]; simpl; [reflexivity|]. unfold total in *. simpl. lia. Qed.

Lemma total_indicator (b : nat) (l : list nat) :
  NoDup l ->
  total (map (fun a => if decide (Some b = Some a) then 1%Z else 0%Z) l)
    = if decide (b ∈ l) then 1%Z else 0%Z.
Proof.
  induction 1 as [|a l Ha Hnd IH]; [reflexivity|].
  unfold total in *. simpl. rewrite IH.
  destruct (decide (Some b = Some a)) as [Heq|Hne].
  - injection Heq as ->. rewrite decide_False by exact Ha.
    rewrite decide_True by left. reflexivity.
  - destruct (decide (b ∈ l)) as [Hin|Hout].
    + rewrite decide_True by (right; exact Hin). reflexivity.
    + rewrite decide_False; [reflexivity|].
      intros Hin. apply elem_of_cons in Hin as [->|Hin]; [apply Hne; reflexivity | exact (Hout Hin)].
Qed.

Lemma total_counts (n : nat) (allocation : list nat) (k : nat) :
  k <= length allocation ->
  (forall item a, allocation !! item = Some a -> a < n) ->
  total (map (fun a => Z.of_nat (count_owned allocation k a)) (seq 0 n)) = Z.of_nat k.
Proof.
  intros Hk Hbound. induction k as [|k IH].
  - unfold count_owned. simpl.
    induction (seq 0 n) as [|a l IHl]; [reflexivity|]. unfold total in *. simpl. exact IHl.
  - assert (Hstep : forall a, Z.of_nat (count_owned allocation (S k) a) =
              (Z.of_nat (count_owned allocation k a)
               + (if decide (allocation !! k = Some a) then 1 else 0))%Z).
    { intros a. unfold count_owned. rewrite seq_S, filter_app, length_app. simpl.
      rewrite filter_cons, filter_nil.
      destruct (decide (allocation !! k = Some a)); simpl; lia. }
    rewrite (map_ext _ _ Hstep), total_map_add, IH by lia.
    destruct (lookup_lt_is_Some_2 allocation k) as [b Hb]; [lia|].
    rewrite Hb, total_indicator by apply NoDup_seq.
    rewrite decide_True; [lia|].
    apply list_elem_of_In, in_seq. specialize (Hbound k b Hb). lia.
Qed.

Lemma valuations_map (n m : nat) (allocation : list nat) (agent_values : list Z) :
  calculate_agent_valuations n m allocation = Ok agent_values ->
  agent_values = map (fun a => Z.of_nat (count_owned allocation m a)) (seq 0 n).
Proof.
  intros Hrun.
  destruct (calculate_agent_valuations_spec n m allocation agent_values Hrun)
    as [Hlen Hcount].
  apply list_eq. intros a. rewrite list_lookup_fmap.
  destruct (decide (a < n)) as [Ha|Ha].
  - rewrite (Hcount a Ha), lookup_seq_lt by exact Ha. reflexivity.
  - rewrite lookup_ge_None_2 by lia.
    rewrite lookup_seq_ge by lia. reflexivity.
Qed.

(** *** The envy relations before they are shortened *)

Lemma envy_list_envied (n m : nat) (preferences : list (list bool)) (x : nat)
    (allocation : list nat) :
  wf_preferences n m preferences -> x < n -> length allocation = m ->
  envy_list m preferences x allocation = Ok (envied preferences allocation m x).
Proof.
  intros Hp Hx Hlen. unfold envy_list, envied.
  match goal with |- context [foldM ?f ?b (seq 0 ?k)] =>
    destruct (foldM_seq_total
      (fun k items => items = filter (fun item => likesb preferences x item = true /\
                                        allocation !! item <> Some x) (seq 0 k))
      f k b) as (items & Hrun & ->)
  end; [reflexivity| |exact Hrun].
  intros k items Hk ->.
  destruct (likesb_get n m preferences x k Hp Hx Hk) as (row & -> & Hb).
  cbn [bind]. rewrite Hb. cbn [bind].
  rewrite seq_S, filter_app, filter_cons, filter_nil. simpl.
  destruct (likesb preferences x k) eqn:Hlikes.
  - destruct (get_lt allocation k) as (owner & -> & Howner); [lia|]. cbn [bind].
    destruct (decide (owner <> x)) as [Hne|He].
    + rewrite decide_True by (split; [reflexivity | congruence]).
      eexists. split; reflexivity.
    + rewrite decide_False; [eexists; split; [reflexivity | rewrite app_nil_r; reflexivity]|].
      intros [_ Hn]. apply Hn. rewrite Howner. f_equal.
      destruct (decide (owner = x)); [assumption | contradiction].
  - rewrite decide_False by (intros [Ht _]; discriminate Ht).
    eexists. split; [reflexivity | rewrite app_nil_r; reflexivity].
Qed.

Lemma mapM_get_omap (allocation items : list nat) :
  (forall item, item ∈ items -> item < length allocation) ->
  mapM (fun specific_item => get allocation specific_item) items
    = Ok (omap (fun item => allocation !! item) items).
Proof.
  induction items as [|item items IH]; intros Hitems; [reflexivity|].
  cbn [mapM]. destruct (get_lt allocation item) as (owner & -> & Howner);
    [apply Hitems; left|].
  cbn [bind]. rewrite IH by (intros i Hi; apply Hitems; right; exact Hi).
  cbn [bind]. simpl. rewrite Howner. reflexivity.
Qed.

Lemma envied_count (preferences : list (list bool)) (allocation : list nat)
    (a b : nat) (l : list nat) :
  b <> a ->
  length (filter (fun x => x = b)
            (omap (fun item => allocation !! item)
               (filter (fun item => likesb preferences a item = true /\
                                    allocation !! item <> Some a) l)))
  = length (filter (fun item => likesb preferences a item = true /\
                                allocation !! item = Some b) l).
Proof.
  intros Hba. induction l as [|item l IH]; [reflexivity|].
  rewrite !filter_cons.
  destruct (decide (likesb preferences a item = true /\ allocation !! item <> Some a))
    as [[Hl Hn]|Hno].
  - simpl.
    match goal with |- context [list_omap ?A ?B ?f ?k] =>
      change (list_omap A B f k) with (omap f k)
    end.
    destruct (allocation !! item) as [owner|] eqn:Howner.
    + rewrite filter_cons. destruct (decide (owner = b)) as [->|Hob].
      * rewrite decide_True by auto. simpl. rewrite IH. reflexivity.
      * rewrite decide_False by (intros [_ Heq]; congruence). exact IH.
    + rewrite decide_False by (intros [_ Heq]; congruence). exact IH.
  - rewrite decide_False; [exact IH|].
    intros [Hl Heq]. apply Hno. split; [exact Hl | congruence].
Qed.

Lemma envy_relations_rows (n m : nat) (preferences : list (list bool))
    (allocation : list nat) :
  wf_preferences n m preferences -> length allocation = m ->
  exists edges,
    calculate_item_envy_relations n m preferences allocation = Ok edges /\
    length edges = n /\
    forall a row, edges !! a = Some row ->
      row = omap (fun item => allocation !! item)
              (envied preferences allocation m a).
Proof.
  intros Hp Hlen.
  destruct (envy_graph_total n m preferences allocation Hp Hlen)
    as (edges & _ & Hedges & _).
  exists edges. split; [exact Hedges|].
  unfold calculate_item_envy_relations in Hedges.
  apply bind_Ok in Hedges as (big & Hbig & Hedges).
  apply mapM_seq_lookup in Hbig as [Hlbig Hrows].
  unfold envied_agents in Hedges. apply mapM_Ok in Hedges.
  split; [rewrite <- (Forall2_length _ _ _ Hedges); exact Hlbig|].
  intros a row Hrow.
  destruct (Forall2_lookup_r _ _ _ _ _ Hedges Hrow) as (items & Hitems & Hmap).
  pose proof (Hrows a items Hitems) as Henvy.
  rewrite (envy_list_envied n m) in Henvy;
    [|exact Hp|apply lookup_lt_Some in Hitems; lia|exact Hlen].
  injection Henvy as <-.
  rewrite mapM_get_omap in Hmap.
  - injection Hmap as <-. reflexivity.
  - intros item Hitem. unfold envied in Hitem.
    apply list_elem_of_filter in Hitem as [_ Hitem].
    apply list_elem_of_In, in_seq in Hitem. lia.
Qed.

(** * The claims of the specification *)

(** Checks of well-formedness that compute. *)
Lemma wf_preferences_check (n m : nat) (preferences : list (list bool)) :
  length preferences = n ->
  forallb (fun row => length row =? m) preferences = true ->
  wf_preferences n m preferences.
Proof.
  intros Hlen Hrows. split; [exact Hlen|]. intros a row Ha.
  rewrite forallb_forall in Hrows. apply Nat.eqb_eq, Hrows.
  apply list_elem_of_In, list_elem_of_lookup. eauto.
Qed.

Lemma wf_allocation_check (n m : nat) (allocation : list nat) :
  length allocation = m ->
  forallb (fun a => a <? n) allocation = true ->
  wf_allocation n m allocation.
Proof.
  intros Hlen Hall. split; [exact Hlen|]. intros item a Ha.
  rewrite forallb_forall in Hall. apply Nat.ltb_lt, Hall.
  apply list_elem_of_In, list_elem_of_lookup. eauto.
Qed.

(** ** C1: the paths that the APSP solver stores *)

(** C1, as stated, fails: on the graph with the edges 0 -> 1 and 1 -> 2,
    [bfs] from source 0 stores [0; 1] for node 1 and [0; 1; 2] for node 2.
    The stored paths begin with the source; they are not [1] and [1; 2]. *)
Lemma bfs_stores_source_first :
  bfs 3 [[1]; [2]; []] 0 = Ok [[]; [0; 1]; [0; 1; 2]].
Proof. vm_compute. reflexivity. Qed.

(** C1, amended: on that graph [bfs] from source 0 stores [0; 1] for node 1
    and [0; 1; 2] for node 2, and from source 2 it stores the empty path for
    every node.  On every well-formed graph [bfs] returns, on no graph does
    it stop for lack of fuel, and every non-empty path that any run stores
    for a node [t] begins with the source, ends with [t], belongs to a node
    other than the source and follows edges of the graph. *)
Theorem bfs_paths_from_source :
  bfs 3 [[1]; [2]; []] 0 = Ok [[]; [0; 1]; [0; 1; 2]] /\
  bfs 3 [[1]; [2]; []] 2 = Ok [[]; []; []] /\
  (forall n g s, wf_graph n g -> s < n -> exists paths, bfs n g s = Ok paths) /\
  (forall n g s e, bfs n g s = Raise e -> e <> OutOfFuel) /\
  (forall n g s paths t p,
     bfs n g s = Ok paths -> paths !! t = Some p -> p <> [] ->
     head p = Some s /\ last p = Some t /\ t <> s /\ walk g p).
Proof.
  split; [vm_compute; reflexivity|]. split; [vm_compute; reflexivity|].
  split; [exact bfs_total|]. split; [exact bfs_fuel|].
  intros n g s paths t p Hrun Hp Hne.
  destruct (bfs_spec n g s paths Hrun) as (_ & _ & _ & Hpaths).
  destruct (Hpaths t p Hp Hne) as (Hts & Hhead & Hlast & Hwalk). auto.
Qed.

Lemma bfs_paths_from_source_witness :
  head [0; 1; 2] = Some 0 /\ last [0; 1; 2] = Some 2 /\ 2 <> 0 /\
  walk [[1]; [2]; []] [0; 1; 2].
Proof.
  apply (proj2 (proj2 (proj2 (proj2 bfs_paths_from_source)))
           3 [[1]; [2]; []] 0 [[]; [0; 1]; [0; 1; 2]] 2 [0; 1; 2]).
  - vm_compute. reflexivity.
  - reflexivity.
  - discriminate.
Defined.

(** ** C2: a hop without an item *)

(** C2, as stated, fails.  Agent 0 likes nothing that agent 1 holds, agent 1
    likes item 2 of agent 2.  Along the path [0; 1; 2] [pick_items] returns
    the one item [2] without raising, and [execute_swap] then gives item 2 to
    agent 0, the head of the path, not to agent 1. *)
Lemma pick_items_skips_hop :
  (possessions <- find_possession 3 [0; 1; 2];;
   swapping_plan <-
     pick_items [0; 1; 2] [0; 1; 2] possessions
       [[true; false; false]; [false; true; true]; [false; false; true]];;
   allocation' <- execute_swap [0; 1; 2] swapping_plan [0; 1; 2];;
   Ok (swapping_plan, allocation'))
  = Ok ([2], [0; 1; 0]).
Proof. vm_compute. reflexivity. Qed.

(** C2, amended: the executor has no check for a hop without an item.  On
    an instance with agents [n], items [m] and a path of agents,
    [pick_items] raises nothing and returns the items of the hops that have
    one, in the order of the hops, so at most [len(path) - 1] of them; a hop
    whose giver holds nothing that the taker likes adds nothing; and
    [execute_swap] applies the list without raising and leaves an
    allocation of the instance. *)
Theorem pick_items_never_raises (n m : nat) (preferences : list (list bool))
    (allocation : list nat) (possessions : list (list nat)) (best_path : list nat) :
  wf_preferences n m preferences ->
  wf_allocation n m allocation ->
  find_possession n allocation = Ok possessions ->
  (forall a, a ∈ best_path -> a < n) ->
  exists swapping_plan allocation',
    pick_items best_path allocation possessions preferences = Ok swapping_plan /\
    swapping_plan =
      omap (hop_pick preferences possessions best_path)
           (seq 0 (length best_path - 1)) /\
    length swapping_plan <= length best_path - 1 /\
    (forall k taker giver own,
       best_path !! k = Some taker -> best_path !! (k + 1) = Some giver ->
       possessions !! giver = Some own ->
       (forall item, item ∈ own -> ~ likes preferences taker item) ->
       hop_pick preferences possessions best_path k = None) /\
    execute_swap allocation swapping_plan best_path = Ok allocation' /\
    wf_allocation n m allocation'.
Proof.
  intros Hp Ha Hposs Hpath.
  destruct (find_possession_spec n allocation possessions Hposs)
    as (Hlposs & _ & Hown).
  assert (Hitems : forall a own item,
    possessions !! a = Some own -> item ∈ own -> item < m).
  { intros a own item Hao Hin. apply (Hown a own Hao) in Hin.
    apply lookup_lt_Some in Hin. rewrite (proj1 Ha) in Hin. exact Hin. }
  pose proof (pick_items_spec n m preferences best_path allocation possessions
                Hp Hlposs Hitems Hpath) as Hpick.
  set (plan := omap (hop_pick preferences possessions best_path)
                    (seq 0 (length best_path - 1))) in *.
  assert (Hlen : length plan <= length best_path - 1).
  { unfold plan. etransitivity; [apply omap_length_le|].
    rewrite length_seq. reflexivity. }
  destruct (execute_swap_wf n m allocation plan best_path Ha Hpath)
    as (allocation' & Hswap & Hwf).
  - intros item Hin. apply list_elem_of_omap in Hin as (k & _ & Hk).
    destruct (hop_pick_owned _ _ _ _ _ _ _ Hposs Hk) as (_ & giver & _ & _ & Hal & _).
    apply lookup_lt_Some in Hal. rewrite (proj1 Ha) in Hal. exact Hal.
  - lia.
  - exists plan, allocation'. split; [exact Hpick|]. split; [reflexivity|].
    split; [exact Hlen|]. split; [|split; assumption].
    intros k taker giver own Htaker Hgiver Ho Hnone.
    unfold hop_pick. rewrite Htaker, Hgiver, Ho.
    destruct (first_liked preferences taker own) as [item|] eqn:Hfind; [|reflexivity].
    destruct (first_liked_Some _ _ _ _ Hfind) as (l1 & l2 & -> & Hitem & _).
    exfalso. apply (Hnone item); [|apply likesb_likes; exact Hitem].
    apply elem_of_app. right. left.
Qed.

Lemma pick_items_never_raises_witness :
  exists swapping_plan allocation',
    pick_items [0; 1; 2] [0; 1; 2] [[0]; [1]; [2]]
      [[true; false; false]; [false; true; true]; [false; false; true]]
      = Ok swapping_plan /\
    swapping_plan =
      omap (hop_pick [[true; false; false]; [false; true; true]; [false; false; true]]
              [[0]; [1]; [2]] [0; 1; 2])
           (seq 0 (length [0; 1; 2] - 1)) /\
    length swapping_plan <= length [0; 1; 2] - 1 /\
    (forall k taker giver own,
       [0; 1; 2] !! k = Some taker -> [0; 1; 2] !! (k + 1) = Some giver ->
       [[0]; [1]; [2]] !! giver = Some own ->
       (forall item, item ∈ own ->
          ~ likes [[true; false; false]; [false; true; true]; [false; false; true]]
              taker item) ->
       hop_pick [[true; false; false]; [false; true; true]; [false; false; true]]
         [[0]; [1]; [2]] [0; 1; 2] k = None) /\
    execute_swap [0; 1; 2] swapping_plan [0; 1; 2] = Ok allocation' /\
    wf_allocation 3 3 allocation'.
Proof.
  apply (pick_items_never_raises 3 3).
  - apply wf_preferences_check; reflexivity.
  - apply wf_allocation_check; reflexivity.
  - vm_compute. reflexivity.
  - intros a Ha. apply list_elem_of_In in Ha. simpl in Ha. lia.
Defined.

(** ** C4: what the selector rates and which path it returns *)

(** C4.  For a path whose first agent is [receiver] and whose last agent is
    [giver], [fast_nsw] rates the counts of the allocation with one added
    at [receiver] and one taken at [giver], all other entries untouched: the
    counts [2; 2; 2] and the path [0; 2] give [3; 2; 1].  A path that
    [find_path] returns stands in the table, its rating is strictly above
    the welfare of the present allocation, no path of the table is rated
    above it, and no non-empty path before it in the order of the loops
    (rows, then columns) has the same rating.  And the first path of the
    maximal rating is returned whenever that rating is above the present
    welfare: when the [k]-th path [p] of the table rates above every path
    before it and above [0], where [current_maximum] starts, when no path
    after it rates above it (a later path of the same rating does not
    replace it), and when its rating is above the present welfare, a
    [find_path] that returns returns [p]. *)
Theorem find_path_selects_first_maximum `{PyNum} (n m : nat) (allocation : list nat) :
  (forall path agent_values receiver giver,
     calculate_agent_valuations n m allocation = Ok agent_values ->
     head path = Some receiver -> last path = Some giver ->
     receiver < n -> giver < n ->
     fast_nsw n m path allocation =
       split_nsw n (hypothetical_counts agent_values receiver giver) /\
     forall i c, agent_values !! i = Some c ->
       hypothetical_counts agent_values receiver giver !! i =
         Some (c + (if decide (i = receiver) then 1 else 0)
                 - (if decide (i = giver) then 1 else 0))%Z) /\
  (calculate_agent_valuations 3 6 [0; 0; 1; 1; 2; 2] = Ok [2; 2; 2]%Z /\
   fast_nsw 3 6 [0; 2] [0; 0; 1; 1; 2; 2] = split_nsw 3 [3; 2; 1]%Z) /\
  (forall apsp_matrix best_path,
     find_path n m apsp_matrix allocation = Ok best_path ->
     best_path <> [] ->
     exists agent_values current_nsw k w,
       calculate_agent_valuations n m allocation = Ok agent_values /\
       split_nsw n agent_values = Ok current_nsw /\
       concat apsp_matrix !! k = Some best_path /\
       fast_nsw n m best_path allocation = Ok w /\
       num_gt w current_nsw = Ok true /\
       (forall q w', q ∈ concat apsp_matrix -> q <> [] ->
          fast_nsw n m q allocation = Ok w' -> num_gt w' w <> Ok true) /\
       (forall j q, j < k -> concat apsp_matrix !! j = Some q -> q <> [] ->
          fast_nsw n m q allocation <> Ok w)) /\
  (forall apsp_matrix k p agent_values current_nsw w,
     (exists best_path, find_path n m apsp_matrix allocation = Ok best_path) ->
     calculate_agent_valuations n m allocation = Ok agent_values ->
     split_nsw n agent_values = Ok current_nsw ->
     concat apsp_matrix !! k = Some p -> p <> [] ->
     fast_nsw n m p allocation = Ok w ->
     num_gt w current_nsw = Ok true ->
     num_gt w (num_of_int 0) = Ok true ->
     (forall j q w', j < k -> concat apsp_matrix !! j = Some q -> q <> [] ->
        fast_nsw n m q allocation = Ok w' -> num_gt w w' = Ok true) ->
     (forall j q w', k < j -> concat apsp_matrix !! j = Some q -> q <> [] ->
        fast_nsw n m q allocation = Ok w' -> num_gt w' w <> Ok true) ->
     find_path n m apsp_matrix allocation = Ok p).
Proof.
  split; [|split; [|split]].
  - intros path agent_values receiver giver Hvals Hhead Hlast Hr Hg.
    split.
    + exact (fast_nsw_spec n m path allocation agent_values receiver giver
               Hvals Hhead Hlast Hr Hg).
    + intros i c Hc. exact (hypothetical_counts_lookup agent_values receiver giver i c Hc).
  - split; [vm_compute; reflexivity|].
    apply (fast_nsw_spec 3 6 [0; 2] [0; 0; 1; 1; 2; 2] [2; 2; 2]%Z 0 2);
      [vm_compute; reflexivity | reflexivity | reflexivity | lia | lia].
  - intros apsp_matrix best_path Hfind Hne.
    exact (find_path_spec n m allocation apsp_matrix best_path Hfind Hne).
  - intros apsp_matrix k p agent_values current_nsw w [best_path Hfind]
      Hvals Hnsw Hk Hne Hw Hbase Hzero Hbefore Hafter.
    rewrite Hfind. f_equal.
    exact (find_path_first n m allocation apsp_matrix k p best_path agent_values
             current_nsw w Hfind Hvals Hnsw Hk Hne Hw Hbase Hzero Hbefore Hafter).
Qed.

(** Two paths of one rating: agents 1 and 2 hold an item each and like
    item 0 of agent 0, who holds four.  The paths [1; 0] and [2; 0] rate the
    counts [3; 2; 1] and [3; 1; 2]; the first of them is returned.  And a
    table with one path, which is returned and rates above the welfare of
    the allocation. *)
Lemma find_path_selects_first_maximum_witness :
  @find_path 3 6 rat_num
    [[[]; []; []]; [[1; 0]; []; []]; [[2; 0]; []; []]] [0; 0; 0; 0; 1; 2]
    = Ok [1; 0] /\
  exists agent_values current_nsw k w,
    calculate_agent_valuations 2 3 [0; 0; 0] = Ok agent_values /\
    @split_nsw 2 rat_num agent_values = Ok current_nsw /\
    concat [[[]; []]; [[1; 0]; []]] !! k = Some [1; 0] /\
    @fast_nsw 2 3 rat_num [1; 0] [0; 0; 0] = Ok w /\
    num_gt w current_nsw = Ok true /\
    (forall q w', q ∈ concat [[[]; []]; [[1; 0]; []]] -> q <> [] ->
       @fast_nsw 2 3 rat_num q [0; 0; 0] = Ok w' -> num_gt w' w <> Ok true) /\
    (forall j q, j < k -> concat [[[]; []]; [[1; 0]; []]] !! j = Some q -> q <> [] ->
       @fast_nsw 2 3 rat_num q [0; 0; 0] <> Ok w).
Proof.
  split.
  - eapply (proj2 (proj2 (proj2 (@find_path_selects_first_maximum rat_num 3 6
                                   [0; 0; 0; 0; 1; 2])))
              [[[]; []; []]; [[1; 0]; []; []]; [[2; 0]; []; []]] 3 [1; 0]).
    + eexists. vm_compute. reflexivity.
    + vm_compute. reflexivity.
    + vm_compute. reflexivity.
    + reflexivity.
    + discriminate.
    + vm_compute. reflexivity.
    + vm_compute. reflexivity.
    + vm_compute. reflexivity.
    + intros j q w' Hj Hq Hne.
      destruct j as [|[|[|j]]]; simpl in Hq; try lia;
        injection Hq as <-; contradiction.
    + intros j q w' Hj Hq Hne Hw'.
      destruct j as [|[|[|[|[|[|[|[|[|j]]]]]]]]]; simpl in Hq; try lia;
        try discriminate Hq; injection Hq as <-; try contradiction.
      vm_compute in Hw'. injection Hw' as <-. vm_compute. discriminate.
  - apply (proj1 (proj2 (proj2 (@find_path_selects_first_maximum rat_num 2 3
                                  [0; 0; 0])))
             [[[]; []]; [[1; 0]; []]] [1; 0]).
    + vm_compute. reflexivity.
    + discriminate.
Defined.

(** ** C5: the envy graph *)

(** C5.  For an [n] by [m] matrix of preferences and an allocation of the
    [m] items the builder returns a graph with a row for each agent; the row
    of agent [a] is strictly ascending, hence free of duplicates, holds [b]
    exactly when [b] is another agent with an item that [a] likes, and never
    holds [a] itself. *)
Theorem envy_graph_sorted_exact (n m : nat) (preferences : list (list bool))
    (allocation : list nat) :
  wf_preferences n m preferences ->
  length allocation = m ->
  exists edges g,
    calculate_item_envy_relations n m preferences allocation = Ok edges /\
    shorten_envy_list n edges = Ok g /\
    length g = n /\
    forall a l, g !! a = Some l ->
      StronglySorted lt l /\ NoDup l /\
      (forall b, b ∈ l <->
         b <> a /\ exists item, item < m /\ likes preferences a item /\
                                allocation !! item = Some b) /\
      a ∉ l.
Proof.
  intros Hp Hlen.
  destruct (envy_graph_total n m preferences allocation Hp Hlen)
    as (edges & g & Hedges & Hg).
  exists edges, g. split; [exact Hedges|]. split; [exact Hg|].
  destruct (envy_graph_spec n m preferences allocation edges g Hedges Hg)
    as [Hlg Hrows].
  split; [exact Hlg|]. intros a l Hl.
  destruct (Hrows a l Hl) as (Hsorted & Hnodup & Hmem).
  split; [exact Hsorted|]. split; [exact Hnodup|]. split; [exact Hmem|].
  intros Hin. apply Hmem in Hin as [Hne _]. contradiction.
Qed.

Lemma envy_graph_sorted_exact_witness :
  exists edges g,
    calculate_item_envy_relations 3 3
      [[true; false; false]; [false; true; false]; [true; true; true]] [0; 1; 2]
      = Ok edges /\
    shorten_envy_list 3 edges = Ok g /\
    length g = 3 /\
    forall a l, g !! a = Some l ->
      StronglySorted lt l /\ NoDup l /\
      (forall b, b ∈ l <->
         b <> a /\ exists item, item < 3 /\
           likes [[true; false; false]; [false; true; false]; [true; true; true]]
             a item /\
           [0; 1; 2] !! item = Some b) /\
      a ∉ l.
Proof.
  apply envy_graph_sorted_exact.
  - apply wf_preferences_check; reflexivity.
  - reflexivity.
Defined.

(** ** C7: one item for every hop of a stored path *)

(** C7.  On a well-formed instance the envy graph, the table of paths and
    the possessions are computed without an exception, and for every
    non-empty path [p] of the table [pick_items] returns [len(p) - 1]
    items.  The [k]-th one comes from the inner loop leaving by [break]: it
    belongs to [p[k + 1]], [p[k]] likes it, and [p[k]] likes no item of
    [p[k + 1]] with a smaller index. *)
Theorem pick_items_one_per_hop (n m : nat) (preferences : list (list bool))
    (allocation : list nat) :
  wf_preferences n m preferences ->
  wf_allocation n m allocation ->
  exists edges g apsp_matrix possessions,
    calculate_item_envy_relations n m preferences allocation = Ok edges /\
    shorten_envy_list n edges = Ok g /\
    solve_APSP n g = Ok apsp_matrix /\
    find_possession n allocation = Ok possessions /\
    forall s row t p,
      apsp_matrix !! s = Some row -> row !! t = Some p -> p <> [] ->
      exists items,
        pick_items p allocation possessions preferences = Ok items /\
        length items = length p - 1 /\
        forall k taker giver,
          p !! k = Some taker -> p !! (k + 1) = Some giver ->
          exists item own, items !! k = Some item /\
            possessions !! giver = Some own /\
            pick_item preferences p k own = Ok (Some item) /\
            allocation !! item = Some giver /\ likes preferences taker item /\
            forall item', item' < item -> allocation !! item' = Some giver ->
              ~ likes preferences taker item'.
Proof.
  intros Hp Ha.
  destruct (envy_graph_total n m preferences allocation Hp (proj1 Ha))
    as (edges & g & Hedges & Hg).
  pose proof (envy_graph_wf n m preferences allocation edges g Ha Hedges Hg) as Hwf.
  destruct (solve_APSP_total n g Hwf) as [apsp Hapsp].
  destruct (find_possession_total n m allocation Ha) as [possessions Hposs].
  exists edges, g, apsp, possessions.
  split; [exact Hedges|]. split; [exact Hg|]. split; [exact Hapsp|].
  split; [exact Hposs|]. intros s row t p Hrow Ht Hne.
  destruct (solve_APSP_spec n g apsp Hapsp) as [_ Hrows].
  destruct (Hrows s row Hrow) as (Hs & _ & _ & Hpaths).
  destruct (Hpaths t p Ht Hne) as (_ & Hhead & _ & Hwalk).
  exact (pick_items_walk n m preferences allocation edges g possessions p s
           Hp Ha Hedges Hg Hposs Hwalk Hhead Hs).
Qed.

Lemma pick_items_one_per_hop_witness :
  exists edges g apsp_matrix possessions,
    calculate_item_envy_relations 3 3
      [[true; true; false]; [false; true; true]; [false; false; true]] [0; 1; 2]
      = Ok edges /\
    shorten_envy_list 3 edges = Ok g /\
    solve_APSP 3 g = Ok apsp_matrix /\
    find_possession 3 [0; 1; 2] = Ok possessions /\
    forall s row t p,
      apsp_matrix !! s = Some row -> row !! t = Some p -> p <> [] ->
      exists items,
        pick_items p [0; 1; 2] possessions
          [[true; true; false]; [false; true; true]; [false; false; true]]
          = Ok items /\
        length items = length p - 1 /\
        forall k taker giver,
          p !! k = Some taker -> p !! (k + 1) = Some giver ->
          exists item own, items !! k = Some item /\
            possessions !! giver = Some own /\
            pick_item [[true; true; false]; [false; true; true]; [false; false; true]]
              p k own = Ok (Some item) /\
            [0; 1; 2] !! item = Some giver /\
            likes [[true; true; false]; [false; true; true]; [false; false; true]]
              taker item /\
            forall item', item' < item -> [0; 1; 2] !! item' = Some giver ->
              ~ likes [[true; true; false]; [false; true; true]; [false; false; true]]
                  taker item'.
Proof.
  apply pick_items_one_per_hop.
  - apply wf_preferences_check; reflexivity.
  - apply wf_allocation_check; reflexivity.
Defined.

(** ** C9: the allocation stays total and exclusive *)

(** C9.  Let every item be allocated to one of the [n] agents, let the path
    consist of agents and the swapping list of items, not more of them than
    the path is long.  Then [execute_swap] returns an allocation of the same
    items to the agents, and in the possessions computed from it every item
    stands in the list of exactly one agent, once. *)
Theorem execute_swap_keeps_partition (n m : nat)
    (allocation swapping_list best_path : list nat) :
  wf_allocation n m allocation ->
  (forall a, a ∈ best_path -> a < n) ->
  (forall item, item ∈ swapping_list -> item < m) ->
  length swapping_list <= length best_path ->
  exists allocation' possessions,
    execute_swap allocation swapping_list best_path = Ok allocation' /\
    length allocation' = m /\
    (forall item, item < m -> exists a, a < n /\ allocation' !! item = Some a) /\
    find_possession n allocation' = Ok possessions /\
    length possessions = n /\
    (forall a own, possessions !! a = Some own ->
       NoDup own /\ forall item, item ∈ own -> item < m) /\
    (forall item, item < m ->
       exists a own, possessions !! a = Some own /\ item ∈ own /\
         forall a' own', possessions !! a' = Some own' -> item ∈ own' -> a' = a).
Proof.
  intros Ha Hpath Hitems Hlen.
  destruct (execute_swap_wf n m allocation swapping_list best_path
              Ha Hpath Hitems Hlen) as (allocation' & Hswap & Hwf).
  destruct (find_possession_total n m allocation' Hwf) as [possessions Hposs].
  destruct (find_possession_spec n allocation' possessions Hposs)
    as (Hlposs & _ & Hown).
  destruct Hwf as [Hl Hbound].
  exists allocation', possessions.
  split; [exact Hswap|]. split; [exact Hl|]. split; [|split; [exact Hposs|]].
  - intros item Hitem.
    destruct (lookup_lt_is_Some_2 allocation' item) as [a Hal]; [lia|].
    exists a. split; [exact (Hbound item a Hal) | exact Hal].
  - split; [exact Hlposs|]. split.
    + intros a own Ho. destruct (Hown a own Ho) as [Hsorted Hmem].
      split; [apply StronglySorted_lt_NoDup; exact Hsorted|].
      intros item Hin. apply Hmem, lookup_lt_Some in Hin. lia.
    + intros item Hitem.
      destruct (lookup_lt_is_Some_2 allocation' item) as [a Hal]; [lia|].
      destruct (lookup_lt_is_Some_2 possessions a) as [own Ho].
      { rewrite Hlposs. exact (Hbound item a Hal). }
      exists a, own. split; [exact Ho|]. split; [apply (Hown a own Ho); exact Hal|].
      intros a' own' Ho' Hin. apply (Hown a' own' Ho') in Hin. congruence.
Qed.

Lemma execute_swap_keeps_partition_witness :
  exists allocation' possessions,
    execute_swap [0; 0; 0] [0] [1; 0] = Ok allocation' /\
    length allocation' = 3 /\
    (forall item, item < 3 -> exists a, a < 2 /\ allocation' !! item = Some a) /\
    find_possession 2 allocation' = Ok possessions /\
    length possessions = 2 /\
    (forall a own, possessions !! a = Some own ->
       NoDup own /\ forall item, item ∈ own -> item < 3) /\
    (forall item, item < 3 ->
       exists a own, possessions !! a = Some own /\ item ∈ own /\
         forall a' own', possessions !! a' = Some own' -> item ∈ own' -> a' = a).
Proof.
  apply execute_swap_keeps_partition.
  - apply wf_allocation_check; reflexivity.
  - intros a Ha. apply list_elem_of_In in Ha. simpl in Ha. lia.
  - intros item Hitem. apply list_elem_of_In in Hitem. simpl in Hitem. lia.
  - simpl. lia.
Defined.

(** ** C8: the cap on the passes *)

(** C8.  For all numbers of agents and items, a run of the loop that
    returns has computed the cap [round(2 * n * (m + 1) * log(n * m))] and
    made at most that many passes.  When it was not left by convergence it
    made exactly as many passes and swaps as the cap allows; and a loop
    with no pass left returns, without an exception, the allocation and the
    swaps it has at that point. *)
Theorem solve_within_cap `{PyNum} (n m : nat) (preferences : list (list bool)) :
  (forall allocation out,
     solve n m preferences allocation = Ok out ->
     exists l bound cap,
       np_log (Z.of_nat n * Z.of_nat m)%Z = Ok l /\
       int_mul (2 * Z.of_nat n * (Z.of_nat m + 1))%Z l = Ok bound /\
       py_round bound = Ok cap /\
       (Z.of_nat (iterations out) <= Z.max 0 cap)%Z /\
       (reason out = BUDGET_EXHAUSTED ->
          Z.of_nat (iterations out) = Z.max 0 cap /\
          length (global_swapping_list out) = iterations out)) /\
  (forall run allocation swaps,
     solve_loop n m 0 run preferences allocation swaps =
       Ok (Outcome allocation swaps run BUDGET_EXHAUSTED)).
Proof.
  split; [|reflexivity].
  intros allocation out Hrun. unfold solve, runtime in Hrun.
  apply bind_Ok in Hrun as (bound & Hbound & Hrun).
  apply bind_Ok in Hbound as (l & Hl & Hbound).
  apply bind_Ok in Hrun as (cap & Hcap & Hrun).
  exists l, bound, cap. split; [exact Hl|]. split; [exact Hbound|].
  split; [exact Hcap|].
  apply solve_loop_bound in Hrun as [Hiter Hout].
  split; [lia|]. intros Hreason. rewrite Hreason in Hout. simpl in Hout. lia.
Qed.

Lemma solve_within_cap_witness :
  exists l bound cap,
    @np_log rat_num (Z.of_nat 3 * Z.of_nat 3)%Z = Ok l /\
    @int_mul rat_num (2 * Z.of_nat 3 * (Z.of_nat 3 + 1))%Z l = Ok bound /\
    @py_round rat_num bound = Ok cap /\
    Z.le (Z.of_nat (iterations (Outcome [0; 1; 2] [] 1 CONVERGED))) (Z.max 0 cap) /\
    (reason (Outcome [0; 1; 2] [] 1 CONVERGED) = BUDGET_EXHAUSTED ->
       Z.of_nat (iterations (Outcome [0; 1; 2] [] 1 CONVERGED)) = Z.max 0 cap /\
       length (global_swapping_list (Outcome [0; 1; 2] [] 1 CONVERGED)) =
         iterations (Outcome [0; 1; 2] [] 1 CONVERGED)).
Proof.
  apply (proj1 (@solve_within_cap rat_num 3 3
                  [[true; false; false]; [false; true; false]; [true; true; true]])
           [0; 1; 2]).
  vm_compute. reflexivity.
Defined.

(** ** C10: a converged allocation is a fixed point *)

(** C10.  When a run of the loop has converged, a second run on the
    allocation it returned, with the same preferences, converges in its
    first pass: it makes no swap and returns that allocation.  More
    generally, on an allocation for which the selector returns the empty
    path, a loop with a pass to make stops in the first one, with no swap
    and the allocation unchanged. *)
Theorem solve_idempotent `{PyNum} (n m : nat) (preferences : list (list bool)) :
  (forall allocation out,
     solve n m preferences allocation = Ok out ->
     reason out = CONVERGED ->
     solve n m preferences (final_allocation out) =
       Ok (Outcome (final_allocation out) [] 1 CONVERGED)) /\
  (forall allocation runs,
     select n m preferences allocation = Ok [] ->
     solve_loop n m (S runs) 0 preferences allocation [] =
       Ok (Outcome allocation [] 1 CONVERGED)).
Proof.
  split.
  - intros allocation out Hrun Hreason. unfold solve in *.
    apply bind_Ok in Hrun as (bound & Hbound & Hrun).
    apply bind_Ok in Hrun as (cap & Hcap & Hrun).
    rewrite Hbound. simpl. rewrite Hcap. simpl.
    exact (solve_loop_again n m (Z.to_nat cap) preferences allocation out
             Hrun Hreason).
  - intros allocation runs Hselect.
    rewrite solve_loop_pass, Hselect. reflexivity.
Qed.

Lemma solve_idempotent_witness :
  @solve 2 3 rat_num [[true; true; true]; [true; true; true]]
    (final_allocation (Outcome [1; 0; 0] [[0]] 2 CONVERGED)) =
  Ok (Outcome (final_allocation (Outcome [1; 0; 0] [[0]] 2 CONVERGED)) [] 1 CONVERGED).
Proof.
  apply (proj1 (@solve_idempotent rat_num 2 3
                  [[true; true; true]; [true; true; true]]) [0; 0; 0]).
  - vm_compute. reflexivity.
  - reflexivity.
Defined.

(** * Further properties *)

(** ** The loop raises nothing *)

(** On a well-formed instance with at least one agent, and with float
    operations that raise nothing, no pass of the loop raises.  A pass is
    the selection of a path and, when the path is not empty, a
    reallocation along it.  The selection is computed for every allocation
    of the instance; for a selected path that is not empty the pass finds
    one item for every hop, held by the giver of the hop and liked by its
    taker, and leaves an allocation of the instance.  So the loop returns
    for every number of passes, and what it returns is an allocation of
    the instance. *)
Theorem solve_loop_total `{PyNum} (n m : nat) (preferences : list (list bool)) :
  0 < n ->
  (forall p, (0 <= p)%Z ->
     exists y, int_pow p (int_truediv 1 (Z.of_nat n)) = Ok y) ->
  (forall x y, exists b, num_gt x y = Ok b) ->
  wf_preferences n m preferences ->
  (forall runs run allocation swaps,
     solve_loop n m (S runs) run preferences allocation swaps =
       (best_path <- select n m preferences allocation;;
        match best_path with
        | [] => Ok (Outcome allocation swaps (run + 1) CONVERGED)
        | _ :: _ =>
            step <- reallocate n preferences allocation best_path;;
            solve_loop n m runs (run + 1) preferences (fst step)
              (swaps ++ [snd step])
        end)) /\
  (forall allocation,
     wf_allocation n m allocation ->
     exists best_path,
       select n m preferences allocation = Ok best_path /\
       (best_path <> [] ->
        exists allocation' swapping_plan,
          reallocate n preferences allocation best_path
            = Ok (allocation', swapping_plan) /\
          wf_allocation n m allocation' /\
          length swapping_plan = length best_path - 1 /\
          forall k taker giver,
            best_path !! k = Some taker -> best_path !! (k + 1) = Some giver ->
            exists item, swapping_plan !! k = Some item /\
              allocation !! item = Some giver /\ likes preferences taker item)) /\
  (forall runs run allocation swaps,
     wf_allocation n m allocation ->
     exists out,
       solve_loop n m runs run preferences allocation swaps = Ok out /\
       wf_allocation n m (final_allocation out)).
Proof.
  intros Hn Hpow Hgt Hp. split; [|split].
  - intros runs run allocation swaps. apply solve_loop_pass.
  - intros allocation Ha.
    destruct (select_total n m Hn Hpow Hgt preferences allocation Hp Ha)
      as [best_path Hselect].
    exists best_path. split; [exact Hselect|]. intros Hne.
    exact (reallocate_spec n m preferences allocation Hp Ha best_path Hselect Hne).
  - intros runs. induction runs as [|runs IH]; intros run allocation swaps Ha.
    + eexists. split; [reflexivity | exact Ha].
    + rewrite solve_loop_pass.
      destruct (select_total n m Hn Hpow Hgt preferences allocation Hp Ha)
        as [best_path Hselect].
      rewrite Hselect. simpl. destruct best_path as [|b best_path].
      * eexists. split; [reflexivity | exact Ha].
      * destruct (reallocate_spec n m preferences allocation Hp Ha (b :: best_path)
                    Hselect) as (allocation' & plan & -> & Hwf & _); [discriminate|].
        simpl. apply IH. exact Hwf.
Qed.

Lemma solve_loop_total_witness :
  (forall runs run allocation swaps,
     @solve_loop 2 3 rat_num (S runs) run [[true; true; true]; [true; true; true]]
       allocation swaps =
       (best_path <- @select rat_num 2 3 [[true; true; true]; [true; true; true]]
                       allocation;;
        match best_path with
        | [] => Ok (Outcome allocation swaps (run + 1) CONVERGED)
        | _ :: _ =>
            step <- reallocate 2 [[true; true; true]; [true; true; true]]
                      allocation best_path;;
            @solve_loop 2 3 rat_num runs (run + 1)
              [[true; true; true]; [true; true; true]] (fst step)
              (swaps ++ [snd step])
        end)) /\
  (forall allocation,
     wf_allocation 2 3 allocation ->
     exists best_path,
       @select rat_num 2 3 [[true; true; true]; [true; true; true]] allocation
         = Ok best_path /\
       (best_path <> [] ->
        exists allocation' swapping_plan,
          reallocate 2 [[true; true; true]; [true; true; true]] allocation best_path
            = Ok (allocation', swapping_plan) /\
          wf_allocation 2 3 allocation' /\
          length swapping_plan = length best_path - 1 /\
          forall k taker giver,
            best_path !! k = Some taker -> best_path !! (k + 1) = Some giver ->
            exists item, swapping_plan !! k = Some item /\
              allocation !! item = Some giver /\
              likes [[true; true; true]; [true; true; true]] taker item)) /\
  (forall runs run allocation swaps,
     wf_allocation 2 3 allocation ->
     exists out,
       @solve_loop 2 3 rat_num runs run [[true; true; true]; [true; true; true]]
         allocation swaps = Ok out /\
       wf_allocation 2 3 (final_allocation out)).
Proof.
  apply (@solve_loop_total rat_num 2 3).
  - lia.
  - intros p Hp. simpl. unfold RatNum.q_int_pow.
    destruct (p <? 0)%Z eqn:Hneg; [apply Z.ltb_lt in Hneg; lia|].
    simpl. eauto.
  - intros x y. simpl. eauto.
  - apply wf_preferences_check; reflexivity.
Defined.

(** ** The welfare evaluator, block by block *)

(** The evaluator roots the product of every block of twenty values, and
    of the values that remain after the last full block, and multiplies the
    roots; the blocks are the vector cut in order, and a zero among the
    values makes the product of its block zero. *)
Theorem split_nsw_chunks `{PyNum} (n : nat) (agent_values : list Z) :
  0 < n ->
  split_nsw n agent_values =
    foldM (root_and_multiply n) (num_of_int 1) (map product (chunks agent_values)) /\
  concat (chunks agent_values) = agent_values /\
  (forall i ch, chunks agent_values !! i = Some ch ->
     if decide (S i = length (chunks agent_values)) then length ch < 20
     else length ch = 20) /\
  (0%Z ∈ agent_values -> 0%Z ∈ map product (chunks agent_values)).
Proof.
  intros Hn. split; [|split; [|split]].
  - rewrite <- (split_nsw_from n Hn agent_values [] 0 (num_of_int 1) eq_refl)
      by (simpl; lia).
    unfold split_nsw. simpl.
    destruct (foldM (split_nsw_step n) (0, 1%Z, num_of_int 1) agent_values)
      as [[[counter p] rooted]|e]; [|reflexivity].
    simpl. rewrite decide_False by lia. reflexivity.
  - apply chunks_from_concat.
  - apply chunks_from_lengths. simpl. lia.
  - intros Hzero. apply chunks_from_zero. exact Hzero.
Qed.

Lemma split_nsw_chunks_witness :
  @split_nsw 7 rat_num [2; 0; 3]%Z =
    foldM (@root_and_multiply rat_num 7) (num_of_int 1)
      (map product (chunks [2; 0; 3]%Z)) /\
  concat (chunks [2; 0; 3]%Z) = [2; 0; 3]%Z /\
  (forall i ch, chunks [2; 0; 3]%Z !! i = Some ch ->
     if decide (S i = length (chunks [2; 0; 3]%Z)) then length ch < 20
     else length ch = 20) /\
  (0%Z ∈ [2; 0; 3]%Z -> 0%Z ∈ map product (chunks [2; 0; 3]%Z)).
Proof.
  apply (@split_nsw_chunks rat_num 7 [2; 0; 3]%Z). lia.
Defined.

(** ** The path table holds shortest paths *)

(** Whenever some walk of the graph leads from agent [s] to another agent
    [t], the table of [solve_APSP] holds at row [s], column [t] a walk from
    [s] to [t], and no walk from [s] to [t] has fewer nodes than it. *)
Theorem solve_APSP_shortest (n : nat) (g : list (list nat))
    (apsp : list (list (list nat))) (s t : nat) (l : list nat) :
  solve_APSP n g = Ok apsp ->
  s < n -> t <> s ->
  walk g l -> head l = Some s -> last l = Some t ->
  exists row p,
    apsp !! s = Some row /\ row !! t = Some p /\
    head p = Some s /\ last p = Some t /\ walk g p /\
    length p <= length l /\
    forall l', walk g l' -> head l' = Some s -> last l' = Some t ->
      length p <= length l'.
Proof.
  intros Hrun Hs Hts Hwalk Hhead Hlast.
  destruct (solve_APSP_spec n g apsp Hrun) as [Hlen Hrows].
  unfold solve_APSP in Hrun. apply mapM_seq_lookup in Hrun as [_ Hbfs].
  destruct (lookup_lt_is_Some_2 apsp s) as [row Hrow]; [lia|].
  pose proof (Hbfs s row Hrow) as Hsearch.
  destruct (bfs_shortest n g s row t l Hsearch Hwalk Hhead Hlast Hts)
    as (p & Hp & Hne & Hle).
  destruct (Hrows s row Hrow) as (_ & _ & _ & Hpaths).
  destruct (Hpaths t p Hp Hne) as (_ & Hhp & Hlp & Hwp).
  exists row, p. repeat (split; [assumption|]).
  intros l' Hwalk' Hhead' Hlast'.
  destruct (bfs_shortest n g s row t l' Hsearch Hwalk' Hhead' Hlast' Hts)
    as (p' & Hp' & _ & Hle').
  assert (p' = p) as -> by congruence. exact Hle'.
Qed.

Lemma solve_APSP_shortest_witness :
  exists row p,
    [[[]; [0; 1]; [0; 2]]; [[]; []; [1; 2]]; [[]; []; []]] !! 0 = Some row /\
    row !! 2 = Some p /\
    head p = Some 0 /\ last p = Some 2 /\ walk [[1; 2]; [2]; []] p /\
    length p <= length [0; 1; 2] /\
    forall l', walk [[1; 2]; [2]; []] l' -> head l' = Some 0 -> last l' = Some 2 ->
      length p <= length l'.
Proof.
  apply (solve_APSP_shortest 3 [[1; 2]; [2]; []]
           [[[]; [0; 1]; [0; 2]]; [[]; []; [1; 2]]; [[]; []; []]] 0 2 [0; 1; 2]).
  - vm_compute. reflexivity.
  - lia.
  - discriminate.
  - intros k a b Ha Hb.
    destruct k as [|[|k]]; simpl in Ha, Hb.
    + injection Ha as <-. injection Hb as <-.
      exists [1; 2]. split; [reflexivity | left].
    + injection Ha as <-. injection Hb as <-.
      exists [2]. split; [reflexivity | left].
    + destruct k; discriminate Hb.
  - reflexivity.
  - reflexivity.
Defined.

(** Checks that compute, for the instances below. *)
Lemma nonwasteful_check (preferences : list (list bool)) (allocation : list nat) :
  forallb (fun item => likesb preferences (default 0 (allocation !! item)) item)
    (seq 0 (length allocation)) = true ->
  nonwasteful preferences allocation.
Proof.
  intros Hall item a Ha. rewrite forallb_forall in Hall.
  apply likesb_likes.
  specialize (Hall item). rewrite Ha in Hall. apply Hall.
  apply in_seq. apply lookup_lt_Some in Ha. lia.
Qed.

Lemma wf_graph_check (n : nat) (g : list (list nat)) :
  length g = n ->
  forallb (fun nbrs => forallb (fun b => b <? n) nbrs) g = true ->
  wf_graph n g.
Proof.
  intros Hlen Hall. split; [exact Hlen|]. intros a nbrs b Hnbrs Hb.
  rewrite forallb_forall in Hall.
  assert (Hrow : forallb (fun b => b <? n) nbrs = true).
  { apply Hall, list_elem_of_In, list_elem_of_lookup. eauto. }
  rewrite forallb_forall in Hrow. apply Nat.ltb_lt, Hrow, list_elem_of_In, Hb.
Qed.


(** ** The instance generator *)

(** With at least two agents, preferences of the right shape and a last
    agent who likes every item, [random_allocation] returns for every state
    of the generator; what it returns gives every item to an agent, no
    slot is left at ["x"], and every item to an agent who likes it. *)
Theorem random_allocation_nonwasteful `{PyRandom} (n m : nat)
    (preferences : list (list bool)) (g : rng) :
  2 <= n -> wf_preferences n m preferences ->
  (forall item, item < m -> likes preferences (n - 1) item) ->
  exists allocation g',
    random_allocation n m preferences g
      = Ok (map (fun a => Some (Z.of_nat a)) allocation, g') /\
    wf_allocation n m allocation /\ nonwasteful preferences allocation.
Proof.
  intros Hn Hp Hlast.
  destruct (allocation_from_spec n m preferences (Ok (Z.of_nat n - 2)%Z)
              (Z.of_nat n - 2)%Z Hp eq_refl) with (g := g)
    as (allocation & g' & Hrun & Hwf & Hlikes & _); [lia|].
  exists allocation, g'. split; [exact Hrun|]. split; [exact Hwf|].
  intros item a Ha. destruct (Hlikes item a Ha) as [Hl| ->]; [exact Hl|].
  apply Hlast. apply lookup_lt_Some in Ha. rewrite (proj1 Hwf) in Ha. exact Ha.
Qed.

Lemma random_allocation_nonwasteful_witness :
  exists allocation g',
    @random_allocation 2 3 rat_num lcg_random
      [[true; false; false]; [true; true; true]] 1%Z
      = Ok (map (fun a => Some (Z.of_nat a)) allocation, g') /\
    wf_allocation 2 3 allocation /\
    nonwasteful [[true; false; false]; [true; true; true]] allocation.
Proof.
  apply (@random_allocation_nonwasteful rat_num lcg_random 2 3).
  - lia.
  - apply wf_preferences_check; reflexivity.
  - apply likes_all_check. reflexivity.
Defined.

(** With fewer than two agents and more items than agents,
    [random_allocation] raises [ValueError]: the first item that the first
    part left over is drawn for with [randint(0, agent_quantity - 2)], whose
    range is empty. *)
Theorem random_allocation_few_agents `{PyRandom} (n m : nat)
    (preferences : list (list bool)) (g : rng) :
  n <= 1 -> n < m -> wf_preferences n m preferences ->
  random_allocation n m preferences g = Raise ValueError.
Proof.
  intros Hn Hm Hp. exact (random_allocation_few n m preferences Hn g Hm Hp).
Qed.

Lemma random_allocation_few_agents_witness :
  @random_allocation 1 2 rat_num lcg_random [[true; true]] 1%Z = Raise ValueError.
Proof.
  apply (@random_allocation_few_agents rat_num lcg_random 1 2).
  - lia.
  - lia.
  - apply wf_preferences_check; reflexivity.
Defined.

(** The first part of [random_allocation] serves the agents in order, one
    item each: an agent [a] who likes more than [a] items holds, in the
    allocation returned, an item that it likes. *)
Theorem random_allocation_serves `{PyRandom} (n m : nat)
    (preferences : list (list bool)) (g : rng) :
  2 <= n -> wf_preferences n m preferences ->
  exists allocation g',
    random_allocation n m preferences g
      = Ok (map (fun a => Some (Z.of_nat a)) allocation, g') /\
    forall a, a < n -> a < liked_count preferences m a ->
      exists item, allocation !! item = Some a /\ likes preferences a item.
Proof.
  intros Hn Hp.
  destruct (allocation_from_spec n m preferences (Ok (Z.of_nat n - 2)%Z)
              (Z.of_nat n - 2)%Z Hp eq_refl) with (g := g)
    as (allocation & g' & Hrun & _ & _ & Hserved); [lia|].
  exists allocation, g'. split; [exact Hrun | exact Hserved].
Qed.

Lemma random_allocation_serves_witness :
  exists allocation g',
    @random_allocation 2 3 rat_num lcg_random
      [[true; false; false]; [true; true; true]] 1%Z
      = Ok (map (fun a => Some (Z.of_nat a)) allocation, g') /\
    forall a, a < 2 ->
      a < liked_count [[true; false; false]; [true; true; true]] 3 a ->
      exists item, allocation !! item = Some a /\
        likes [[true; false; false]; [true; true; true]] a item.
Proof.
  apply (@random_allocation_serves rat_num lcg_random 2 3).
  - lia.
  - apply wf_preferences_check; reflexivity.
Defined.

(** [stupid_allocation] draws from [randint(0, round(agent_quantity / 5))].
    Where that bound is an agent, it returns, as [random_allocation] does,
    an allocation of every item to an agent who likes it. *)
Theorem stupid_allocation_nonwasteful `{PyRandom} (n m : nat)
    (preferences : list (list bool)) (g : rng) (r : Z) :
  py_round (int_truediv (Z.of_nat n) 5) = Ok r ->
  (0 <= r < Z.of_nat n)%Z ->
  wf_preferences n m preferences ->
  (forall item, item < m -> likes preferences (n - 1) item) ->
  exists allocation g',
    stupid_allocation n m preferences g
      = Ok (map (fun a => Some (Z.of_nat a)) allocation, g') /\
    wf_allocation n m allocation /\ nonwasteful preferences allocation.
Proof.
  intros Hr Hrange Hp Hlast.
  destruct (allocation_from_spec n m preferences
              (py_round (int_truediv (Z.of_nat n) 5)) r Hp Hr Hrange) with (g := g)
    as (allocation & g' & Hrun & Hwf & Hlikes & _).
  exists allocation, g'. split; [exact Hrun|]. split; [exact Hwf|].
  intros item a Ha. destruct (Hlikes item a Ha) as [Hl| ->]; [exact Hl|].
  apply Hlast. apply lookup_lt_Some in Ha. rewrite (proj1 Hwf) in Ha. exact Ha.
Qed.

Lemma stupid_allocation_nonwasteful_witness :
  exists allocation g',
    @stupid_allocation 3 3 rat_num lcg_random
      [[false; false; false]; [false; true; false]; [true; true; true]] 1%Z
      = Ok (map (fun a => Some (Z.of_nat a)) allocation, g') /\
    wf_allocation 3 3 allocation /\
    nonwasteful [[false; false; false]; [false; true; false]; [true; true; true]]
      allocation.
Proof.
  apply (@stupid_allocation_nonwasteful rat_num lcg_random 3 3 _ _ 1%Z).
  - vm_compute. reflexivity.
  - lia.
  - apply wf_preferences_check; reflexivity.
  - apply likes_all_check. reflexivity.
Defined.

(** [create_agents] returns [agent_quantity] empty rows.  With no agent,
    [create_agent_preferences] raises [IndexError] at
    [agent_list[agent_quantity - 1]]; with at least one, and a comparison
    of the coin flip that raises nothing, it fills the rows, whatever the
    flips are, to an [agent_quantity] by [item_quantity] matrix whose last
    agent likes every item. *)
Theorem create_agent_preferences_well_formed `{PyRandom} (n m : nat)
    (liking_probability : num) (g : rng) :
  create_agents n = replicate n [] /\
  create_agent_preferences 0 m liking_probability (create_agents 0) g
    = Raise IndexError /\
  (0 < n ->
   (forall r, exists b, num_gt liking_probability r = Ok b) ->
   exists preferences g',
     create_agent_preferences n m liking_probability (create_agents n) g
       = Ok (preferences, g') /\
     wf_preferences n m preferences /\
     forall item, item < m -> likes preferences (n - 1) item).
Proof.
  split; [apply create_agents_replicate|]. split; [reflexivity|].
  intros Hn Hflip.
  apply (create_agent_preferences_spec n m liking_probability Hflip); [exact Hn|].
  rewrite create_agents_replicate. apply length_replicate.
Qed.

Lemma create_agent_preferences_well_formed_witness :
  exists preferences g',
    @create_agent_preferences 2 3 rat_num lcg_random (1 # 2)%Q (create_agents 2) 5%Z
      = Ok (preferences, g') /\
    wf_preferences 2 3 preferences /\
    forall item, item < 3 -> likes preferences (2 - 1) item.
Proof.
  apply (proj2 (proj2 (@create_agent_preferences_well_formed rat_num lcg_random
                         2 3 (1 # 2)%Q 5%Z))).
  - lia.
  - intros r. simpl. eauto.
Defined.

(** ** The paths of the table are simple *)

(** No path of the table that [solve_APSP] builds visits an agent twice;
    so no path has more than [agent_quantity] agents. *)
Theorem solve_APSP_simple_paths (n : nat) (g : list (list nat))
    (apsp : list (list (list nat))) (s t : nat) (row : list (list nat))
    (p : list nat) :
  wf_graph n g ->
  solve_APSP n g = Ok apsp ->
  apsp !! s = Some row -> row !! t = Some p ->
  NoDup p /\ length p <= n.
Proof.
  intros Hwf Hrun Hrow Hp.
  pose proof (solve_APSP_NoDup n g apsp s t row p Hrun Hrow Hp) as Hnd.
  split; [exact Hnd|]. destruct p as [|a p]; [simpl; lia|].
  apply NoDup_bounded_length; [exact Hnd|].
  destruct (solve_APSP_spec n g apsp Hrun) as [_ Hrows].
  destruct (Hrows s row Hrow) as (Hs & _ & _ & Hpaths).
  destruct (Hpaths t (a :: p) Hp) as (_ & Hhead & _ & Hwalk); [discriminate|].
  exact (walk_bound n g s (a :: p) Hwf Hwalk Hhead Hs).
Qed.

Lemma solve_APSP_simple_paths_witness :
  NoDup [0; 1; 2] /\ length [0; 1; 2] <= 3.
Proof.
  apply (solve_APSP_simple_paths 3 [[1]; [2]; [0]]
           [[[]; [0; 1]; [0; 1; 2]]; [[1; 2; 0]; []; [1; 2]]; [[2; 0]; [2; 0; 1]; []]]
           0 2 [[]; [0; 1]; [0; 1; 2]]).
  - apply wf_graph_check; reflexivity.
  - vm_compute. reflexivity.
  - reflexivity.
  - reflexivity.
Defined.

(** ** What a pass does to the counts *)



(** ** The welfare never falls *)

(** A run of the loop that returns either returns the allocation and the
    swaps it was given, or an allocation whose welfare
    [split_nsw(calculate_agent_valuations(allocation))] is computed and
    strictly above the welfare of the allocation it was given. *)
Theorem solve_loop_raises_welfare `{PyNum} (n m : nat)
    (preferences : list (list bool)) (runs run : nat) (allocation : list nat)
    (swaps : list (list nat)) (out : outcome) :
  wf_preferences n m preferences ->
  wf_allocation n m allocation ->
  solve_loop n m runs run preferences allocation swaps = Ok out ->
  (final_allocation out = allocation /\ global_swapping_list out = swaps) \/
  (exists w w', welfare n m allocation = Ok w /\
     welfare n m (final_allocation out) = Ok w' /\ num_gt w' w = Ok true).
Proof.
  intros Hp Ha Hrun.
  exact (solve_loop_welfare n m preferences Hp runs run allocation swaps out Ha Hrun).
Qed.

Lemma solve_loop_raises_welfare_witness :
  (final_allocation (Outcome [0; 2; 1; 1] [[1]] 2 CONVERGED) = [0; 1; 1; 1] /\
   global_swapping_list (Outcome [0; 2; 1; 1] [[1]] 2 CONVERGED) = []) \/
  (exists w w', @welfare rat_num 3 4 [0; 1; 1; 1] = Ok w /\
     @welfare rat_num 3 4 (final_allocation (Outcome [0; 2; 1; 1] [[1]] 2 CONVERGED))
       = Ok w' /\
     @num_gt rat_num w' w = Ok true).
Proof.
  apply (@solve_loop_raises_welfare rat_num 3 4
           [[true; true; false; false]; [false; true; true; false];
            [true; true; true; true]] 5 0).
  - apply wf_preferences_check; reflexivity.
  - apply wf_allocation_check; reflexivity.
  - vm_compute. reflexivity.
Defined.

(** ** Nothing is wasted *)

(** When every item of the allocation is held by an agent who likes it, so
    it is in the allocation that the loop returns: an item changes hands
    only to the taker of a hop, who likes it. *)
Theorem solve_loop_keeps_nonwasteful `{PyNum} (n m : nat)
    (preferences : list (list bool)) (runs run : nat) (allocation : list nat)
    (swaps : list (list nat)) (out : outcome) :
  wf_preferences n m preferences ->
  wf_allocation n m allocation ->
  nonwasteful preferences allocation ->
  solve_loop n m runs run preferences allocation swaps = Ok out ->
  wf_allocation n m (final_allocation out) /\
  nonwasteful preferences (final_allocation out).
Proof.
  intros Hp Ha Hnw Hrun.
  exact (solve_loop_nonwasteful n m preferences Hp runs run allocation swaps out
           Ha Hnw Hrun).
Qed.

Lemma solve_loop_keeps_nonwasteful_witness :
  wf_allocation 2 3 (final_allocation (Outcome [1; 0; 0] [[0]] 2 CONVERGED)) /\
  nonwasteful [[true; true; true]; [true; true; true]]
    (final_allocation (Outcome [1; 0; 0] [[0]] 2 CONVERGED)).
Proof.
  apply (@solve_loop_keeps_nonwasteful rat_num 2 3
           [[true; true; true]; [true; true; true]] 5 0 [0; 0; 0] []).
  - apply wf_preferences_check; reflexivity.
  - apply wf_allocation_check; reflexivity.
  - apply nonwasteful_check. reflexivity.
  - vm_compute. reflexivity.
Defined.

(** ** An allocation without envy *)



(** ** Possessions and valuations *)

(** For an allocation of the [m] items to the [n] agents, the possessions
    of an agent are its items in ascending order, its valuation is their
    number, and the valuations add up to [m]. *)
Theorem valuations_count_possessions (n m : nat) (allocation : list nat) :
  wf_allocation n m allocation ->
  exists possessions agent_values,
    find_possession n allocation = Ok possessions /\
    calculate_agent_valuations n m allocation = Ok agent_values /\
    length possessions = n /\ length agent_values = n /\
    (forall a own, possessions !! a = Some own ->
       own = filter (fun item => allocation !! item = Some a) (seq 0 m) /\
       agent_values !! a = Some (Z.of_nat (length own))) /\
    total agent_values = Z.of_nat m.
Proof.
  intros Ha.
  destruct (find_possession_total n m allocation Ha) as [possessions Hposs].
  destruct (calculate_agent_valuations_total n m allocation Ha)
    as [agent_values Hvals].
  destruct (find_possession_spec n allocation possessions Hposs) as (Hlp & _ & _).
  destruct (calculate_agent_valuations_spec n m allocation agent_values Hvals)
    as [Hlv Hcount].
  exists possessions, agent_values.
  split; [exact Hposs|]. split; [exact Hvals|]. split; [exact Hlp|].
  split; [exact Hlv|]. split.
  - intros a own Hown.
    pose proof (possession_filter n m allocation possessions a own (proj1 Ha)
                  Hposs Hown) as Heq.
    split; [exact Heq|].
    rewrite Hcount by (apply lookup_lt_Some in Hown; lia).
    rewrite Heq. reflexivity.
  - rewrite (valuations_map n m allocation agent_values Hvals).
    apply total_counts; [destruct Ha as [-> _]; lia | exact (proj2 Ha)].
Qed.

Lemma valuations_count_possessions_witness :
  exists possessions agent_values,
    find_possession 3 [2; 0; 2; 1] = Ok possessions /\
    calculate_agent_valuations 3 4 [2; 0; 2; 1] = Ok agent_values /\
    length possessions = 3 /\ length agent_values = 3 /\
    (forall a own, possessions !! a = Some own ->
       own = filter (fun item => [2; 0; 2; 1] !! item = Some a) (seq 0 4) /\
       agent_values !! a = Some (Z.of_nat (length own))) /\
    total agent_values = Z.of_nat 4.
Proof.
  apply (valuations_count_possessions 3 4 [2; 0; 2; 1]).
  apply wf_allocation_check; reflexivity.
Defined.

(** ** The envy relations before they are shortened *)

(** The row of agent [a] in what [calculate_item_envy_relations] returns
    lists, in the order of the items, the holder of every item that [a]
    likes and does not hold: another agent [b] stands in it once for every
    item of [b] that [a] likes, and [a] itself does not. *)
Theorem envy_relations_multigraph (n m : nat) (preferences : list (list bool))
    (allocation : list nat) :
  wf_preferences n m preferences -> length allocation = m ->
  exists edges,
    calculate_item_envy_relations n m preferences allocation = Ok edges /\
    length edges = n /\
    forall a row, edges !! a = Some row ->
      row = omap (fun item => allocation !! item)
              (envied preferences allocation m a) /\
      (a ∉ row) /\
      forall b, b <> a ->
        length (filter (fun x => x = b) row) =
        length (filter (fun item => likesb preferences a item = true /\
                                    allocation !! item = Some b) (seq 0 m)).
Proof.
  intros Hp Hlen.
  destruct (envy_relations_rows n m preferences allocation Hp Hlen)
    as (edges & Hedges & Hl & Hrows).
  exists edges. split; [exact Hedges|]. split; [exact Hl|].
  intros a row Hrow. pose proof (Hrows a row Hrow) as ->.
  split; [reflexivity|]. split.
  - intros Hin. apply list_elem_of_omap in Hin as (item & Hitem & Hown).
    unfold envied in Hitem. apply list_elem_of_filter in Hitem as [[_ Hne] _].
    contradiction.
  - intros b Hb. exact (envied_count preferences allocation a b (seq 0 m) Hb).
Qed.

Lemma envy_relations_multigraph_witness :
  exists edges,
    calculate_item_envy_relations 3 4
      [[true; true; false; false]; [false; true; true; false];
       [true; true; true; true]] [0; 1; 1; 1] = Ok edges /\
    length edges = 3 /\
    forall a row, edges !! a = Some row ->
      row = omap (fun item => [0; 1; 1; 1] !! item)
              (envied [[true; true; false; false]; [false; true; true; false];
                       [true; true; true; true]] [0; 1; 1; 1] 4 a) /\
      (a ∉ row) /\
      forall b, b <> a ->
        length (filter (fun x => x = b) row) =
        length (filter (fun item =>
                  likesb [[true; true; false; false]; [false; true; true; false];
                          [true; true; true; true]] a item = true /\
                  [0; 1; 1; 1] !! item = Some b) (seq 0 4)).
Proof.
  apply (envy_relations_multigraph 3 4).
  - apply wf_preferences_check; reflexivity.
  - reflexivity.
Defined.

(** ** From the generator to the loop *)

(** With at least two agents and float operations that raise nothing, the
    first part of [main] makes an instance on which the loop of the third
    part raises nothing, for any number of passes: the preferences are
    generated, the allocation is complete and wastes nothing, and so is the
    allocation that the loop returns. *)
Theorem generated_instance_solved `{PyRandom} (n m : nat)
    (liking_probability : num) (g : rng) :
  2 <= n ->
  (forall p, (0 <= p)%Z ->
     exists y, int_pow p (int_truediv 1 (Z.of_nat n)) = Ok y) ->
  (forall x y, exists b, num_gt x y = Ok b) ->
  exists preferences g1 allocation g2,
    create_agent_preferences n m liking_probability (create_agents n) g
      = Ok (preferences, g1) /\
    random_allocation n m preferences g1
      = Ok (map (fun a => Some (Z.of_nat a)) allocation, g2) /\
    wf_preferences n m preferences /\
    wf_allocation n m allocation /\ nonwasteful preferences allocation /\
    forall runs, exists out,
      solve_loop n m runs 0 preferences allocation [] = Ok out /\
      wf_allocation n m (final_allocation out) /\
      nonwasteful preferences (final_allocation out).
Proof.
  intros Hn Hpow Hgt.
  destruct (create_agent_preferences_spec n m liking_probability
              (fun r => Hgt liking_probability r) (create_agents n) g)
    as (preferences & g1 & Hprefs & Hp & Hlast); [lia| |].
  { rewrite create_agents_replicate. apply length_replicate. }
  destruct (allocation_from_spec n m preferences (Ok (Z.of_nat n - 2)%Z)
              (Z.of_nat n - 2)%Z Hp eq_refl) with (g := g1)
    as (allocation & g2 & Hrun & Hwf & Hlikes & _); [lia|].
  assert (Hnw : nonwasteful preferences allocation).
  { intros item a Ha. destruct (Hlikes item a Ha) as [Hl| ->]; [exact Hl|].
    apply Hlast. apply lookup_lt_Some in Ha. rewrite (proj1 Hwf) in Ha. exact Ha. }
  exists preferences, g1, allocation, g2.
  split; [exact Hprefs|]. split; [exact Hrun|]. split; [exact Hp|].
  split; [exact Hwf|]. split; [exact Hnw|]. intros runs.
  assert (Htotal : forall runs run allocation swaps,
            wf_allocation n m allocation ->
            exists out, solve_loop n m runs run preferences allocation swaps = Ok out).
  { clear runs. intros runs. induction runs as [|runs IH]; intros run al swaps Hal.
    - eexists. reflexivity.
    - rewrite solve_loop_pass.
      destruct (select_total n m ltac:(lia) Hpow Hgt preferences al Hp Hal)
        as [best_path Hselect].
      rewrite Hselect. simpl. destruct best_path as [|b best_path].
      + eexists. reflexivity.
      + destruct (reallocate_spec n m preferences al Hp Hal (b :: best_path)
                    Hselect) as (al' & plan & -> & Hwf' & _); [discriminate|].
        simpl. apply IH. exact Hwf'. }
  destruct (Htotal runs 0 allocation [] Hwf) as [out Hout].
  exists out. split; [exact Hout|].
  exact (solve_loop_nonwasteful n m preferences Hp runs 0 allocation [] out
           Hwf Hnw Hout).
Qed.

Lemma generated_instance_solved_witness :
  exists preferences g1 allocation g2,
    @create_agent_preferences 2 3 rat_num lcg_random (1 # 2)%Q (create_agents 2) 5%Z
      = Ok (preferences, g1) /\
    @random_allocation 2 3 rat_num lcg_random preferences g1
      = Ok (map (fun a => Some (Z.of_nat a)) allocation, g2) /\
    wf_preferences 2 3 preferences /\
    wf_allocation 2 3 allocation /\ nonwasteful preferences allocation /\
    forall runs, exists out,
      @solve_loop 2 3 rat_num runs 0 preferences allocation [] = Ok out /\
      wf_allocation 2 3 (final_allocation out) /\
      nonwasteful preferences (final_allocation out).
Proof.
  apply (@generated_instance_solved rat_num lcg_random 2 3 (1 # 2)%Q 5%Z).
  - lia.
  - intros p Hp. simpl. unfold RatNum.q_int_pow.
    destruct (p <? 0)%Z eqn:Hneg; [apply Z.ltb_lt in Hneg; lia|].
    simpl. eauto.
  - intros x y. simpl. eauto.
Defined.
